(** * GeoFirestore: geohash coverage and the live query state machine

    A shallow embedding of [dist/utils.js], [dist/callbackRegistration.js],
    [dist/query.js] and of the methods [set], [get], [remove] and [distance]
    of [GeoFirestore], with the properties of the query engine stated and
    proved over it.

    Conventions of the embedding.
    - JavaScript strings are [string]; [<=] and [>=] on two strings are the
      lexicographic order on character codes ([String.leb]).
    - Integers that the code only uses as integers (bit counts, character
      indices) are [Z]; the 32-bit shifts [>>] and [<<] are written out with
      their wrap-around.
    - Finite JavaScript numbers are idealised as real numbers ([R]); [NaN] is
      a separate value of [jsval].  Rounding of doubles is not modelled.
    - A function that can throw returns a [result]; methods of the query run
      in the state-and-exception monad [M] over the [World].  The message of
      an error that prints a location, an object or a range is shortened to
      its fixed part. *)

From Stdlib Require Import ZArith List Bool Ascii String Lia RelationClasses.
From Stdlib Require Import DecimalString.
From Stdlib Require Import QArith Qreals.
From Stdlib Require Import Reals Zfloor Machin Lra.
Import ListNotations.

Local Open Scope string_scope.
Local Open Scope Z_scope.

(** * Part I: the embedding *)

(** ** Exceptions *)

Inductive exn : Type :=
| Error (msg : string)
| TypeError (msg : string).

Inductive result (A : Type) : Type :=
| Ok (a : A)
| Throw (e : exn).
Arguments Ok {A} a.
Arguments Throw {A} e.

Definition bind_result {A B} (r : result A) (k : A -> result B) : result B :=
  match r with
  | Ok a => k a
  | Throw e => Throw e
  end.

Definition is_ok {A} (r : result A) : bool :=
  match r with Ok _ => true | Throw _ => false end.

(** ** JavaScript string primitives used by the code *)

Module JsString.

Definition len (s : string) : Z := Z.of_nat (String.length s).

(** [s.substring(0, n)]: the end index is clamped to [0, length]. *)
Definition substring0 (n : Z) (s : string) : string :=
  String.substring 0 (Z.to_nat (Z.min (Z.max n 0) (len s))) s.

(** [s.charAt(i)]: the empty string when [i] is out of range. *)
Definition charAt (i : Z) (s : string) : string :=
  if (i <? 0) then EmptyString
  else match String.get (Z.to_nat i) s with
       | Some c => String c EmptyString
       | None => EmptyString
       end.

(** [s.indexOf(sub)]: [-1] when [sub] does not occur. *)
Definition indexOf (sub s : string) : Z :=
  match sub with
  | EmptyString => 0
  | _ => match String.index 0 sub s with
         | Some n => Z.of_nat n
         | None => -1
         end
  end.

(** [s + t[i]]: an index out of range reads [undefined], which the
    concatenation prints. *)
Definition append_index (s t : string) (i : Z) : string :=
  s ++ (if (i <? 0) then "undefined"
        else match String.get (Z.to_nat i) t with
             | Some c => String c EmptyString
             | None => "undefined"
             end).

(** [s <= t] on two strings. *)
Definition le (s t : string) : bool := String.leb s t.

End JsString.

(** ** 32-bit integer operators *)

Definition ToInt32 (x : Z) : Z := (x + 2 ^ 31) mod 2 ^ 32 - 2 ^ 31.

(** The shift count of [>>] and [<<] is the right operand modulo 32. *)
Definition shift_count (n : Z) : Z := Z.land n 31.

Definition js_shr (a n : Z) : Z := Z.shiftr (ToInt32 a) (shift_count n).
Definition js_shl (a n : Z) : Z := ToInt32 (Z.shiftl (ToInt32 a) (shift_count n)).

(** [Math.ceil(a / b)] for integers [a] and [b > 0]. *)
Definition ceil_div (a b : Z) : Z := - ((- a) / b).

(** ** utils.js: constants *)

Definition g_GEOHASH_PRECISION : Z := 10.
Definition g_BASE32 : string := "0123456789bcdefghjkmnpqrstuvwxyz".
Definition g_BITS_PER_CHAR : Z := 5.
Definition g_MAXIMUM_BITS_PRECISION : Z := 22 * g_BITS_PER_CHAR.

(** ** utils.js: validateGeohash *)

(** The loop of [validateGeohash]: the last letter outside the alphabet is the
    one reported. *)
Fixpoint validateGeohash_letters (geohash : string) (error : option string)
  : option string :=
  match geohash with
  | EmptyString => error
  | String letter rest =>
      validateGeohash_letters rest
        (if JsString.indexOf (String letter EmptyString) g_BASE32 =? -1
         then Some ("geohash cannot contain '" ++ String letter "'")
         else error)
  end.

Definition validateGeohash (geohash : string) : result unit :=
  let error :=
    if JsString.len geohash =? 0
    then Some "geohash cannot be the empty string"
    else validateGeohash_letters geohash None in
  match error with
  | Some e => Throw (Error ("Invalid GeoFire geohash '" ++ geohash ++ "': " ++ e))
  | None => Ok tt
  end.

(** ** utils.js: geohashQuery *)

Definition geohashQuery (geohash : string) (bits : Z) : result (string * string) :=
  bind_result (validateGeohash geohash) (fun _ =>
  let precision := ceil_div bits g_BITS_PER_CHAR in
  if JsString.len geohash <? precision then
    Ok (geohash, geohash ++ "~")
  else
    let geohash := JsString.substring0 precision geohash in
    let base := JsString.substring0 (JsString.len geohash - 1) geohash in
    let lastValue :=
      JsString.indexOf (JsString.charAt (JsString.len geohash - 1) geohash) g_BASE32 in
    let significantBits := bits - JsString.len base * g_BITS_PER_CHAR in
    let unusedBits := g_BITS_PER_CHAR - significantBits in
    let startValue := js_shl (js_shr lastValue unusedBits) unusedBits in
    let endValue := startValue + js_shl 1 unusedBits in
    if endValue >? 31 then
      Ok (JsString.append_index base g_BASE32 startValue, base ++ "~")
    else
      Ok (JsString.append_index base g_BASE32 startValue,
          JsString.append_index base g_BASE32 endValue)).

(** ** JavaScript values *)

Local Set Warnings "-register-all".

Inductive jsval : Type :=
| VUndefined
| VNull
| VBool (b : bool)
| VNum (x : R)
| VNaN
| VStr (s : string)
| VArr (items : list jsval)
| VObj (props : list (string * jsval))
| VFun (id : nat).

Definition typeof (v : jsval) : string :=
  match v with
  | VUndefined => "undefined"
  | VNull | VArr _ | VObj _ => "object"
  | VBool _ => "boolean"
  | VNum _ | VNaN => "number"
  | VStr _ => "string"
  | VFun _ => "function"
  end.

Fixpoint lookup {V : Type} (k : string) (l : list (string * V)) : option V :=
  match l with
  | [] => None
  | (k', v) :: rest => if String.eqb k k' then Some v else lookup k rest
  end.

(** [o.name] for a name that is not an array index: reading a property of
    [undefined] or [null] throws, a missing property reads [undefined]. *)
Definition get_field (o : jsval) (name : string) : result jsval :=
  match o with
  | VUndefined | VNull => Throw (TypeError ("Cannot read property '" ++ name ++ "'"))
  | VObj props => Ok (match lookup name props with Some v => v | None => VUndefined end)
  | _ => Ok VUndefined
  end.

(** [Object.keys(o)] of a value whose [typeof] is ['object']; an array lists
    its indices, which are never ['center'] or ['radius']. *)
Definition object_keys (o : jsval) : result (list string) :=
  match o with
  | VUndefined | VNull => Throw (TypeError "Cannot convert undefined or null to object")
  | VObj props => Ok (map fst props)
  | VArr items => Ok (map (fun _ => "<index>") items)
  | _ => Ok []
  end.

(** Comparisons of real numbers as booleans. *)
Definition Rltb (x y : R) : bool := if Rlt_dec x y then true else false.
Definition Rleb (x y : R) : bool := if Rle_dec x y then true else false.
Definition Reqb (x y : R) : bool := if Req_dec_T x y then true else false.

(** ** utils.js: validateLocation *)

Definition validateLocation (location : jsval) : result unit :=
  let error :=
    match location with
    | VArr items =>
        match items with
        | [latitude; longitude] =>
            match latitude with
            | VNum lat =>
                if Rltb lat (-90) || Rltb 90 lat
                then Some "latitude must be within the range [-90, 90]"
                else match longitude with
                     | VNum lon =>
                         if Rltb lon (-180) || Rltb 180 lon
                         then Some "longitude must be within the range [-180, 180]"
                         else None
                     | _ => Some "longitude must be a number"
                     end
            | _ => Some "latitude must be a number"
            end
        | _ => Some "expected array of length 2"
        end
    | _ => Some "location must be an array"
    end in
  match error with
  | Some e => Throw (Error ("Invalid GeoFire location: " ++ e))
  | None => Ok tt
  end.

(** The [latitude, longitude] pair of a location that passed
    [validateLocation]. *)
Definition coords (location : jsval) : R * R :=
  match location with
  | VArr [VNum lat; VNum lon] => (lat, lon)
  | _ => (0%R, 0%R)
  end.

Definition loc (lat lon : R) : jsval := VArr [VNum lat; VNum lon].

(** ** utils.js: validateCriteria *)

Fixpoint validateCriteria_keys (keys : list string) : result unit :=
  match keys with
  | [] => Ok tt
  | key :: rest =>
      if negb (String.eqb key "center") && negb (String.eqb key "radius")
      then Throw (Error ("Unexpected attribute '" ++ key ++ "' found in query criteria"))
      else validateCriteria_keys rest
  end.

Definition is_undefined (v : jsval) : bool :=
  match v with VUndefined => true | _ => false end.

Definition validateCriteria (newQueryCriteria : jsval) (requireCenterAndRadius : bool)
  : result unit :=
  if negb (String.eqb (typeof newQueryCriteria) "object") then
    Throw (Error "query criteria must be an object")
  else
    bind_result (get_field newQueryCriteria "center") (fun center =>
    bind_result (get_field newQueryCriteria "radius") (fun radius =>
    if is_undefined center && is_undefined radius then
      Throw (Error "radius and/or center must be specified")
    else if requireCenterAndRadius && (is_undefined center || is_undefined radius) then
      Throw (Error "query criteria for a new query must contain both a center and a radius")
    else
      bind_result (object_keys newQueryCriteria) (fun keys =>
      bind_result (validateCriteria_keys keys) (fun _ =>
      bind_result (if is_undefined center then Ok tt else validateLocation center) (fun _ =>
      match radius with
      | VUndefined => Ok tt
      | VNum r =>
          if Rltb r 0 then Throw (Error "radius must be greater than or equal to 0")
          else Ok tt
      | _ => Throw (Error "radius must be a number")
      end))))).

(** ** utils.js: numeric constants and helpers *)

Definition g_EARTH_MERI_CIRCUMFERENCE : R := 40007860.
Definition g_METERS_PER_DEGREE_LATITUDE : R := 110574.
Definition g_EARTH_EQ_RADIUS : R := 6378137.
Definition g_E2 : R := 669447819799 / 100000000000000.
Definition g_EPSILON : R := 1 / 1000000000000.

(** [Math.log2]. *)
Definition log2 (x : R) : R := (ln x / ln 2)%R.

(** [x % y] on numbers: the remainder of the division truncated towards
    zero. *)
Definition js_rem (x y : R) : R :=
  (x - y * IZR (if Rle_dec 0 (x / y) then Zfloor (x / y) else Zceil (x / y)))%R.

Definition degreesToRadians (degrees : R) : R := (degrees * PI / 180)%R.

(** ** utils.js: encodeGeohash *)

Record Range : Type := { min : R; max : R }.

Record EncodeState : Type := {
  latitudeRange : Range;
  longitudeRange : Range;
  hash : string;
  hashVal : Z;
  bits : Z;
  even : bool
}.

Definition encode_init : EncodeState :=
  {| latitudeRange := {| min := (-90)%R; max := 90%R |};
     longitudeRange := {| min := (-180)%R; max := 180%R |};
     hash := EmptyString; hashVal := 0; bits := 0; even := true |}.

(** One iteration of the [while] loop. *)
Definition encode_step (location : R * R) (st : EncodeState) : EncodeState :=
  let val := if even st then snd location else fst location in
  let range := if even st then longitudeRange st else latitudeRange st in
  let mid := ((min range + max range) / 2)%R in
  let upper := Rltb mid val in
  let hashVal' := js_shl (hashVal st) 1 + (if upper then 1 else 0) in
  let range' := if upper then {| min := mid; max := max range |}
                else {| min := min range; max := mid |} in
  let lat' := if even st then latitudeRange st else range' in
  let lon' := if even st then range' else longitudeRange st in
  if bits st <? 4 then
    {| latitudeRange := lat'; longitudeRange := lon'; hash := hash st;
       hashVal := hashVal'; bits := bits st + 1; even := negb (even st) |}
  else
    {| latitudeRange := lat'; longitudeRange := lon';
       hash := JsString.append_index (hash st) g_BASE32 hashVal';
       hashVal := 0; bits := 0; even := negb (even st) |}.

(** [while (hash.length < precision)]; [None] when the fuel runs out. *)
Fixpoint encode_loop (fuel : nat) (location : R * R) (precision : Z) (st : EncodeState)
  : option string :=
  if JsString.len (hash st) <? precision then
    match fuel with
    | O => None
    | S fuel' => encode_loop fuel' location precision (encode_step location st)
    end
  else Some (hash st).

(** [precision] is an integer here: the callers pass the default [10] or
    [Math.ceil(queryBits / 5)].  Each character takes five iterations. *)
Definition encodeGeohash (location : jsval) (precision : Z) : result string :=
  bind_result (validateLocation location) (fun _ =>
  if precision <=? 0 then Throw (Error "precision must be greater than 0")
  else if precision >? 22 then Throw (Error "precision cannot be greater than 22")
  else
    match encode_loop (Z.to_nat (g_BITS_PER_CHAR * precision)) (coords location)
                      precision encode_init with
    | Some h => Ok h
    | None => Throw (Error "encodeGeohash: the loop did not finish")
    end).

(** ** utils.js: resolution of the bounding box *)

Definition metersToLongitudeDegrees (distance latitude : R) : R :=
  let radians := degreesToRadians latitude in
  let num := (cos radians * g_EARTH_EQ_RADIUS * PI / 180)%R in
  let denom := (1 / sqrt (1 - g_E2 * sin radians * sin radians))%R in
  let deltaDeg := (num * denom)%R in
  if Rltb deltaDeg g_EPSILON then (if Rltb 0 distance then 360%R else 0%R)
  else Rmin 360 (distance / deltaDeg).

Definition longitudeBitsForResolution (resolution latitude : R) : R :=
  let degs := metersToLongitudeDegrees resolution latitude in
  if Rltb (1 / 1000000) (Rabs degs) then Rmax 1 (log2 (360 / degs)) else 1%R.

(** At resolution [0] the quotient is [Infinity] and the minimum is the
    maximum precision.  The callers pass a resolution [>= 0]. *)
Definition latitudeBitsForResolution (resolution : R) : R :=
  if Reqb resolution 0 then IZR g_MAXIMUM_BITS_PRECISION
  else Rmin (log2 (g_EARTH_MERI_CIRCUMFERENCE / 2 / resolution))
            (IZR g_MAXIMUM_BITS_PRECISION).

Definition wrapLongitude (longitude : R) : R :=
  if Rleb longitude 180 && Rleb (-180) longitude then longitude
  else
    let adjusted := (longitude + 180)%R in
    if Rltb 0 adjusted then (js_rem adjusted 360 - 180)%R
    else (180 - js_rem (- adjusted) 360)%R.

Definition boundingBoxBits (coordinate : R * R) (size : R) : Z :=
  let latDeltaDegrees := (size / g_METERS_PER_DEGREE_LATITUDE)%R in
  let latitudeNorth := Rmin 90 (fst coordinate + latDeltaDegrees) in
  let latitudeSouth := Rmax (-90) (fst coordinate - latDeltaDegrees) in
  let bitsLat := Zfloor (latitudeBitsForResolution size) * 2 in
  let bitsLongNorth := Zfloor (longitudeBitsForResolution size latitudeNorth) * 2 - 1 in
  let bitsLongSouth := Zfloor (longitudeBitsForResolution size latitudeSouth) * 2 - 1 in
  Z.min (Z.min (Z.min bitsLat bitsLongNorth) bitsLongSouth) g_MAXIMUM_BITS_PRECISION.

Definition boundingBoxCoordinates (center : R * R) (radius : R) : list (R * R) :=
  let latDegrees := (radius / g_METERS_PER_DEGREE_LATITUDE)%R in
  let latitudeNorth := Rmin 90 (fst center + latDegrees) in
  let latitudeSouth := Rmax (-90) (fst center - latDegrees) in
  let longDegsNorth := metersToLongitudeDegrees radius latitudeNorth in
  let longDegsSouth := metersToLongitudeDegrees radius latitudeSouth in
  let longDegs := Rmax longDegsNorth longDegsSouth in
  [ (fst center, snd center);
    (fst center, wrapLongitude (snd center - longDegs));
    (fst center, wrapLongitude (snd center + longDegs));
    (latitudeNorth, snd center);
    (latitudeNorth, wrapLongitude (snd center - longDegs));
    (latitudeNorth, wrapLongitude (snd center + longDegs));
    (latitudeSouth, snd center);
    (latitudeSouth, wrapLongitude (snd center - longDegs));
    (latitudeSouth, wrapLongitude (snd center + longDegs)) ].

(** ** utils.js: geohashQueries *)

Fixpoint map_result {A B} (f : A -> result B) (l : list A) : result (list B) :=
  match l with
  | [] => Ok []
  | a :: rest =>
      bind_result (f a) (fun b =>
      bind_result (map_result f rest) (fun bs => Ok (b :: bs)))
  end.

Definition query_eqb (query other : string * string) : bool :=
  String.eqb (fst query) (fst other) && String.eqb (snd query) (snd other).

(** [queries.filter(...)]: a query is dropped when an equal one stands at a
    smaller index. *)
Fixpoint remove_duplicates (seen queries : list (string * string))
  : list (string * string) :=
  match queries with
  | [] => []
  | query :: rest =>
      if existsb (query_eqb query) seen
      then remove_duplicates (seen ++ [query]) rest
      else query :: remove_duplicates (seen ++ [query]) rest
  end.

Definition geohashQueries (center : jsval) (radius : R) : result (list (string * string)) :=
  bind_result (validateLocation center) (fun _ =>
  let queryBits := Z.max 1 (boundingBoxBits (coords center) radius) in
  let geohashPrecision := ceil_div queryBits g_BITS_PER_CHAR in
  let coordinates := boundingBoxCoordinates (coords center) radius in
  bind_result
    (map_result (fun coordinate =>
       bind_result (encodeGeohash (loc (fst coordinate) (snd coordinate)) geohashPrecision)
                   (fun h => geohashQuery h queryBits))
       coordinates) (fun queries =>
  Ok (remove_duplicates [] queries))).

(** ** GeoFirestore.distance *)

(** [Math.atan2(y, x)]. *)
Definition atan2 (y x : R) : R :=
  if Rltb 0 x then atan (y / x)
  else if Rltb x 0 then (if Rleb 0 y then atan (y / x) + PI else atan (y / x) - PI)%R
  else if Rltb 0 y then (PI / 2)%R
  else if Rltb y 0 then (- PI / 2)%R
  else 0%R.

Definition distance (location1 location2 : jsval) : result R :=
  bind_result (validateLocation location1) (fun _ =>
  bind_result (validateLocation location2) (fun _ =>
  let l1 := coords location1 in
  let l2 := coords location2 in
  let radius := 6371%R in
  let latDelta := degreesToRadians (fst l2 - fst l1) in
  let lonDelta := degreesToRadians (snd l2 - snd l1) in
  let a := (sin (latDelta / 2) * sin (latDelta / 2) +
            cos (degreesToRadians (fst l1)) * cos (degreesToRadians (fst l2)) *
            sin (lonDelta / 2) * sin (lonDelta / 2))%R in
  let c := (2 * atan2 (sqrt a) (sqrt (1 - a)))%R in
  Ok (radius * c)%R)).

(** ** JavaScript objects used as dictionaries

    [Object.keys] lists the keys that are array indices first, in ascending
    order, and then the other keys in the order they were added; the list is
    kept in that order. *)

Module Dict.

Definition t (V : Type) : Type := list (string * V).

Definition digit (c : ascii) : option N :=
  let n := N_of_ascii c in
  if ((48 <=? n) && (n <=? 57))%N then Some (n - 48)%N else None.

Fixpoint digits (acc : N) (s : string) : option N :=
  match s with
  | EmptyString => Some acc
  | String c rest =>
      match digit c with
      | Some d => digits (acc * 10 + d)%N rest
      | None => None
      end
  end.

(** The array index a key denotes, if it is the canonical decimal form of
    an integer below [2^32 - 1]. *)
Definition array_index (k : string) : option N :=
  match k with
  | EmptyString => None
  | String "0" EmptyString => Some 0%N
  | String "0" _ => None
  | _ => match digits 0 k with
         | Some n => if (n <? 4294967295)%N then Some n else None
         | None => None
         end
  end.

Definition get {V} (k : string) (d : t V) : option V := lookup k d.

(** [k in d]. *)
Definition has {V} (k : string) (d : t V) : bool :=
  match get k d with Some _ => true | None => false end.

Definition keys {V} (d : t V) : list string := map fst d.

Fixpoint replace {V} (k : string) (v : V) (d : t V) : t V :=
  match d with
  | [] => []
  | (k', v') :: rest =>
      if String.eqb k k' then (k', v) :: rest else (k', v') :: replace k v rest
  end.

Fixpoint insert_index {V} (n : N) (k : string) (v : V) (d : t V) : t V :=
  match d with
  | [] => [(k, v)]
  | (k', v') :: rest =>
      match array_index k' with
      | Some n' => if (n' <? n)%N then (k', v') :: insert_index n k v rest
                   else (k, v) :: d
      | None => (k, v) :: d
      end
  end.

(** [d[k] = v]. *)
Definition set {V} (k : string) (v : V) (d : t V) : t V :=
  if has k d then replace k v d
  else match array_index k with
       | Some n => insert_index n k v d
       | None => (d ++ [(k, v)])%list
       end.

(** [delete d[k]]. *)
Definition delete {V} (k : string) (d : t V) : t V :=
  filter (fun kv => negb (String.eqb k (fst kv))) d.

End Dict.

(** ** Arrays: indexOf and splice *)

Fixpoint indexOf_from {A} (eqb : A -> A -> bool) (x : A) (l : list A) (i : Z) : Z :=
  match l with
  | [] => -1
  | y :: rest => if eqb x y then i else indexOf_from eqb x rest (i + 1)
  end.

(** [l.indexOf(x)]. *)
Definition indexOf {A} (eqb : A -> A -> bool) (x : A) (l : list A) : Z :=
  indexOf_from eqb x l 0.

Fixpoint remove_at {A} (n : nat) (l : list A) : list A :=
  match l, n with
  | [], _ => []
  | _ :: rest, O => rest
  | y :: rest, S n' => y :: remove_at n' rest
  end.

(** [l.splice(start, 1)]: a negative [start] counts from the end. *)
Definition splice1 {A} (start : Z) (l : list A) : list A :=
  let len := Z.of_nat (List.length l) in
  let from := if start <? 0 then Z.max (len + start) 0 else Z.min start len in
  remove_at (Z.to_nat from) l.

(** ** callbackRegistration.js and the data of query.js *)

Inductive EventType : Type := Ready | KeyEntered | KeyExited | KeyMoved.

Definition eventType_of_string (s : string) : option EventType :=
  if String.eqb s "ready" then Some Ready
  else if String.eqb s "key_entered" then Some KeyEntered
  else if String.eqb s "key_exited" then Some KeyExited
  else if String.eqb s "key_moved" then Some KeyMoved
  else None.

(** The closure [on] hands to the registration: it removes [callback] from
    the list of [eventType]. *)
Inductive CancelCallback : Type :=
| RemoveCallback (eventType : EventType) (callback : nat).

Record GeoCallbackRegistration : Type := {
  _cancelCallback : option CancelCallback
}.

(** [this._callbacks]: the functions registered for each event, by identity. *)
Record Callbacks : Type := {
  ready : list nat;
  key_entered : list nat;
  key_exited : list nat;
  key_moved : list nat
}.

Definition no_callbacks : Callbacks :=
  {| ready := []; key_entered := []; key_exited := []; key_moved := [] |}.

Definition callbacks_for (eventType : EventType) (c : Callbacks) : list nat :=
  match eventType with
  | Ready => ready c
  | KeyEntered => key_entered c
  | KeyExited => key_exited c
  | KeyMoved => key_moved c
  end.

Definition set_callbacks_for (eventType : EventType) (l : list nat) (c : Callbacks)
  : Callbacks :=
  match eventType with
  | Ready => {| ready := l; key_entered := key_entered c;
                key_exited := key_exited c; key_moved := key_moved c |}
  | KeyEntered => {| ready := ready c; key_entered := l;
                     key_exited := key_exited c; key_moved := key_moved c |}
  | KeyExited => {| ready := ready c; key_entered := key_entered c;
                    key_exited := l; key_moved := key_moved c |}
  | KeyMoved => {| ready := ready c; key_entered := key_entered c;
                   key_exited := key_exited c; key_moved := l |}
  end.

(** An entry of [this._locationsTracked]. *)
Record LocationTracked : Type := {
  location : jsval;
  document : jsval;
  distanceFromCenter : R;
  isInQuery : bool;
  geohash : string
}.

(** An entry of [this._currentGeohashesQueried]; the two callbacks are the
    unsubscribe functions [onSnapshot] returned. *)
Record GeohashQueryState : Type := {
  active : bool;
  childCallback : nat;
  valueCallback : nat
}.

(** The listeners [_listenForNewGeohashes] attaches to the store. *)
Inductive Listener : Type :=
| ChildListener (toQueryStr : string)
| ValueListener (toQueryStr : string).

(** What a scheduled timer calls. *)
Inductive TimerCallback : Type :=
| SweepClosure
    (* function () { if (_this._geohashCleanupScheduled === false)
                       _this._cleanUpCurrentGeohashesQueried(); } *)
| CleanUpMethod
    (* this._cleanUpCurrentGeohashesQueried, passed without its receiver *).

Record Timer : Type := {
  repeating : bool;
  delay : Z;
  callback : TimerCallback
}.

(** The receiver a function runs with. *)
Inductive Receiver : Type :=
| ThisQuery
| ThisTimer.

(** What the trace records: a call of a client callback, or that a call of
    [cancel()] on the query has returned. *)
Inductive Call : Type :=
| CallReady (f : nat)
| CallKey (f : nat) (eventType : EventType) (key : string)
          (location distanceFromCenter document : jsval)
| CancelReturned.

(** What a client callback does when it runs: nothing the query can observe,
    or a call of [cancel()] on the query. *)
Inductive Body : Type :=
| Returns
| CallsCancel.

(** A document snapshot and a change of a query snapshot. *)
Record DocumentSnapshot : Type := {
  id : string;
  exists_ : bool;
  data : jsval
}.

Inductive ChangeType : Type := added | modified | removed.

Record DocumentChange : Type := {
  type : ChangeType;
  doc : DocumentSnapshot
}.

(** ** The world: the fields of the query object and its environment

    [timers] are the timers scheduled and not cleared, [listeners] the store
    listeners attached and not unsubscribed, [calls] the trace of the client
    callbacks called so far (oldest first) and [bodies] what each client
    callback does. *)

Record World : Type := {
  _callbacks : Callbacks;
  _cancelled : bool;
  _currentGeohashesQueried : Dict.t GeohashQueryState;
  _locationsTracked : Dict.t LocationTracked;
  _valueEventFired : bool;
  _geohashCleanupScheduled : bool;
  _cleanUpCurrentGeohashesQueriedTimeout : option nat;
  _cleanUpCurrentGeohashesQueriedInterval : option nat;
  _center : jsval;
  _radius : jsval;
  _outstandingGeohashReadyEvents : list string;
  timers : list (nat * Timer);
  listeners : list (nat * Listener);
  next_handle : nat;
  calls : list Call;
  bodies : nat -> Body
}.

Definition set_callbacks (v : Callbacks) (w : World) : World :=
  {| _callbacks := v; _cancelled := _cancelled w;
     _currentGeohashesQueried := _currentGeohashesQueried w;
     _locationsTracked := _locationsTracked w;
     _valueEventFired := _valueEventFired w;
     _geohashCleanupScheduled := _geohashCleanupScheduled w;
     _cleanUpCurrentGeohashesQueriedTimeout := _cleanUpCurrentGeohashesQueriedTimeout w;
     _cleanUpCurrentGeohashesQueriedInterval := _cleanUpCurrentGeohashesQueriedInterval w;
     _center := _center w; _radius := _radius w;
     _outstandingGeohashReadyEvents := _outstandingGeohashReadyEvents w;
     timers := timers w; listeners := listeners w;
     next_handle := next_handle w; calls := calls w; bodies := bodies w |}.

Definition set_cancelled (v : bool) (w : World) : World :=
  {| _callbacks := _callbacks w; _cancelled := v;
     _currentGeohashesQueried := _currentGeohashesQueried w;
     _locationsTracked := _locationsTracked w;
     _valueEventFired := _valueEventFired w;
     _geohashCleanupScheduled := _geohashCleanupScheduled w;
     _cleanUpCurrentGeohashesQueriedTimeout := _cleanUpCurrentGeohashesQueriedTimeout w;
     _cleanUpCurrentGeohashesQueriedInterval := _cleanUpCurrentGeohashesQueriedInterval w;
     _center := _center w; _radius := _radius w;
     _outstandingGeohashReadyEvents := _outstandingGeohashReadyEvents w;
     timers := timers w; listeners := listeners w;
     next_handle := next_handle w; calls := calls w; bodies := bodies w |}.

Definition set_currentGeohashesQueried (v : Dict.t GeohashQueryState) (w : World) : World :=
  {| _callbacks := _callbacks w; _cancelled := _cancelled w;
     _currentGeohashesQueried := v;
     _locationsTracked := _locationsTracked w;
     _valueEventFired := _valueEventFired w;
     _geohashCleanupScheduled := _geohashCleanupScheduled w;
     _cleanUpCurrentGeohashesQueriedTimeout := _cleanUpCurrentGeohashesQueriedTimeout w;
     _cleanUpCurrentGeohashesQueriedInterval := _cleanUpCurrentGeohashesQueriedInterval w;
     _center := _center w; _radius := _radius w;
     _outstandingGeohashReadyEvents := _outstandingGeohashReadyEvents w;
     timers := timers w; listeners := listeners w;
     next_handle := next_handle w; calls := calls w; bodies := bodies w |}.

Definition set_locationsTracked (v : Dict.t LocationTracked) (w : World) : World :=
  {| _callbacks := _callbacks w; _cancelled := _cancelled w;
     _currentGeohashesQueried := _currentGeohashesQueried w;
     _locationsTracked := v; _valueEventFired := _valueEventFired w;
     _geohashCleanupScheduled := _geohashCleanupScheduled w;
     _cleanUpCurrentGeohashesQueriedTimeout := _cleanUpCurrentGeohashesQueriedTimeout w;
     _cleanUpCurrentGeohashesQueriedInterval := _cleanUpCurrentGeohashesQueriedInterval w;
     _center := _center w; _radius := _radius w;
     _outstandingGeohashReadyEvents := _outstandingGeohashReadyEvents w;
     timers := timers w; listeners := listeners w;
     next_handle := next_handle w; calls := calls w; bodies := bodies w |}.

Definition set_valueEventFired (v : bool) (w : World) : World :=
  {| _callbacks := _callbacks w; _cancelled := _cancelled w;
     _currentGeohashesQueried := _currentGeohashesQueried w;
     _locationsTracked := _locationsTracked w; _valueEventFired := v;
     _geohashCleanupScheduled := _geohashCleanupScheduled w;
     _cleanUpCurrentGeohashesQueriedTimeout := _cleanUpCurrentGeohashesQueriedTimeout w;
     _cleanUpCurrentGeohashesQueriedInterval := _cleanUpCurrentGeohashesQueriedInterval w;
     _center := _center w; _radius := _radius w;
     _outstandingGeohashReadyEvents := _outstandingGeohashReadyEvents w;
     timers := timers w; listeners := listeners w;
     next_handle := next_handle w; calls := calls w; bodies := bodies w |}.

Definition set_geohashCleanupScheduled (v : bool) (w : World) : World :=
  {| _callbacks := _callbacks w; _cancelled := _cancelled w;
     _currentGeohashesQueried := _currentGeohashesQueried w;
     _locationsTracked := _locationsTracked w;
     _valueEventFired := _valueEventFired w; _geohashCleanupScheduled := v;
     _cleanUpCurrentGeohashesQueriedTimeout := _cleanUpCurrentGeohashesQueriedTimeout w;
     _cleanUpCurrentGeohashesQueriedInterval := _cleanUpCurrentGeohashesQueriedInterval w;
     _center := _center w; _radius := _radius w;
     _outstandingGeohashReadyEvents := _outstandingGeohashReadyEvents w;
     timers := timers w; listeners := listeners w;
     next_handle := next_handle w; calls := calls w; bodies := bodies w |}.

Definition set_cleanUpCurrentGeohashesQueriedTimeout (v : option nat) (w : World) : World :=
  {| _callbacks := _callbacks w; _cancelled := _cancelled w;
     _currentGeohashesQueried := _currentGeohashesQueried w;
     _locationsTracked := _locationsTracked w;
     _valueEventFired := _valueEventFired w;
     _geohashCleanupScheduled := _geohashCleanupScheduled w;
     _cleanUpCurrentGeohashesQueriedTimeout := v;
     _cleanUpCurrentGeohashesQueriedInterval := _cleanUpCurrentGeohashesQueriedInterval w;
     _center := _center w; _radius := _radius w;
     _outstandingGeohashReadyEvents := _outstandingGeohashReadyEvents w;
     timers := timers w; listeners := listeners w;
     next_handle := next_handle w; calls := calls w; bodies := bodies w |}.

Definition set_cleanUpCurrentGeohashesQueriedInterval (v : option nat) (w : World) : World :=
  {| _callbacks := _callbacks w; _cancelled := _cancelled w;
     _currentGeohashesQueried := _currentGeohashesQueried w;
     _locationsTracked := _locationsTracked w;
     _valueEventFired := _valueEventFired w;
     _geohashCleanupScheduled := _geohashCleanupScheduled w;
     _cleanUpCurrentGeohashesQueriedTimeout := _cleanUpCurrentGeohashesQueriedTimeout w;
     _cleanUpCurrentGeohashesQueriedInterval := v; _center := _center w;
     _radius := _radius w;
     _outstandingGeohashReadyEvents := _outstandingGeohashReadyEvents w;
     timers := timers w; listeners := listeners w;
     next_handle := next_handle w; calls := calls w; bodies := bodies w |}.

Definition set_center (v : jsval) (w : World) : World :=
  {| _callbacks := _callbacks w; _cancelled := _cancelled w;
     _currentGeohashesQueried := _currentGeohashesQueried w;
     _locationsTracked := _locationsTracked w;
     _valueEventFired := _valueEventFired w;
     _geohashCleanupScheduled := _geohashCleanupScheduled w;
     _cleanUpCurrentGeohashesQueriedTimeout := _cleanUpCurrentGeohashesQueriedTimeout w;
     _cleanUpCurrentGeohashesQueriedInterval := _cleanUpCurrentGeohashesQueriedInterval w;
     _center := v; _radius := _radius w;
     _outstandingGeohashReadyEvents := _outstandingGeohashReadyEvents w;
     timers := timers w; listeners := listeners w;
     next_handle := next_handle w; calls := calls w; bodies := bodies w |}.

Definition set_radius (v : jsval) (w : World) : World :=
  {| _callbacks := _callbacks w; _cancelled := _cancelled w;
     _currentGeohashesQueried := _currentGeohashesQueried w;
     _locationsTracked := _locationsTracked w;
     _valueEventFired := _valueEventFired w;
     _geohashCleanupScheduled := _geohashCleanupScheduled w;
     _cleanUpCurrentGeohashesQueriedTimeout := _cleanUpCurrentGeohashesQueriedTimeout w;
     _cleanUpCurrentGeohashesQueriedInterval := _cleanUpCurrentGeohashesQueriedInterval w;
     _center := _center w; _radius := v;
     _outstandingGeohashReadyEvents := _outstandingGeohashReadyEvents w;
     timers := timers w; listeners := listeners w;
     next_handle := next_handle w; calls := calls w; bodies := bodies w |}.

Definition set_outstandingGeohashReadyEvents (v : list string) (w : World) : World :=
  {| _callbacks := _callbacks w; _cancelled := _cancelled w;
     _currentGeohashesQueried := _currentGeohashesQueried w;
     _locationsTracked := _locationsTracked w;
     _valueEventFired := _valueEventFired w;
     _geohashCleanupScheduled := _geohashCleanupScheduled w;
     _cleanUpCurrentGeohashesQueriedTimeout := _cleanUpCurrentGeohashesQueriedTimeout w;
     _cleanUpCurrentGeohashesQueriedInterval := _cleanUpCurrentGeohashesQueriedInterval w;
     _center := _center w; _radius := _radius w;
     _outstandingGeohashReadyEvents := v; timers := timers w;
     listeners := listeners w; next_handle := next_handle w;
     calls := calls w; bodies := bodies w |}.

Definition set_timers (v : list (nat * Timer)) (w : World) : World :=
  {| _callbacks := _callbacks w; _cancelled := _cancelled w;
     _currentGeohashesQueried := _currentGeohashesQueried w;
     _locationsTracked := _locationsTracked w;
     _valueEventFired := _valueEventFired w;
     _geohashCleanupScheduled := _geohashCleanupScheduled w;
     _cleanUpCurrentGeohashesQueriedTimeout := _cleanUpCurrentGeohashesQueriedTimeout w;
     _cleanUpCurrentGeohashesQueriedInterval := _cleanUpCurrentGeohashesQueriedInterval w;
     _center := _center w; _radius := _radius w;
     _outstandingGeohashReadyEvents := _outstandingGeohashReadyEvents w;
     timers := v; listeners := listeners w; next_handle := next_handle w;
     calls := calls w; bodies := bodies w |}.

Definition set_listeners (v : list (nat * Listener)) (w : World) : World :=
  {| _callbacks := _callbacks w; _cancelled := _cancelled w;
     _currentGeohashesQueried := _currentGeohashesQueried w;
     _locationsTracked := _locationsTracked w;
     _valueEventFired := _valueEventFired w;
     _geohashCleanupScheduled := _geohashCleanupScheduled w;
     _cleanUpCurrentGeohashesQueriedTimeout := _cleanUpCurrentGeohashesQueriedTimeout w;
     _cleanUpCurrentGeohashesQueriedInterval := _cleanUpCurrentGeohashesQueriedInterval w;
     _center := _center w; _radius := _radius w;
     _outstandingGeohashReadyEvents := _outstandingGeohashReadyEvents w;
     timers := timers w; listeners := v; next_handle := next_handle w;
     calls := calls w; bodies := bodies w |}.

Definition set_next_handle (v : nat) (w : World) : World :=
  {| _callbacks := _callbacks w; _cancelled := _cancelled w;
     _currentGeohashesQueried := _currentGeohashesQueried w;
     _locationsTracked := _locationsTracked w;
     _valueEventFired := _valueEventFired w;
     _geohashCleanupScheduled := _geohashCleanupScheduled w;
     _cleanUpCurrentGeohashesQueriedTimeout := _cleanUpCurrentGeohashesQueriedTimeout w;
     _cleanUpCurrentGeohashesQueriedInterval := _cleanUpCurrentGeohashesQueriedInterval w;
     _center := _center w; _radius := _radius w;
     _outstandingGeohashReadyEvents := _outstandingGeohashReadyEvents w;
     timers := timers w; listeners := listeners w; next_handle := v;
     calls := calls w; bodies := bodies w |}.

Definition set_calls (v : list Call) (w : World) : World :=
  {| _callbacks := _callbacks w; _cancelled := _cancelled w;
     _currentGeohashesQueried := _currentGeohashesQueried w;
     _locationsTracked := _locationsTracked w;
     _valueEventFired := _valueEventFired w;
     _geohashCleanupScheduled := _geohashCleanupScheduled w;
     _cleanUpCurrentGeohashesQueriedTimeout := _cleanUpCurrentGeohashesQueriedTimeout w;
     _cleanUpCurrentGeohashesQueriedInterval := _cleanUpCurrentGeohashesQueriedInterval w;
     _center := _center w; _radius := _radius w;
     _outstandingGeohashReadyEvents := _outstandingGeohashReadyEvents w;
     timers := timers w; listeners := listeners w;
     next_handle := next_handle w; calls := v; bodies := bodies w |}.

Definition set_bodies (v : nat -> Body) (w : World) : World :=
  {| _callbacks := _callbacks w; _cancelled := _cancelled w;
     _currentGeohashesQueried := _currentGeohashesQueried w;
     _locationsTracked := _locationsTracked w;
     _valueEventFired := _valueEventFired w;
     _geohashCleanupScheduled := _geohashCleanupScheduled w;
     _cleanUpCurrentGeohashesQueriedTimeout := _cleanUpCurrentGeohashesQueriedTimeout w;
     _cleanUpCurrentGeohashesQueriedInterval := _cleanUpCurrentGeohashesQueriedInterval w;
     _center := _center w; _radius := _radius w;
     _outstandingGeohashReadyEvents := _outstandingGeohashReadyEvents w;
     timers := timers w; listeners := listeners w;
     next_handle := next_handle w; calls := calls w; bodies := v |}.

(** ** The monad of the methods: state and exceptions

    A method that throws keeps the mutations it made before the throw. *)

Definition M (A : Type) : Type := World -> result A * World.

Definition ret {A} (a : A) : M A := fun w => (Ok a, w).

Definition throw {A} (e : exn) : M A := fun w => (Throw e, w).

Definition bind {A B} (m : M A) (k : A -> M B) : M B :=
  fun w => match m w with
           | (Ok a, w') => k a w'
           | (Throw e, w') => (Throw e, w')
           end.

Definition gets {A} (f : World -> A) : M A := fun w => (Ok (f w), w).

Definition modify (f : World -> World) : M unit := fun w => (Ok tt, f w).

Definition lift {A} (r : result A) : M A := fun w => (r, w).

Declare Scope monad_scope.
Delimit Scope monad_scope with monad.
Notation "x <- m ;; k" := (bind m (fun x => k))
  (at level 61, m at next level, right associativity) : monad_scope.
Notation "m ;; k" := (bind m (fun _ => k))
  (at level 61, right associativity) : monad_scope.
Local Open Scope monad_scope.

(** [l.forEach(f)] on a list that [f] does not change. *)
Fixpoint forEach {A} (f : A -> M unit) (l : list A) : M unit :=
  match l with
  | [] => ret tt
  | a :: rest => f a ;; forEach f rest
  end.

Definition when (b : bool) (m : M unit) : M unit := if b then m else ret tt.

(** ** The environment: timers and store listeners *)

Definition fresh_handle : M nat :=
  h <- gets next_handle ;;
  modify (set_next_handle (S h)) ;;
  ret h.

Definition remove_handle {A} (h : nat) (l : list (nat * A)) : list (nat * A) :=
  filter (fun e => negb (Nat.eqb h (fst e))) l.

Fixpoint find_handle {A} (h : nat) (l : list (nat * A)) : option A :=
  match l with
  | [] => None
  | (h', a) :: rest => if Nat.eqb h h' then Some a else find_handle h rest
  end.

Definition setInterval (f : TimerCallback) (ms : Z) : M nat :=
  h <- fresh_handle ;;
  modify (fun w => set_timers
            (timers w ++ [(h, {| repeating := true; delay := ms; callback := f |})]) w) ;;
  ret h.

Definition setTimeout (f : TimerCallback) (ms : Z) : M nat :=
  h <- fresh_handle ;;
  modify (fun w => set_timers
            (timers w ++ [(h, {| repeating := false; delay := ms; callback := f |})]) w) ;;
  ret h.

(** [clearInterval] and [clearTimeout]; clearing [undefined] or [null] does
    nothing. *)
Definition clearTimer (h : option nat) : M unit :=
  match h with
  | Some h => modify (fun w => set_timers (remove_handle h (timers w)) w)
  | None => ret tt
  end.

(** [firestoreQuery.onSnapshot(listener)]: the value returned unsubscribes. *)
Definition onSnapshot (l : Listener) : M nat :=
  h <- fresh_handle ;;
  modify (fun w => set_listeners (listeners w ++ [(h, l)]) w) ;;
  ret h.

Definition unsubscribe (h : nat) : M unit :=
  modify (fun w => set_listeners (remove_handle h (listeners w)) w).

(** ** utils.js: decoding a stored record *)

(** [v && 'p' in v] for a property [p] that no array and no function has:
    a falsy value gives [false], and [in] throws a [TypeError] on a truthy
    primitive. *)
Definition has_property (p : string) (v : jsval) : result bool :=
  match v with
  | VUndefined | VNull | VNaN | VBool false | VStr EmptyString => Ok false
  | VNum x =>
      if Reqb x 0 then Ok false
      else Throw (TypeError ("Cannot use 'in' operator to search for '" ++ p ++ "'"))
  | VBool true | VStr _ =>
      Throw (TypeError ("Cannot use 'in' operator to search for '" ++ p ++ "'"))
  | VArr _ | VFun _ => Ok false
  | VObj props => Ok (match lookup p props with Some _ => true | None => false end)
  end.

Definition decodeGeoFireObject (geoFireObj : jsval) : result jsval :=
  bind_result (has_property "l" geoFireObj) (fun has_l =>
  match geoFireObj with
  | VObj props =>
      match lookup "l" props with
      | Some (VArr [a; b]) => Ok (VArr [a; b])
      | _ => Throw (Error "Unexpected location object encountered")
      end
  | _ => Throw (Error "Unexpected location object encountered")
  end).

(** Without a property [d] the function returns [undefined]. *)
Definition decodeGeoFireDocumentObject (geoFireObj : jsval) : result jsval :=
  bind_result (has_property "d" geoFireObj) (fun has_d =>
  match geoFireObj with
  | VObj props => Ok (match lookup "d" props with Some d => d | None => VUndefined end)
  | _ => Ok VUndefined
  end).

Definition geoFirestoreGetKey (snapshot : DocumentSnapshot) : string := id snapshot.

(** ** query.js: conversions of a range *)

Fixpoint split_from (sep : ascii) (current : string) (s : string) : list string :=
  match s with
  | EmptyString => [current]
  | String c rest =>
      if Ascii.eqb c sep then current :: split_from sep EmptyString rest
      else split_from sep (current ++ String c EmptyString) rest
  end.

(** [str.split(':')]. *)
Definition split (sep : ascii) (s : string) : list string := split_from sep EmptyString s.

Definition _queryToString (query : string * string) : string :=
  fst query ++ ":" ++ snd query.

Definition _stringToQuery (str : string) : result (string * string) :=
  match split ":" str with
  | [a; b] => Ok (a, b)
  | _ => Throw (Error "Invalid internal state! Not a valid geohash query")
  end.

(** [a || b]. *)
Definition truthy (v : jsval) : bool :=
  match v with
  | VUndefined | VNull | VNaN | VBool false | VStr EmptyString => false
  | VNum x => negb (Reqb x 0)
  | _ => true
  end.

Definition js_or (a b : jsval) : jsval := if truthy a then a else b.

(** [d <= radius] for a number [d]: false when [radius] is not a number. *)
Definition le_radius (d : R) (radius : jsval) : bool :=
  match radius with
  | VNum r => Rleb d r
  | _ => false
  end.

(** ** query.js: the methods of GeoFirestoreQuery *)

Section GeoFirestoreQuery.

(** The number a string converts to when it is compared with [null]
    ([None] for [NaN]); only [_geohashInSomeQuery(null)] uses it. *)
Variable ToNumber : string -> option R.

(** [geohash >= start && geohash <= end], where [geohash] is a string or
    [null]. *)
Definition in_range (geohash : option string) (query : string * string) : bool :=
  match geohash with
  | Some g => JsString.le (fst query) g && JsString.le g (snd query)
  | None =>
      match ToNumber (fst query), ToNumber (snd query) with
      | Some a, Some b => Rleb a 0 && Rleb 0 b
      | _, _ => false
      end
  end.

Definition _cancelGeohashQuery (query : string * string) (queryState : GeohashQueryState)
  : M unit :=
  unsubscribe (childCallback queryState) ;;
  unsubscribe (valueCallback queryState).

Definition cancel : M unit :=
  modify (set_cancelled true) ;;
  modify (set_callbacks no_callbacks) ;;
  keys <- gets (fun w => Dict.keys (_currentGeohashesQueried w)) ;;
  forEach (fun geohashQueryStr =>
    query <- lift (_stringToQuery geohashQueryStr) ;;
    queryState <- gets (fun w => Dict.get geohashQueryStr (_currentGeohashesQueried w)) ;;
    match queryState with
    | Some queryState => _cancelGeohashQuery query queryState
    | None => throw (TypeError "Cannot read property 'childCallback' of undefined")
    end ;;
    modify (fun w => set_currentGeohashesQueried
              (Dict.delete geohashQueryStr (_currentGeohashesQueried w)) w)) keys ;;
  modify (set_locationsTracked []) ;;
  interval <- gets _cleanUpCurrentGeohashesQueriedInterval ;;
  clearTimer interval ;;
  modify (fun w => set_calls (calls w ++ [CancelReturned]) w).

Definition center : M jsval := gets _center.

Definition radius : M jsval := gets _radius.

(** A client callback is called: the call is recorded and its body runs. *)
Definition call (f : nat) (c : Call) : M unit :=
  modify (fun w => set_calls (calls w ++ [c]) w) ;;
  body <- gets (fun w => bodies w f) ;;
  match body with
  | Returns => ret tt
  | CallsCancel => cancel
  end.

(** [forEach] runs over the array that [this._callbacks[eventType]] names
    when the loop starts; [cancel()] replaces the object and leaves that
    array as it is. *)
Definition _fireCallbacksForKey (eventType : EventType) (key : string)
    (location distanceFromCenter document : jsval) : M unit :=
  let document := if is_undefined document then VNull else document in
  callbacks <- gets (fun w => callbacks_for eventType (_callbacks w)) ;;
  forEach (fun f =>
    match location with
    | VUndefined | VNull => call f (CallKey f eventType key VNull VNull VNull)
    | _ => call f (CallKey f eventType key location distanceFromCenter document)
    end) callbacks.

Definition _fireReadyEventCallbacks : M unit :=
  callbacks <- gets (fun w => ready (_callbacks w)) ;;
  forEach (fun f => call f (CallReady f)) callbacks.

Fixpoint _geohashInSomeQuery_loop (geohash : option string) (keys : list string)
  : result bool :=
  match keys with
  | [] => Ok false
  | queryStr :: rest =>
      bind_result (_stringToQuery queryStr) (fun query =>
      if in_range geohash query then Ok true
      else _geohashInSomeQuery_loop geohash rest)
  end.

Definition _geohashInSomeQuery (geohash : option string) : M bool :=
  keys <- gets (fun w => Dict.keys (_currentGeohashesQueried w)) ;;
  lift (_geohashInSomeQuery_loop geohash keys).

Definition _geohashQueryReadyCallback (queryStr : option string) : M unit :=
  match queryStr with
  | Some queryStr =>
      index <- gets (fun w => indexOf String.eqb queryStr (_outstandingGeohashReadyEvents w)) ;;
      when (index >? -1)
        (modify (fun w => set_outstandingGeohashReadyEvents
                   (splice1 index (_outstandingGeohashReadyEvents w)) w))
  | None => ret tt
  end ;;
  modify (fun w => set_valueEventFired
            (Nat.eqb (List.length (_outstandingGeohashReadyEvents w)) 0) w) ;;
  fired <- gets _valueEventFired ;;
  when fired _fireReadyEventCallbacks.

(** The first loop of [_listenForNewGeohashes]: it marks the ranges
    queried so far and removes them from [geohashesToQuery]. *)
Fixpoint mark_current (keys : list string) (geohashesToQuery : list string)
    (current : Dict.t GeohashQueryState) : result (list string * Dict.t GeohashQueryState) :=
  match keys with
  | [] => Ok (geohashesToQuery, current)
  | geohashQueryStr :: rest =>
      match Dict.get geohashQueryStr current with
      | None => Throw (TypeError "Cannot set property 'active' of undefined")
      | Some queryState =>
          let index := indexOf String.eqb geohashQueryStr geohashesToQuery in
          if index =? -1 then
            mark_current rest geohashesToQuery
              (Dict.set geohashQueryStr
                 {| active := false; childCallback := childCallback queryState;
                    valueCallback := valueCallback queryState |} current)
          else
            mark_current rest (splice1 index geohashesToQuery)
              (Dict.set geohashQueryStr
                 {| active := true; childCallback := childCallback queryState;
                    valueCallback := valueCallback queryState |} current)
      end
  end.

(** [geohashesToQuery.filter((geohash, i) => geohashesToQuery.indexOf(geohash) === i)]. *)
Fixpoint first_occurrences (seen l : list string) : list string :=
  match l with
  | [] => []
  | s :: rest =>
      if existsb (String.eqb s) seen then first_occurrences seen rest
      else s :: first_occurrences (seen ++ [s]) rest
  end.

(** [_listenForNewGeohashes] from the point where [geohashesToQuery] holds
    the ranges to query, duplicates removed. *)
Definition _listenForNewGeohashes_from (geohashesToQuery : list string) : M unit :=
  keys <- gets (fun w => Dict.keys (_currentGeohashesQueried w)) ;;
  current <- gets _currentGeohashesQueried ;;
  marked <- lift (mark_current keys geohashesToQuery current) ;;
  let geohashesToQuery := fst marked in
  modify (set_currentGeohashesQueried (snd marked)) ;;
  scheduled <- gets _geohashCleanupScheduled ;;
  count <- gets (fun w => List.length (Dict.keys (_currentGeohashesQueried w))) ;;
  when (negb scheduled && (25 <? Z.of_nat count))
    (modify (set_geohashCleanupScheduled true) ;;
     h <- setTimeout CleanUpMethod 10 ;;
     modify (set_cleanUpCurrentGeohashesQueriedTimeout (Some h))) ;;
  modify (set_outstandingGeohashReadyEvents geohashesToQuery) ;;
  forEach (fun toQueryStr =>
    query <- lift (_stringToQuery toQueryStr) ;;
    childCallback <- onSnapshot (ChildListener toQueryStr) ;;
    valueCallback <- onSnapshot (ValueListener toQueryStr) ;;
    modify (fun w => set_currentGeohashesQueried
              (Dict.set toQueryStr
                 {| active := true; childCallback := childCallback;
                    valueCallback := valueCallback |}
                 (_currentGeohashesQueried w)) w)) geohashesToQuery ;;
  when (Nat.eqb (List.length geohashesToQuery) 0) (_geohashQueryReadyCallback None).

(** [this._radius * 1000] is a number once the criteria are validated; a
    radius that is not a number makes [geohashQueries] throw. *)
Definition _listenForNewGeohashes : M unit :=
  center <- gets _center ;;
  radius <- gets _radius ;;
  queries <- lift (match radius with
                   | VNum r => geohashQueries center (r * 1000)
                   | _ => Throw (Error "Invalid GeoFire location: latitude must be a number")
                   end) ;;
  _listenForNewGeohashes_from (first_occurrences [] (map _queryToString queries)).

Definition set_tracked (key : string) (entry : LocationTracked) : M unit :=
  modify (fun w => set_locationsTracked (Dict.set key entry (_locationsTracked w)) w).

Definition _updateLocation (key : string) (location document : jsval) : M unit :=
  let document := if is_undefined document then VNull else document in
  lift (validateLocation location) ;;
  old <- gets (fun w => Dict.get key (_locationsTracked w)) ;;
  let wasInQuery := match old with Some e => isInQuery e | None => false end in
  let oldLocation := match old with
                     | Some {| location := l |} => Some l
                     | None => None
                     end in
  center <- gets _center ;;
  distanceFromCenter <- lift (distance location center) ;;
  radius <- gets _radius ;;
  let isInQuery := le_radius distanceFromCenter radius in
  geohash <- lift (encodeGeohash location g_GEOHASH_PRECISION) ;;
  set_tracked key {| location := location; document := document;
                     distanceFromCenter := distanceFromCenter;
                     isInQuery := isInQuery; geohash := geohash |} ;;
  if isInQuery && negb wasInQuery then
    _fireCallbacksForKey KeyEntered key location (VNum distanceFromCenter) document
  else if isInQuery &&
          match oldLocation with
          | Some oldLocation =>
              negb (Reqb (fst (coords location)) (fst (coords oldLocation))) ||
              negb (Reqb (snd (coords location)) (snd (coords oldLocation)))
          | None => false
          end then
    _fireCallbacksForKey KeyMoved key location (VNum distanceFromCenter) document
  else if negb isInQuery && wasInQuery then
    _fireCallbacksForKey KeyExited key location (VNum distanceFromCenter) document
  else ret tt.

Definition _removeLocation (key : string) (currentLocation : jsval) : M unit :=
  locationDict <- gets (fun w => Dict.get key (_locationsTracked w)) ;;
  modify (fun w => set_locationsTracked (Dict.delete key (_locationsTracked w)) w) ;;
  match locationDict with
  | Some locationDict =>
      when (isInQuery locationDict)
        (center <- gets _center ;;
         distanceFromCenter <-
           (if truthy currentLocation
            then d <- lift (distance currentLocation center) ;; ret (VNum d)
            else ret VNull) ;;
         _fireCallbacksForKey KeyExited key currentLocation distanceFromCenter VUndefined)
  | None => ret tt
  end.

Definition _childAddedCallback (locationDataSnapshot : DocumentSnapshot) : M unit :=
  let data := data locationDataSnapshot in
  location <- lift (decodeGeoFireObject data) ;;
  document <- lift (decodeGeoFireDocumentObject data) ;;
  _updateLocation (geoFirestoreGetKey locationDataSnapshot) location document.

Definition _childChangedCallback (locationDataSnapshot : DocumentSnapshot) : M unit :=
  let data := data locationDataSnapshot in
  location <- lift (decodeGeoFireObject data) ;;
  document <- lift (decodeGeoFireDocumentObject data) ;;
  _updateLocation (geoFirestoreGetKey locationDataSnapshot) location document.

(** [_childRemovedCallback] up to the request: the key whose document the
    callback asks the store for, if it asks. *)
Definition _childRemovedCallback (locationDataSnapshot : DocumentSnapshot)
  : M (option string) :=
  let key := geoFirestoreGetKey locationDataSnapshot in
  tracked <- gets (fun w => Dict.has key (_locationsTracked w)) ;;
  ret (if tracked then Some key else None).

(** The continuation of that request, run when the store answers. *)
Definition _childRemovedCallback_then (key : string) (snapshot : DocumentSnapshot)
  : M unit :=
  location <- lift (if negb (exists_ snapshot) then Ok VNull
                    else decodeGeoFireObject (data snapshot)) ;;
  geohash <- lift (match location with
                   | VNull => Ok None
                   | _ => bind_result (encodeGeohash location g_GEOHASH_PRECISION)
                                      (fun g => Ok (Some g))
                   end) ;;
  covered <- _geohashInSomeQuery geohash ;;
  when (negb covered) (_removeLocation key location).

(** The first loop of [_cleanUpCurrentGeohashesQueried]: the ranges marked
    inactive are unsubscribed and deleted. *)
Definition cleanUp_queries : M unit :=
  keys <- gets (fun w => Dict.keys (_currentGeohashesQueried w)) ;;
  forEach (fun geohashQueryStr =>
    queryState <- gets (fun w => Dict.get geohashQueryStr (_currentGeohashesQueried w)) ;;
    match queryState with
    | None => throw (TypeError "Cannot read property 'active' of undefined")
    | Some queryState =>
        when (negb (active queryState))
          (query <- lift (_stringToQuery geohashQueryStr) ;;
           _cancelGeohashQuery query queryState ;;
           modify (fun w => set_currentGeohashesQueried
                     (Dict.delete geohashQueryStr (_currentGeohashesQueried w)) w))
    end) keys.

(** The body of its second loop, for one tracked key. *)
Definition cleanUp_location (key : string) : M unit :=
  entry <- gets (fun w => Dict.get key (_locationsTracked w)) ;;
  match entry with
  | None => throw (TypeError "Cannot read property 'geohash' of undefined")
  | Some entry =>
      covered <- _geohashInSomeQuery (Some (geohash entry)) ;;
      when (negb covered)
        (when (isInQuery entry)
           (throw (Error "Internal State error, trying to remove location that is still in query")) ;;
         modify (fun w => set_locationsTracked
                   (Dict.delete key (_locationsTracked w)) w))
  end.

(** The second loop: the locations no range covers any more are deleted. *)
Definition cleanUp_locations : M unit :=
  keys <- gets (fun w => Dict.keys (_locationsTracked w)) ;;
  forEach cleanUp_location keys.

Definition _cleanUpCurrentGeohashesQueried (this : Receiver) : M unit :=
  match this with
  | ThisTimer =>
      (* this._currentGeohashesQueried is undefined *)
      throw (TypeError "Cannot convert undefined or null to object")
  | ThisQuery =>
      cleanUp_queries ;;
      cleanUp_locations ;;
      modify (set_geohashCleanupScheduled false) ;;
      timeout <- gets _cleanUpCurrentGeohashesQueriedTimeout ;;
      match timeout with
      | Some h =>
          clearTimer (Some h) ;;
          modify (set_cleanUpCurrentGeohashesQueriedTimeout None)
      | None => ret tt
      end
  end.

(** The body of the loop of [updateCriteria], for one tracked key. *)
Definition updateCriteria_key (key : string) : M unit :=
  locationDict <- gets (fun w => Dict.get key (_locationsTracked w)) ;;
  match locationDict with
  | None => throw (TypeError "Cannot read property 'isInQuery' of undefined")
  | Some locationDict =>
      let wasAlreadyInQuery := isInQuery locationDict in
      center <- gets _center ;;
      d <- lift (distance (location locationDict) center) ;;
      radius <- gets _radius ;;
      let nowInQuery := le_radius d radius in
      set_tracked key {| location := location locationDict;
                         document := document locationDict;
                         distanceFromCenter := d;
                         isInQuery := nowInQuery;
                         geohash := geohash locationDict |} ;;
      if wasAlreadyInQuery && negb nowInQuery then
        _fireCallbacksForKey KeyExited key (location locationDict) (VNum d)
                             (document locationDict)
      else if negb wasAlreadyInQuery && nowInQuery then
        _fireCallbacksForKey KeyEntered key (location locationDict) (VNum d)
                             (document locationDict)
      else ret tt
  end.

(** The loop of [updateCriteria] over the keys tracked when it starts; it
    breaks when the query is found cancelled. *)
Fixpoint updateCriteria_loop (keys : list string) : M unit :=
  match keys with
  | [] => ret tt
  | key :: rest =>
      cancelled <- gets _cancelled ;;
      if cancelled then ret tt
      else updateCriteria_key key ;; updateCriteria_loop rest
  end.

Definition updateCriteria (newQueryCriteria : jsval) : M unit :=
  lift (validateCriteria newQueryCriteria false) ;;
  newCenter <- lift (get_field newQueryCriteria "center") ;;
  newRadius <- lift (get_field newQueryCriteria "radius") ;;
  modify (fun w => set_center (js_or newCenter (_center w)) w) ;;
  modify (fun w => set_radius (js_or newRadius (_radius w)) w) ;;
  keys <- gets (fun w => Dict.keys (_locationsTracked w)) ;;
  updateCriteria_loop keys ;;
  modify (set_valueEventFired false) ;;
  _listenForNewGeohashes.

(** [on]: the registration returned holds the closure that removes the
    callback. *)
Definition on (eventType : string) (callback : jsval) : M GeoCallbackRegistration :=
  match eventType_of_string eventType with
  | None => throw (Error "event type must be 'ready', 'key_entered', 'key_exited', or 'key_moved'")
  | Some ev =>
      match callback with
      | VFun f =>
          modify (fun w => set_callbacks
                    (set_callbacks_for ev (callbacks_for ev (_callbacks w) ++ [f])
                                       (_callbacks w)) w) ;;
          match ev with
          | KeyEntered =>
              keys <- gets (fun w => Dict.keys (_locationsTracked w)) ;;
              forEach (fun key =>
                locationDict <- gets (fun w => Dict.get key (_locationsTracked w)) ;;
                match locationDict with
                | Some locationDict =>
                    when (isInQuery locationDict)
                      (call f (CallKey f KeyEntered key (location locationDict)
                                 (VNum (distanceFromCenter locationDict))
                                 (document locationDict)))
                | None => ret tt
                end) keys
          | Ready =>
              fired <- gets _valueEventFired ;;
              when fired (call f (CallReady f))
          | _ => ret tt
          end ;;
          ret {| _cancelCallback := Some (RemoveCallback ev f) |}
      | _ => throw (Error "callback must be a function")
      end
  end.

(** The closure of a registration runs. *)
Definition run_cancelCallback (c : CancelCallback) : M unit :=
  match c with
  | RemoveCallback eventType callback =>
      modify (fun w =>
        let l := callbacks_for eventType (_callbacks w) in
        set_callbacks
          (set_callbacks_for eventType (splice1 (indexOf Nat.eqb callback l) l)
                             (_callbacks w)) w)
  end.

(** [GeoCallbackRegistration.prototype.cancel]; the registration is
    returned as the call leaves it. *)
Definition GeoCallbackRegistration_cancel (registration : GeoCallbackRegistration)
  : M GeoCallbackRegistration :=
  match _cancelCallback registration with
  | Some c => run_cancelCallback c ;; ret {| _cancelCallback := None |}
  | None => ret registration
  end.

(** The fields as the constructor initialises them. *)
Definition init_fields (w : World) : World :=
  set_callbacks no_callbacks
    (set_cancelled false
      (set_currentGeohashesQueried []
        (set_locationsTracked []
          (set_valueEventFired false
            (set_geohashCleanupScheduled false
              (set_cleanUpCurrentGeohashesQueriedTimeout None
                (set_cleanUpCurrentGeohashesQueriedInterval None
                  (set_center VUndefined
                    (set_radius VUndefined
                      (set_outstandingGeohashReadyEvents [] w)))))))))).

(** [Object.prototype.toString.call(v) === '[object Object]']. *)
Definition is_plain_object (v : jsval) : bool :=
  match v with VObj _ => true | _ => false end.

(** The constructor [new GeoFirestoreQuery(_collectionRef, _queryCriteria)]. *)
Definition GeoFirestoreQuery (_collectionRef _queryCriteria : jsval) : M unit :=
  modify init_fields ;;
  when (negb (is_plain_object _collectionRef))
    (throw (Error "firebaseRef must be an instance of Firestore")) ;;
  h <- setInterval SweepClosure 10000 ;;
  modify (set_cleanUpCurrentGeohashesQueriedInterval (Some h)) ;;
  lift (validateCriteria _queryCriteria true) ;;
  center <- lift (get_field _queryCriteria "center") ;;
  modify (set_center center) ;;
  radius <- lift (get_field _queryCriteria "radius") ;;
  modify (set_radius radius) ;;
  _listenForNewGeohashes.

(** ** What the environment makes the query do *)

(** A scheduled timer fires: a one-shot timer is no longer scheduled when
    its callback runs, and a function passed without receiver does not run
    on the query. *)
Definition timer_fires (h : nat) : M unit :=
  timer <- gets (fun w => find_handle h (timers w)) ;;
  match timer with
  | None => ret tt
  | Some timer =>
      when (negb (repeating timer))
        (modify (fun w => set_timers (remove_handle h (timers w)) w)) ;;
      match callback timer with
      | SweepClosure =>
          scheduled <- gets _geohashCleanupScheduled ;;
          when (negb scheduled) (_cleanUpCurrentGeohashesQueried ThisQuery)
      | CleanUpMethod => _cleanUpCurrentGeohashesQueried ThisTimer
      end
  end.

(** The listener of child changes runs on a snapshot: the requests for
    removed documents it issued are returned. *)
Fixpoint child_listener (docChanges : list DocumentChange) : M (list string) :=
  match docChanges with
  | [] => ret []
  | change :: rest =>
      requested <-
        match type change with
        | added => _childAddedCallback (doc change) ;; ret None
        | modified => _childChangedCallback (doc change) ;; ret None
        | removed => _childRemovedCallback (doc change)
        end ;;
      more <- child_listener rest ;;
      ret (match requested with Some key => key :: more | None => more end)
  end.

(** The listener that waits for the first snapshot of a range runs. *)
Definition value_listener (valueCallback : nat) (toQueryStr : string) : M unit :=
  unsubscribe valueCallback ;;
  _geohashQueryReadyCallback (Some toQueryStr).

Inductive Event : Type :=
| ChildSnapshot (docChanges : list DocumentChange)
| ValueSnapshot (valueCallback : nat) (toQueryStr : string)
| GetAnswered (key : string) (snapshot : DocumentSnapshot)
| TimerFires (h : nat).

(** One turn of the event loop; an exception that escapes is reported by
    the runtime and the next turn runs on the state it left. *)
Definition turn (e : Event) (w : World) : World :=
  match e with
  | ChildSnapshot docChanges => snd (child_listener docChanges w)
  | ValueSnapshot valueCallback toQueryStr => snd (value_listener valueCallback toQueryStr w)
  | GetAnswered key snapshot => snd (_childRemovedCallback_then key snapshot w)
  | TimerFires h => snd (timer_fires h w)
  end.


End GeoFirestoreQuery.

(** * Definitions used in the statements *)

(** ** The alphabet and the cells of geohashQuery *)

Definition nth_char (i : Z) : option ascii := String.get (Z.to_nat i) g_BASE32.

(** For the character of value [v] and [u] unused bits: the start of the
    cell is a character not above it, the end is above it, and ['~'] is
    above every character. *)
Definition check_cell (v u : Z) : bool :=
  let s := js_shl (js_shr v u) u in
  let e := s + js_shl 1 u in
  match nth_char v, nth_char s with
  | Some cv, Some cs =>
      (0 <=? s) && negb (Ascii.ltb cv cs) && Ascii.ltb cv "~"%char &&
      (if e >? 31 then true
       else (0 <=? e) && match nth_char e with
            | Some ce => Ascii.ltb cv ce
            | None => false
            end)
  | _, _ => false
  end.

Definition check_all : bool :=
  forallb (fun v => forallb (fun u => check_cell (Z.of_nat v) (Z.of_nat u)) (seq 0 6))
          (seq 0 32).

(** ** The bits of a geohash *)

(** The value of a letter of the alphabet, [-1] for another character. *)
Definition char_value (c : ascii) : Z := JsString.indexOf (String c EmptyString) g_BASE32.

(** The five bits of a value, the most significant first. *)
Definition bits5 (v : Z) : list bool := map (Z.testbit v) [4; 3; 2; 1; 0].

(** The bits a geohash stands for: five for each letter. *)
Definition geohash_bits (h : string) : list bool :=
  flat_map (fun c => bits5 (char_value c)) (list_ascii_of_string h).

(** [h] has [b] bits at least, and its first [b] bits are those of [g]. *)
Definition shares_top_bits (b : Z) (g h : string) : Prop :=
  firstn (Z.to_nat b) (geohash_bits g) = firstn (Z.to_nat b) (geohash_bits h).

Definition bits_eqb (l1 l2 : list bool) : bool :=
  if list_eq_dec Bool.bool_dec l1 l2 then true else false.

(** For the letters of values [v] and [v'] and [u] unused bits: [v'] is
    in the cell of [v] exactly when its letter is between the letter that
    starts the cell and the one that ends it (['~'] past the alphabet), the
    end excluded, and exactly when the two values agree on their [5 - u]
    first bits. *)
Definition check_pair (v v' u : Z) : bool :=
  let s := js_shl (js_shr v u) u in
  let e := s + js_shl 1 u in
  match nth_char v', nth_char s, (if e >? 31 then Some "~"%char else nth_char e) with
  | Some c', Some cs, Some ce =>
      let in_cell := (s <=? v') && (v' <? e) in
      Bool.eqb in_cell (negb (Ascii.ltb c' cs) && Ascii.ltb c' ce) &&
      Bool.eqb in_cell (bits_eqb (firstn (Z.to_nat (5 - u)) (bits5 v))
                                 (firstn (Z.to_nat (5 - u)) (bits5 v')))
  | _, _, _ => false
  end.

Definition check_pairs : bool :=
  forallb (fun v =>
    forallb (fun v' =>
      forallb (fun u => check_pair (Z.of_nat v) (Z.of_nat v') (Z.of_nat u)) (seq 0 6))
    (seq 0 32))
  (seq 0 32).

(** The letters of a valid geohash are letters of the alphabet. *)
Definition letter (c : ascii) : Prop :=
  0 <= char_value c < 32 /\ nth_char (char_value c) = Some c.

(** ** Relations a computation keeps between the world before and after *)

Definition keeps {A} (rel : World -> World -> Prop) (m : M A) : Prop :=
  forall w, rel w (snd (m w)).

(** The criteria are as they were. *)
Definition same_criteria (w w' : World) : Prop :=
  _center w' = _center w /\ _radius w' = _radius w.

(** No callback is registered and the trace is not extended. *)
Definition quiet (w w' : World) : Prop :=
  _callbacks w = no_callbacks ->
  _callbacks w' = no_callbacks /\ calls w' = calls w.

(** The flag and the callback lists are as they were. *)
Definition same_registry (w w' : World) : Prop :=
  _cancelled w' = _cancelled w /\ _callbacks w' = _callbacks w.

(** No callback cancels the query; the lists and the bodies stay. *)
Definition steady (w w' : World) : Prop :=
  (forall f, bodies w f = Returns) ->
  _callbacks w' = _callbacks w /\ bodies w' = bodies w.

(** What [updateCriteria] does after the two assignments. *)
Definition updateCriteria_rest : M unit :=
  keys <- gets (fun w => Dict.keys (_locationsTracked w)) ;;
  updateCriteria_loop keys ;;
  modify (set_valueEventFired false) ;;
  _listenForNewGeohashes.

(** ** Scenarios *)

Definition empty_world : World :=
  {| _callbacks := no_callbacks; _cancelled := false;
     _currentGeohashesQueried := []; _locationsTracked := [];
     _valueEventFired := false; _geohashCleanupScheduled := false;
     _cleanUpCurrentGeohashesQueriedTimeout := None;
     _cleanUpCurrentGeohashesQueriedInterval := None;
     _center := VUndefined; _radius := VUndefined;
     _outstandingGeohashReadyEvents := [];
     timers := []; listeners := []; next_handle := 0%nat; calls := [];
     bodies := fun _ => Returns |}.

Definition no_number (s : string) : option R := None.

(** The ranges of the cells [s0], [s1], ... of two characters. *)
Definition cell_range (c d : string) : string := "s" ++ c ++ ":" ++ "s" ++ d.

Definition ranges_1 : list string :=
  [cell_range "0" "1"; cell_range "1" "2"; cell_range "2" "3"; cell_range "3" "4";
   cell_range "4" "5"; cell_range "5" "6"; cell_range "6" "7"; cell_range "7" "8"].

Definition ranges_2 : list string :=
  [cell_range "8" "9"; cell_range "9" "b"; cell_range "b" "c"; cell_range "c" "d";
   cell_range "d" "e"; cell_range "e" "f"; cell_range "f" "g"; cell_range "g" "h"].

Definition ranges_3 : list string :=
  [cell_range "h" "j"; cell_range "j" "k"; cell_range "k" "m"; cell_range "m" "n";
   cell_range "n" "p"; cell_range "p" "q"; cell_range "q" "r"; cell_range "r" "s"].

Definition ranges_4 : list string :=
  [cell_range "s" "t"; cell_range "t" "u"; cell_range "u" "v"; cell_range "v" "w";
   cell_range "w" "x"; cell_range "x" "y"].

Definition ranges_wanted : list string :=
  [cell_range "0" "1"; cell_range "1" "2"; cell_range "2" "3"; cell_range "3" "4";
   cell_range "4" "5"].

(** The constructor and three updates of the criteria, with the ranges the
    coverage gave each time; no timer fired in between. *)
Definition thirty_ranges : M unit :=
  modify init_fields ;;
  h <- setInterval SweepClosure 10000 ;;
  modify (set_cleanUpCurrentGeohashesQueriedInterval (Some h)) ;;
  _listenForNewGeohashes_from ranges_1 ;;
  _listenForNewGeohashes_from ranges_2 ;;
  _listenForNewGeohashes_from ranges_3 ;;
  _listenForNewGeohashes_from ranges_4.

Definition world_thirty : World := snd (thirty_ranges empty_world).

(** The update that shrinks the coverage to five of them. *)
Definition world_shrunk : World :=
  snd (_listenForNewGeohashes_from ranges_wanted world_thirty).

Definition one_shot : Timer :=
  {| repeating := false; delay := 10; callback := CleanUpMethod |}.

Definition sweep : Timer :=
  {| repeating := true; delay := 10000; callback := SweepClosure |}.

Definition count_active (d : Dict.t GeohashQueryState) : nat :=
  List.length (filter (fun e => active (snd e)) d).

(** Two [ready] callbacks, the first of which cancels the query, and one
    range whose first snapshot is awaited. *)
Definition first_cancels (f : nat) : Body :=
  if Nat.eqb f 1 then CallsCancel else Returns.

Definition two_ready_callbacks : M unit :=
  modify init_fields ;;
  on "ready" (VFun 1) ;;
  on "ready" (VFun 2) ;;
  _listenForNewGeohashes_from [cell_range "0" "1"].

Definition world_two_ready : World :=
  snd (two_ready_callbacks (set_bodies first_cancels empty_world)).

Definition three_callbacks : Callbacks :=
  {| ready := []; key_entered := [1%nat]; key_exited := [2%nat]; key_moved := [3%nat] |}.

(** A query with center [(0, 0)] and radius [1000], one callback per key
    event, and nothing tracked yet. *)
Definition world_A : World :=
  set_callbacks three_callbacks (set_center (loc 0 0) (set_radius (VNum 1000) empty_world)).

(** Two ranges queried, the second no longer wanted, and three tracked
    keys that no wanted range holds: [B] and [C] out of the query, and [A]
    between them in the query. *)
Definition world_sweep : World :=
  set_currentGeohashesQueried
    [(cell_range "0" "1", {| active := true; childCallback := 0; valueCallback := 1 |});
     (cell_range "8" "9", {| active := false; childCallback := 2; valueCallback := 3 |})]
    (set_locationsTracked
       [("B", {| location := loc 1 1; document := VNull; distanceFromCenter := 157;
                 isInQuery := false; geohash := "s8x" |});
        ("A", {| location := loc 0 0; document := VNull; distanceFromCenter := 0;
                 isInQuery := true; geohash := "t0" |});
        ("C", {| location := loc 2 2; document := VNull; distanceFromCenter := 314;
                 isInQuery := false; geohash := "t1" |})]
       empty_world).

(** A query with center [(0, 0)] and radius [1000] and two [key_exited]
    callbacks, the first of which cancels the query; the store reports [A]
    at [(0.02, 0.02)], which is in the query. *)
Definition two_exit_callbacks : M unit :=
  modify init_fields ;;
  modify (set_center (loc 0 0)) ;;
  modify (set_radius (VNum 1000)) ;;
  on "key_exited" (VFun 1) ;;
  on "key_exited" (VFun 2) ;;
  _updateLocation "A" (loc (2 / 100) (2 / 100)) VNull.

Definition world_mid_flight : World :=
  snd (two_exit_callbacks (set_bodies first_cancels empty_world)).

(** A callback is registered, the query is cancelled, and the registration is
    returned. *)
Definition registration_after_cancel : M GeoCallbackRegistration :=
  modify init_fields ;;
  registration <- on "key_entered" (VFun 1) ;;
  cancel ;;
  ret registration.

(** The same, with a second callback registered after the query was
    cancelled. *)
Definition registration_before_another : M GeoCallbackRegistration :=
  registration <- registration_after_cancel ;;
  on "key_entered" (VFun 2) ;;
  ret registration.

(** ** The sweep over the tracked locations *)

(** The keys of the ranges are of the form [start:end]. *)
Definition ranges_wf (current : Dict.t GeohashQueryState) : bool :=
  forallb (fun k => is_ok (_stringToQuery k)) (Dict.keys current).

Fixpoint nodupb (l : list string) : bool :=
  match l with
  | [] => true
  | k :: rest => negb (existsb (String.eqb k) rest) && nodupb rest
  end.

(** [_geohashInSomeQuery(g)] on the ranges [current]. *)
Definition covered (ToNumber : string -> option R) (current : Dict.t GeohashQueryState)
    (g : string) : bool :=
  match _geohashInSomeQuery_loop ToNumber (Some g) (Dict.keys current) with
  | Ok b => b
  | Throw _ => false
  end.

Definition internal_state_error : exn :=
  Error "Internal State error, trying to remove location that is still in query".

(** A range queried in [current] holds the geohash [g]. *)
Definition covered_by (current : Dict.t GeohashQueryState) (g : string) : Prop :=
  exists geohashQueryStr start end_,
    In geohashQueryStr (Dict.keys current) /\
    _stringToQuery geohashQueryStr = Ok (start, end_) /\
    JsString.le start g = true /\ JsString.le g end_ = true.

(** What the loop over [keys] leaves of the locations tracked in [w]. *)
Definition sweep_spec (ToNumber : string -> option R) (keys : list string) (w : World)
    (res : result unit) (w' : World) : Prop :=
  _currentGeohashesQueried w' = _currentGeohashesQueried w /\
  (forall k, Dict.get k (_locationsTracked w) = None ->
             Dict.get k (_locationsTracked w') = None) /\
  (forall k e, Dict.get k (_locationsTracked w) = Some e ->
     (~ In k keys -> Dict.get k (_locationsTracked w') = Some e) /\
     (In k keys ->
      if covered ToNumber (_currentGeohashesQueried w) (geohash e)
      then Dict.get k (_locationsTracked w') = Some e
      else if isInQuery e
           then res = Throw internal_state_error /\
                Dict.get k (_locationsTracked w') = Some e
           else res = Ok tt -> Dict.get k (_locationsTracked w') = None)) /\
  ((forall k e, In k keys -> Dict.get k (_locationsTracked w) = Some e ->
      covered ToNumber (_currentGeohashesQueried w) (geohash e) = false ->
      isInQuery e = false) ->
   res = Ok tt).

(** ** A client of the query

    The client registers callbacks, keeps the registrations it is given,
    cancels some of them and updates the criteria, while the event loop runs
    listeners and timers; it does not cancel the query. *)

Inductive ClientOp : Type :=
| OpOn (eventType : string) (callback : jsval)
| OpCancelRegistration (i : nat)
| OpUpdateCriteria (newQueryCriteria : jsval)
| OpTurn (e : Event).

Fixpoint replace_nth {A} (i : nat) (a : A) (l : list A) : list A :=
  match l, i with
  | [], _ => []
  | _ :: rest, O => a :: rest
  | x :: rest, S i' => x :: replace_nth i' a rest
  end.

Definition client_step (ToNumber : string -> option R) (op : ClientOp)
    (c : World * list GeoCallbackRegistration) : World * list GeoCallbackRegistration :=
  let (w, registrations) := c in
  match op with
  | OpOn eventType callback =>
      match on eventType callback w with
      | (Ok registration, w') => (w', (registrations ++ [registration])%list)
      | (Throw _, w') => (w', registrations)
      end
  | OpCancelRegistration i =>
      match nth_error registrations i with
      | Some registration =>
          match GeoCallbackRegistration_cancel registration w with
          | (Ok registration', w') => (w', replace_nth i registration' registrations)
          | (Throw _, w') => (w', registrations)
          end
      | None => c
      end
  | OpUpdateCriteria newQueryCriteria =>
      (snd (updateCriteria newQueryCriteria w), registrations)
  | OpTurn e => (turn ToNumber e w, registrations)
  end.

Definition client_run (ToNumber : string -> option R) (ops : list ClientOp)
    (c : World * list GeoCallbackRegistration) : World * list GeoCallbackRegistration :=
  fold_left (fun c op => client_step ToNumber op c) ops c.

Definition eventType_eqb (a b : EventType) : bool :=
  match a, b with
  | Ready, Ready | KeyEntered, KeyEntered | KeyExited, KeyExited | KeyMoved, KeyMoved => true
  | _, _ => false
  end.

(** The registrations not yet cancelled that remove [f] from the list of
    [ev]. *)
Definition is_live (ev : EventType) (f : nat) (r : GeoCallbackRegistration) : bool :=
  match _cancelCallback r with
  | Some (RemoveCallback ev' f') => eventType_eqb ev ev' && Nat.eqb f f'
  | None => false
  end.

Definition live (ev : EventType) (f : nat) (rs : list GeoCallbackRegistration) : nat :=
  List.length (filter (is_live ev f) rs).

Definition occurrences (f : nat) (l : list nat) : nat := count_occ Nat.eq_dec l f.

(** Every registration not yet cancelled has its callback in the list. *)
Definition registered (w : World) (rs : list GeoCallbackRegistration) : Prop :=
  (forall f, bodies w f = Returns) /\
  forall ev f, (live ev f rs <= occurrences f (callbacks_for ev (_callbacks w)))%nat.

Definition cancelled_registration : GeoCallbackRegistration := {| _cancelCallback := None |}.

(** ** Events and distances *)

Definition key_call (ev : EventType) (key : string) (l d doc : jsval) (f : nat) : Call :=
  CallKey f ev key l d doc.

(** The haversine term [a] for a point and the center [(0, 0)]. *)
Definition haversine_a (lat lon : R) : R :=
  (sin (degreesToRadians (0 - lat) / 2) * sin (degreesToRadians (0 - lat) / 2) +
   cos (degreesToRadians lat) * cos (degreesToRadians 0) *
   sin (degreesToRadians (0 - lon) / 2) * sin (degreesToRadians (0 - lon) / 2))%R.

(** The invariant of the loop of encodeGeohash. *)
Definition encode_inv (st : EncodeState) : Prop :=
  0 <= bits st <= 4 /\ 0 <= hashVal st < 2 ^ bits st.

(** ** A rational shadow of the loop of encodeGeohash

    The loop is run on rational bounds of the coordinates: [lo < val <= hi].
    A comparison with a midpoint is decided when the midpoint is outside
    the bounds; the shadow stops when one is not. *)

Record ShadowState : Type := {
  s_latitudeRange : Q * Q;
  s_longitudeRange : Q * Q;
  s_hash : string;
  s_hashVal : Z;
  s_bits : Z;
  s_even : bool
}.

Definition shadow_init : ShadowState :=
  {| s_latitudeRange := ((-90)%Q, 90%Q); s_longitudeRange := ((-180)%Q, 180%Q);
     s_hash := EmptyString; s_hashVal := 0; s_bits := 0; s_even := true |}.

Definition shadow_step (lat lon : Q * Q) (st : ShadowState) : option ShadowState :=
  let val := if s_even st then lon else lat in
  let range := if s_even st then s_longitudeRange st else s_latitudeRange st in
  let mid := Qred ((fst range + snd range) / 2) in
  let decided :=
    if Qle_bool mid (fst val) then Some true
    else if Qle_bool (snd val) mid then Some false
    else None in
  match decided with
  | None => None
  | Some upper =>
      let hashVal' := js_shl (s_hashVal st) 1 + (if upper then 1 else 0) in
      let range' := if upper then (mid, snd range) else (fst range, mid) in
      let lat' := if s_even st then s_latitudeRange st else range' in
      let lon' := if s_even st then range' else s_longitudeRange st in
      Some (if s_bits st <? 4 then
              {| s_latitudeRange := lat'; s_longitudeRange := lon'; s_hash := s_hash st;
                 s_hashVal := hashVal'; s_bits := s_bits st + 1; s_even := negb (s_even st) |}
            else
              {| s_latitudeRange := lat'; s_longitudeRange := lon';
                 s_hash := JsString.append_index (s_hash st) g_BASE32 hashVal';
                 s_hashVal := 0; s_bits := 0; s_even := negb (s_even st) |})
  end.

Fixpoint shadow_loop (fuel : nat) (lat lon : Q * Q) (precision : Z) (st : ShadowState)
  : option string :=
  if JsString.len (s_hash st) <? precision then
    match fuel with
    | O => None
    | S fuel' =>
        match shadow_step lat lon st with
        | Some st' => shadow_loop fuel' lat lon precision st'
        | None => None
        end
    end
  else Some (s_hash st).

Definition shadow_encode (lat lon : Q * Q) (precision : Z) : option string :=
  shadow_loop (Z.to_nat (g_BITS_PER_CHAR * precision)) lat lon precision shadow_init.

Definition range_of (q : Q * Q) : Range := {| min := Q2R (fst q); max := Q2R (snd q) |}.

Definition shadows (st : EncodeState) (sq : ShadowState) : Prop :=
  latitudeRange st = range_of (s_latitudeRange sq) /\
  longitudeRange st = range_of (s_longitudeRange sq) /\
  hash st = s_hash sq /\ hashVal st = s_hashVal sq /\ bits st = s_bits sq /\
  even st = s_even sq.

Definition within (x : R) (q : Q * Q) : Prop := (Q2R (fst q) < x <= Q2R (snd q))%R.

(** ** The failing coverage *)

(** The ranges the coverage of the circle of 1220 m around [(0, 0)] has. *)
Definition coverage_1220 : list (string * string) :=
  [("7zzzzw", "7zzzz~"); ("kpbpbn", "kpbpbs"); ("ebpbpd", "ebpbph");
   ("s00004", "s00008"); ("7zzzzs", "7zzzzw"); ("kpbpbh", "kpbpbn")].

Definition in_some_range (g : string) (queries : list (string * string)) : bool :=
  existsb (fun q => JsString.le (fst q) g && JsString.le g (snd q)) queries.

(** * Further functions of the library *)

(** ** utils.js: validateKey *)

(** The characters of the class [[\[\].#$\/\u0000-\u001F\u007F]]. *)
Definition key_char_forbidden (c : ascii) : bool :=
  let n := N_of_ascii c in
  (n <=? 31)%N || (n =? 127)%N ||
  existsb (Ascii.eqb c) ["["; "]"; "."; "#"; "$"; "/"]%char.

Definition validateKey (key : jsval) : result unit :=
  match key with
  | VStr k =>
      let error :=
        if JsString.len k =? 0 then Some "key cannot be the empty string"
        else if 1 + g_GEOHASH_PRECISION + JsString.len k >? 755
        then Some "key is too long to be stored in Firebase"
        else if existsb key_char_forbidden (list_ascii_of_string k)
        then Some "key cannot contain any of the following characters: . # $ ] [ /"
        else None in
      match error with
      | Some e => Throw (Error ("Invalid GeoFire key '" ++ k ++ "': " ++ e))
      | None => Ok tt
      end
  | _ => Throw (Error "Invalid GeoFire key: key must be a string")
  end.

(** ** utils.js: the record stored for a location *)

Definition encodeGeoFireObject (location : jsval) (geohash : string) : result jsval :=
  bind_result (validateLocation location) (fun _ =>
  bind_result (validateGeohash geohash) (fun _ =>
  Ok (VObj [(".priority", VStr geohash); ("g", VStr geohash); ("l", location)]))).

(** ** GeoFirestore: set, remove and get

    The calls on the store are data: a method returns the writes it
    issues, and [get] the key of the document it asks for; what [get] does
    with the snapshot the store answers is [GeoFirestore_get_then]. *)

Inductive Write : Type :=
| DocDelete (key : string)
    (* this._collectionRef.doc(key).delete() *)
| DocSet (key : string) (data : jsval)
    (* this._collectionRef.doc(key).set(data) *)
| BatchDelete (key : string)
    (* batch.delete(ref) *)
| BatchSet (key : string) (data : jsval)
    (* batch.set(ref, data, { merge: true }) *).

Definition index_string (i : nat) : string := NilEmpty.string_of_uint (Nat.to_uint i).

(** [Object.keys(o)] with [o[key]] for each key, for a value whose
    [typeof] is ['object']. *)
Definition own_entries (o : jsval) : result (list (string * jsval)) :=
  match o with
  | VUndefined | VNull => Throw (TypeError "Cannot convert undefined or null to object")
  | VObj props =>
      Ok (map (fun key => (key, match lookup key props with
                                | Some v => v
                                | None => VUndefined
                                end)) (map fst props))
  | VArr items => Ok (combine (map index_string (seq 0 (List.length items))) items)
  | _ => Ok []
  end.

(** The loop of [set] over the keys of a mapping: the writes are added to
    the batch, which is committed when the loop is over. *)
Fixpoint set_batch (entries : list (string * jsval)) (batch : list Write)
  : result (list Write) :=
  match entries with
  | [] => Ok batch
  | (key, location) :: rest =>
      bind_result (validateKey (VStr key)) (fun _ =>
      match location with
      | VNull => set_batch rest (batch ++ [BatchDelete key])
      | _ =>
          bind_result (validateLocation location) (fun _ =>
          bind_result (encodeGeohash location g_GEOHASH_PRECISION) (fun geohash =>
          bind_result (encodeGeoFireObject location geohash) (fun data =>
          set_batch rest (batch ++ [BatchSet key data]))))
      end)
  end.

Definition GeoFirestore_set (keyOrLocations location : jsval) : result (list Write) :=
  match keyOrLocations with
  | VStr key =>
      if negb (JsString.len key =? 0) then
        bind_result (validateKey keyOrLocations) (fun _ =>
        match location with
        | VNull => Ok [DocDelete key]
        | _ =>
            bind_result (validateLocation location) (fun _ =>
            bind_result (encodeGeohash location g_GEOHASH_PRECISION) (fun geohash =>
            bind_result (encodeGeoFireObject location geohash) (fun data =>
            Ok [DocSet key data])))
        end)
      else Throw (Error "keyOrLocations must be a string or a mapping of key - location pairs.")
  | _ =>
      if String.eqb (typeof keyOrLocations) "object" then
        if negb (is_undefined location) then
          Throw (Error "The location argument should not be used if you pass an object to set().")
        else bind_result (own_entries keyOrLocations) (fun entries => set_batch entries [])
      else Throw (Error "keyOrLocations must be a string or a mapping of key - location pairs.")
  end.

Definition GeoFirestore_remove (key : jsval) : result (list Write) :=
  GeoFirestore_set key VNull.

(** [get] up to the request: the key of the document asked for. *)
Definition GeoFirestore_get (key : jsval) : result jsval :=
  bind_result (validateKey key) (fun _ => Ok key).

(** The continuation of the request of [get]. *)
Definition GeoFirestore_get_then (documentSnapshot : DocumentSnapshot) : result jsval :=
  if negb (exists_ documentSnapshot) then Ok VNull
  else decodeGeoFireObject (data documentSnapshot).

(** * Definitions used in the further properties *)

(** ** The locations tracked and the criteria *)

(** What [_updateLocation] records for a location, under the criteria
    [center] and [radius]. *)
Definition entry_consistent (center radius : jsval) (e : LocationTracked) : Prop :=
  validateLocation (location e) = Ok tt /\
  distance (location e) center = Ok (distanceFromCenter e) /\
  isInQuery e = le_radius (distanceFromCenter e) radius /\
  encodeGeohash (location e) g_GEOHASH_PRECISION = Ok (geohash e).

Definition tracked_consistent (w : World) : Prop :=
  forall key e, Dict.get key (_locationsTracked w) = Some e ->
                entry_consistent (_center w) (_radius w) e.

(** The criteria are kept and no tracked entry is added or changed. *)
Definition shrinks (w w' : World) : Prop :=
  same_criteria w w' /\
  forall key e, Dict.get key (_locationsTracked w') = Some e ->
                Dict.get key (_locationsTracked w) = Some e.

Definition stays_consistent (w w' : World) : Prop :=
  tracked_consistent w -> tracked_consistent w'.

(** ** The listeners of the ranges *)

(** The two unsubscribe handles of every range of a dictionary. *)
Definition range_handles (current : Dict.t GeohashQueryState) : list nat :=
  flat_map (fun e => [childCallback (snd e); valueCallback (snd e)]) current.

(** The listeners whose handle is not among [handles]. *)
Definition without_handles (handles : list nat) (ls : list (nat * Listener))
  : list (nat * Listener) :=
  filter (fun l => negb (existsb (Nat.eqb (fst l)) handles)) ls.

(** The loop of [cancel] over the ranges queried. *)
Definition cancel_ranges : M unit :=
  keys <- gets (fun w => Dict.keys (_currentGeohashesQueried w)) ;;
  forEach (fun geohashQueryStr =>
    query <- lift (_stringToQuery geohashQueryStr) ;;
    queryState <- gets (fun w => Dict.get geohashQueryStr (_currentGeohashesQueried w)) ;;
    match queryState with
    | Some queryState => _cancelGeohashQuery query queryState
    | None => throw (TypeError "Cannot read property 'childCallback' of undefined")
    end ;;
    modify (fun w => set_currentGeohashesQueried
              (Dict.delete geohashQueryStr (_currentGeohashesQueried w)) w)) keys.

(** The calls [on('key_entered', f)] makes at once: one for every tracked
    location that is in the query. *)
Definition replayed_calls (f : nat) (tracked : Dict.t LocationTracked) : list Call :=
  map (fun kv => CallKey f KeyEntered (fst kv) (location (snd kv))
                         (VNum (distanceFromCenter (snd kv))) (document (snd kv)))
      (filter (fun kv => isInQuery (snd kv)) tracked).

(** ** The ranges after [_listenForNewGeohashes] *)

(** The ranges queried so far, each marked with whether it is still
    wanted. *)
Definition marked (wanted : list string) (current : Dict.t GeohashQueryState)
  : Dict.t GeohashQueryState :=
  map (fun kv => (fst kv, {| active := existsb (String.eqb (fst kv)) wanted;
                             childCallback := childCallback (snd kv);
                             valueCallback := valueCallback (snd kv) |})) current.



(** ** The writes of [set] on a mapping *)

(** What [set] accepts for a key of a mapping: a valid key, with [null] or
    a valid location. *)
Definition valid_entry (kv : string * jsval) : Prop :=
  validateKey (VStr (fst kv)) = Ok tt /\
  (snd kv = VNull \/ validateLocation (snd kv) = Ok tt).

(** The write of the batch for an entry of the mapping. *)
Definition write_for (kv : string * jsval) (write : Write) : Prop :=
  match snd kv with
  | VNull => write = BatchDelete (fst kv)
  | location =>
      exists geohash,
        encodeGeohash location g_GEOHASH_PRECISION = Ok geohash /\
        write = BatchSet (fst kv) (VObj [(".priority", VStr geohash); ("g", VStr geohash);
                                         ("l", location)])
  end.

(** ** A tracked key *)


(** * Part II: properties *)

(** ** Strings and the ranges of geohashQuery *)

Example geohashQuery_7zzzzz : geohashQuery "7zzzzz" 28 = Ok ("7zzzzw", "7zzzz~").
Proof. reflexivity. Qed.

Example geohashQuery_kpbpbp : geohashQuery "kpbpbp" 28 = Ok ("kpbpbn", "kpbpbs").
Proof. reflexivity. Qed.

Example geohashQuery_zero_bits : geohashQuery "zz" 0 = Ok ("0", "~").
Proof. reflexivity. Qed.

(** With a negative number of bits the shift count wraps. *)
Example geohashQuery_wrapped_shift : geohashQuery "zz" (-27) = Ok ("0", "1").
Proof. reflexivity. Qed.

Lemma check_all_true : check_all = true.
Proof. vm_compute. reflexivity. Qed.

Lemma check_cell_ok v u : 0 <= v < 32 -> 0 <= u <= 5 -> check_cell v u = true.
Proof.
  intros Hv Hu. pose proof check_all_true as H. unfold check_all in H.
  rewrite forallb_forall in H.
  specialize (H (Z.to_nat v)). rewrite forallb_forall in H.
  specialize (fun p => H p (Z.to_nat u)).
  rewrite !Z2Nat.id in H by lia. apply H; apply in_seq; lia.
Qed.

Lemma compare_app_l base x y :
  String.compare (base ++ x) (base ++ y) = String.compare x y.
Proof.
  induction base as [|a base IH]; simpl; auto.
  destruct (Ascii.compare a a) eqn:E; auto.
  - pose proof (Ascii.compare_antisym a a) as H. rewrite E in H. discriminate.
  - pose proof (Ascii.compare_antisym a a) as H. rewrite E in H. discriminate.
Qed.

Lemma leb_app_l base x y :
  String.leb x y = true -> String.leb (base ++ x) (base ++ y) = true.
Proof. unfold String.leb. now rewrite compare_app_l. Qed.

Lemma leb_char_le c1 c2 rest :
  Ascii.ltb c2 c1 = false -> String.leb (String c1 EmptyString) (String c2 rest) = true.
Proof.
  unfold Ascii.ltb, String.leb. simpl.
  rewrite (Ascii.compare_antisym c1 c2).
  destruct (Ascii.compare c2 c1); simpl; try congruence; intros _; destruct rest; auto.
Qed.

Lemma leb_char_lt c1 c2 rest tail :
  Ascii.ltb c1 c2 = true -> String.leb (String c1 rest) (String c2 tail) = true.
Proof.
  unfold Ascii.ltb, String.leb. simpl. destruct (Ascii.compare c1 c2); congruence.
Qed.

Lemma alphabet_index (c : ascii) :
  JsString.indexOf (String c EmptyString) g_BASE32 = -1 \/
  (0 <= JsString.indexOf (String c EmptyString) g_BASE32 < 32 /\
   nth_char (JsString.indexOf (String c EmptyString) g_BASE32) = Some c).
Proof.
  destruct c as [[] [] [] [] [] [] [] []]; vm_compute;
    first [ left; reflexivity
          | right; split; [split; [discriminate | reflexivity] | reflexivity] ].
Qed.

Lemma letters_error_sticky g e :
  e <> None -> validateGeohash_letters g e <> None.
Proof.
  revert e; induction g as [|a g IH]; cbn [validateGeohash_letters]; intros e He; auto.
  apply IH. destruct (JsString.indexOf (String a EmptyString) g_BASE32 =? -1); [discriminate | exact He].
Qed.

Lemma letters_valid g :
  validateGeohash_letters g None = None ->
  forall i c, String.get i g = Some c ->
              JsString.indexOf (String c EmptyString) g_BASE32 <> -1.
Proof.
  induction g as [|a g IH]; cbn [validateGeohash_letters String.get]; intros H i c Hget.
  - discriminate.
  - destruct (JsString.indexOf (String a EmptyString) g_BASE32 =? -1) eqn:E.
    + exfalso. revert H. apply letters_error_sticky. congruence.
    + destruct i as [|i].
      * inversion Hget; subst. apply Z.eqb_neq. exact E.
      * eapply IH; eauto.
Qed.

Lemma validateGeohash_ok g :
  validateGeohash g = Ok tt ->
  g <> EmptyString /\ forall i c, String.get i g = Some c ->
                         JsString.indexOf (String c EmptyString) g_BASE32 <> -1.
Proof.
  unfold validateGeohash. destruct (JsString.len g =? 0) eqn:E; [discriminate|].
  destruct (validateGeohash_letters g None) eqn:L; [discriminate|]. intros _. split.
  - intros ->. discriminate.
  - now apply letters_valid.
Qed.

Lemma split_at (n : nat) (g : string) :
  (n < String.length g)%nat ->
  exists base c rest, g = base ++ String c rest /\ String.length base = n.
Proof.
  revert g; induction n as [|n IH]; intros [|a g] H; simpl in H; try lia.
  - exists EmptyString, a, g. auto.
  - destruct (IH g) as (base & c & rest & -> & Hl); [lia|].
    exists (String a base), c, rest. simpl. auto.
Qed.

Lemma substring_prefix base c rest :
  String.substring 0 (S (String.length base)) (base ++ String c rest) = base ++ String c EmptyString.
Proof.
  induction base as [|a base IH]; simpl.
  - destruct rest; reflexivity.
  - f_equal. exact IH.
Qed.

Lemma substring_base base c :
  String.substring 0 (String.length base) (base ++ String c EmptyString) = base.
Proof. induction base as [|a base IH]; simpl; [reflexivity | f_equal; exact IH]. Qed.

Lemma get_last base c rest :
  String.get (String.length base) (base ++ String c rest) = Some c.
Proof. induction base; simpl; auto. Qed.

Lemma string_length_app a b : String.length (a ++ b) = (String.length a + String.length b)%nat.
Proof. induction a; simpl; auto. Qed.

Lemma ceil_div_5_bounds b :
  0 < b -> let p := ceil_div b 5 in 1 <= p /\ 1 <= b - (p - 1) * 5 <= 5.
Proof.
  intros Hb. unfold ceil_div.
  pose proof (Z.div_mod (- b) 5 ltac:(lia)) as H.
  pose proof (Z.mod_pos_bound (- b) 5 ltac:(lia)) as H'.
  lia.
Qed.

Lemma check_pairs_true : check_pairs = true.
Proof. vm_compute. reflexivity. Qed.

Lemma check_pair_ok v v' u :
  0 <= v < 32 -> 0 <= v' < 32 -> 0 <= u <= 5 -> check_pair v v' u = true.
Proof.
  intros Hv Hv' Hu. pose proof check_pairs_true as H. unfold check_pairs in H.
  rewrite forallb_forall in H.
  specialize (H (Z.to_nat v) ltac:(apply in_seq; lia)). rewrite forallb_forall in H.
  specialize (H (Z.to_nat v') ltac:(apply in_seq; lia)). rewrite forallb_forall in H.
  specialize (H (Z.to_nat u) ltac:(apply in_seq; lia)).
  now rewrite !Z2Nat.id in H by lia.
Qed.

Lemma bits_eqb_eq l1 l2 : bits_eqb l1 l2 = true <-> l1 = l2.
Proof. unfold bits_eqb. destruct (list_eq_dec _ l1 l2); split; congruence. Qed.

Lemma list_ascii_of_app a b :
  list_ascii_of_string (a ++ b) = (list_ascii_of_string a ++ list_ascii_of_string b)%list.
Proof. induction a as [|c a IH]; cbn; [reflexivity | now rewrite IH]. Qed.

Lemma geohash_bits_app a b : geohash_bits (a ++ b) = (geohash_bits a ++ geohash_bits b)%list.
Proof. unfold geohash_bits. now rewrite list_ascii_of_app, flat_map_app. Qed.

Lemma geohash_bits_length a : List.length (geohash_bits a) = (5 * String.length a)%nat.
Proof.
  induction a as [|c a IH]; [reflexivity|].
  change (geohash_bits (String c a)) with (bits5 (char_value c) ++ geohash_bits a)%list.
  rewrite length_app, IH. cbn [String.length bits5 map List.length]. lia.
Qed.

Lemma valid_letters h :
  validateGeohash h = Ok tt -> h <> EmptyString /\ Forall letter (list_ascii_of_string h).
Proof.
  intros Hv. destruct (validateGeohash_ok h Hv) as [Hne Hl]. split; [exact Hne|].
  clear Hv Hne. induction h as [|c h IH]; cbn [list_ascii_of_string]; constructor.
  - specialize (Hl 0%nat c eq_refl).
    destruct (alphabet_index c) as [E|E]; [contradiction | exact E].
  - apply IH. intros i c' Hget. apply (Hl (S i) c'). exact Hget.
Qed.

Lemma app_inv_length {A} (l1 l2 x y : list A) :
  List.length l1 = List.length l2 -> (l1 ++ x = l2 ++ y)%list -> l1 = l2 /\ x = y.
Proof.
  revert l2. induction l1 as [|a l1 IH]; intros [|b l2] Hlen H; cbn in *; try discriminate.
  - auto.
  - injection H as -> H. destruct (IH l2 ltac:(lia) H) as [-> ->]. auto.
Qed.

Lemma letter_bits_inj c c' :
  letter c -> letter c' -> bits5 (char_value c) = bits5 (char_value c') -> c = c'.
Proof.
  intros [Hv Hc] [Hv' Hc'] Hb.
  pose proof (check_pair_ok _ _ 0 Hv Hv' ltac:(lia)) as H. unfold check_pair in H.
  rewrite Hc' in H.
  set (v := char_value c) in *. set (v' := char_value c') in *.
  assert (Hs : js_shl (js_shr v 0) 0 = v).
  { assert (forallb (fun n => js_shl (js_shr (Z.of_nat n) 0) 0 =? Z.of_nat n) (seq 0 32) = true)
      as Hall by (vm_compute; reflexivity).
    rewrite forallb_forall in Hall.
    specialize (Hall (Z.to_nat v) ltac:(apply in_seq; lia)).
    rewrite Z2Nat.id in Hall by lia. now apply Z.eqb_eq. }
  rewrite Hs, Hc in H. change (js_shl 1 0) with 1 in H.
  destruct (if v + 1 >? 31 then _ else _); [|discriminate].
  apply andb_prop in H as [_ H]. change (Z.to_nat (5 - 0)) with 5%nat in H.
  cbn [firstn bits5 map] in H. cbn [bits5 map] in Hb. rewrite Hb in H.
  assert (E : bits_eqb (map (Z.testbit v') [4; 3; 2; 1; 0]) (map (Z.testbit v') [4; 3; 2; 1; 0])
              = true) by now apply bits_eqb_eq.
  cbn [map] in E. rewrite E in H. apply Bool.eqb_prop in H.
  apply andb_prop in H as [H1 H2]. apply Z.leb_le in H1. apply Z.ltb_lt in H2.
  assert (v = v') by lia. congruence.
Qed.

Lemma geohash_bits_inj a : forall b,
  Forall letter (list_ascii_of_string a) -> Forall letter (list_ascii_of_string b) ->
  geohash_bits a = geohash_bits b -> a = b.
Proof.
  induction a as [|c a IH]; intros [|c' b] Ha Hb H; try reflexivity; try discriminate.
  cbn [list_ascii_of_string] in Ha, Hb.
  inversion Ha as [|? ? Hc Ha']; subst. inversion Hb as [|? ? Hc' Hb']; subst.
  change (bits5 (char_value c) ++ geohash_bits a = bits5 (char_value c') ++ geohash_bits b)%list
    in H.
  apply app_inv_length in H as [H1 H2]; [|reflexivity].
  f_equal; [now apply letter_bits_inj | now apply IH].
Qed.

(** The strings between [base + cs] and [base + ce], the latter excluded,
    are those that continue [base] with a character from [cs] up to [ce],
    the latter excluded. *)
Lemma ltb_false_compare c1 c2 : Ascii.ltb c1 c2 = false <-> Ascii.compare c2 c1 <> Gt.
Proof.
  unfold Ascii.ltb. rewrite (Ascii.compare_antisym c2 c1).
  destruct (Ascii.compare c1 c2); cbn; split; congruence.
Qed.

Lemma ltb_true_compare c1 c2 : Ascii.ltb c1 c2 = true <-> Ascii.compare c1 c2 = Lt.
Proof. unfold Ascii.ltb. destruct (Ascii.compare c1 c2); split; congruence. Qed.

Lemma ascii_compare_refl c : Ascii.compare c c = Eq.
Proof.
  pose proof (Ascii.compare_antisym c c) as H.
  destruct (Ascii.compare c c); try reflexivity; discriminate.
Qed.

(** The strings between [base + cs] and [base + ce], the latter excluded,
    are those that continue [base] with a character from [cs] up to [ce],
    the latter excluded. *)
Lemma between_iff base cs ce h :
  (String.leb (base ++ String cs EmptyString) h = true /\
   String.leb h (base ++ String ce EmptyString) = true /\
   h <> base ++ String ce EmptyString) <->
  exists c' rest', h = base ++ String c' rest' /\
                   Ascii.ltb c' cs = false /\ Ascii.ltb c' ce = true.
Proof.
  revert h. induction base as [|a base IH]; intros h.
  - cbn [append]. rewrite ?ltb_false_compare, ?ltb_true_compare. unfold String.leb. split.
    + intros (H1 & H2 & H3). destruct h as [|c' rest']; [discriminate|].
      exists c', rest'. split; [reflexivity|]. cbn [String.compare] in H1, H2.
      rewrite ltb_false_compare, ltb_true_compare. split.
      * destruct (Ascii.compare cs c'); congruence.
      * destruct (Ascii.compare c' ce) eqn:E; try reflexivity; try discriminate.
        apply Ascii.compare_eq_iff in E. subst c'.
        destruct rest'; [contradiction | discriminate].
    + intros (c' & rest' & -> & H1 & H2). cbn [String.compare].
      apply ltb_false_compare in H1. apply ltb_true_compare in H2. rewrite H2.
      split; [|split; [reflexivity|]].
      * destruct (Ascii.compare cs c') eqn:E1; try reflexivity; try congruence.
        destruct rest'; reflexivity.
      * intros Heq. injection Heq as -> _. rewrite ascii_compare_refl in H2. discriminate.
  - cbn [append]. split.
    + intros (H1 & H2 & H3). destruct h as [|x h]; [discriminate|].
      unfold String.leb in H1, H2. cbn [String.compare] in H1, H2.
      rewrite (Ascii.compare_antisym x a) in H2.
      destruct (Ascii.compare a x) eqn:E; cbn in H2; try discriminate.
      apply Ascii.compare_eq_iff in E. subst x.
      destruct (proj1 (IH h)) as (c' & rest' & -> & Hc).
      { split; [exact H1|]. split; [exact H2|]. intros ->. now apply H3. }
      exists c', rest'. split; [reflexivity | exact Hc].
    + intros (c' & rest' & -> & Hc).
      destruct (proj2 (IH (base ++ String c' rest'))) as (H1 & H2 & H3).
      { exists c', rest'. split; [reflexivity | exact Hc]. }
      unfold String.leb in *. cbn [String.compare].
      rewrite ascii_compare_refl.
      split; [exact H1|]. split; [exact H2|]. intros Heq. injection Heq as Heq. now apply H3.
Qed.

Lemma firstn_bits base c rest (k : nat) :
  (k <= 5)%nat ->
  firstn (5 * String.length base + k) (geohash_bits (base ++ String c rest)) =
  (geohash_bits base ++ firstn k (bits5 (char_value c)))%list.
Proof.
  intros Hk. rewrite geohash_bits_app, firstn_app, geohash_bits_length.
  replace (5 * String.length base + k - 5 * String.length base)%nat with k by lia.
  rewrite firstn_all2 by (rewrite geohash_bits_length; lia). f_equal.
  change (geohash_bits (String c rest)) with (bits5 (char_value c) ++ geohash_bits rest)%list.
  rewrite firstn_app. cbn [List.length bits5 map].
  replace (k - 5)%nat with 0%nat by lia. cbn [firstn]. now rewrite app_nil_r.
Qed.

(** Sharing the bits of [base], a whole number of letters, and the [k]
    first bits of the letter after it. *)
Lemma shares_iff base c rest (k : nat) h :
  Forall letter (list_ascii_of_string (base ++ String c rest)) ->
  Forall letter (list_ascii_of_string h) ->
  (1 <= k <= 5)%nat ->
  firstn (5 * String.length base + k) (geohash_bits (base ++ String c rest)) =
  firstn (5 * String.length base + k) (geohash_bits h) <->
  exists c' rest', h = base ++ String c' rest' /\
                   firstn k (bits5 (char_value c)) = firstn k (bits5 (char_value c')).
Proof.
  intros Hg Hh Hk. rewrite firstn_bits by lia. split.
  - intros H.
    assert (Hlen : (String.length base < String.length h)%nat).
    { apply (f_equal (@List.length bool)) in H.
      rewrite length_app, geohash_bits_length, !length_firstn, geohash_bits_length in H.
      cbn [bits5 map List.length] in H. lia. }
    destruct (split_at (String.length base) h Hlen) as (base' & c' & rest' & -> & Hb').
    rewrite <- Hb' in H. rewrite firstn_bits in H by lia.
    apply app_inv_length in H as [H1 H2];
      [|rewrite !geohash_bits_length; lia].
    rewrite list_ascii_of_app in Hg, Hh.
    apply Forall_app in Hg as [Hg _]. apply Forall_app in Hh as [Hh _].
    apply geohash_bits_inj in H1; [|assumption|assumption]. subst base'.
    exists c', rest'. split; [reflexivity | exact H2].
  - intros (c' & rest' & -> & Hc). rewrite firstn_bits by lia. now rewrite Hc.
Qed.

(** The shape of the range of [geohashQuery]. *)
Lemma geohashQuery_form (g : string) (b : Z) :
  validateGeohash g = Ok tt ->
  0 < b ->
  ceil_div b g_BITS_PER_CHAR <= JsString.len g ->
  exists base c rest cs ce u,
    g = base ++ String c rest /\
    Z.of_nat (String.length base) = ceil_div b g_BITS_PER_CHAR - 1 /\
    u = 5 - (b - (ceil_div b g_BITS_PER_CHAR - 1) * 5) /\
    nth_char (js_shl (js_shr (char_value c) u) u) = Some cs /\
    (if js_shl (js_shr (char_value c) u) u + js_shl 1 u >? 31 then Some "~"%char
     else nth_char (js_shl (js_shr (char_value c) u) u + js_shl 1 u)) = Some ce /\
    geohashQuery g b = Ok (base ++ String cs EmptyString, base ++ String ce EmptyString).
Proof.
  intros Hv Hb Hp. unfold geohashQuery. rewrite Hv. cbn [bind_result].
  destruct (validateGeohash_ok g Hv) as [Hne Hletters].
  destruct (JsString.len g <? ceil_div b g_BITS_PER_CHAR) eqn:E;
    [apply Z.ltb_lt in E; lia|]. clear E.
  unfold g_BITS_PER_CHAR in *.
  pose proof (ceil_div_5_bounds b Hb) as [Hp1 Hsig].
  set (p := ceil_div b 5) in *.
  destruct (split_at (Z.to_nat (p - 1)) g) as (base & c & rest & -> & Hlen).
  { unfold JsString.len in Hp. lia. }
  exists base, c, rest.
  assert (Hsub : JsString.substring0 p (base ++ String c rest) = base ++ String c EmptyString).
  { unfold JsString.substring0, JsString.len. rewrite string_length_app. simpl.
    replace (Z.to_nat _) with (S (String.length base)) by lia.
    apply substring_prefix. }
  rewrite Hsub.
  assert (Hl1 : JsString.len (base ++ String c EmptyString) - 1 = Z.of_nat (String.length base)).
  { unfold JsString.len. rewrite string_length_app. simpl. lia. }
  rewrite Hl1.
  assert (Hbase : JsString.substring0 (Z.of_nat (String.length base))
                    (base ++ String c EmptyString) = base).
  { unfold JsString.substring0, JsString.len. rewrite string_length_app. simpl.
    replace (Z.to_nat _) with (String.length base) by lia.
    apply substring_base. }
  rewrite Hbase.
  assert (Hchar : JsString.charAt (Z.of_nat (String.length base))
                    (base ++ String c EmptyString) = String c EmptyString).
  { unfold JsString.charAt. destruct (_ <? 0) eqn:E; [apply Z.ltb_lt in E; lia|].
    rewrite Nat2Z.id, get_last. reflexivity. }
  rewrite Hchar.
  specialize (Hletters (String.length base) c (get_last base c rest)).
  destruct (alphabet_index c) as [Hc|[Hrange Hc]]; [contradiction|].
  fold (char_value c) in *.
  set (v := char_value c) in *.
  assert (Hu : JsString.len base = p - 1) by (unfold JsString.len; lia).
  rewrite Hu.
  set (u := 5 - (b - (p - 1) * 5)).
  pose proof (check_cell_ok v u Hrange ltac:(unfold u; lia)) as Hcell.
  unfold check_cell in Hcell. rewrite Hc in Hcell.
  set (s := js_shl (js_shr v u) u) in *.
  set (e := s + js_shl 1 u) in *.
  destruct (nth_char s) as [cs|] eqn:Hcs; [|discriminate].
  apply andb_prop in Hcell as [Hcell Hend].
  apply andb_prop in Hcell as [Hcell Htilde].
  apply andb_prop in Hcell as [Hs0 Hle].
  apply Z.leb_le in Hs0.
  assert (Hstart : JsString.append_index base g_BASE32 s = base ++ String cs EmptyString).
  { unfold JsString.append_index. destruct (s <? 0) eqn:E; [apply Z.ltb_lt in E; lia|].
    unfold nth_char in Hcs. now rewrite Hcs. }
  rewrite Hstart.
  destruct (e >? 31) eqn:He.
  - exists cs, "~"%char, u. split; [reflexivity|]. split; [lia|]. split; [reflexivity|].
    fold s. fold e. rewrite He. split; [exact Hcs|]. split; reflexivity.
  - apply andb_prop in Hend as [He0 Hce]. apply Z.leb_le in He0.
    destruct (nth_char e) as [ce|] eqn:Hnce; [|discriminate].
    assert (Hend' : JsString.append_index base g_BASE32 e = base ++ String ce EmptyString).
    { unfold JsString.append_index. destruct (e <? 0) eqn:E; [apply Z.ltb_lt in E; lia|].
      unfold nth_char in Hnce. now rewrite Hnce. }
    rewrite Hend'.
    exists cs, ce, u. split; [reflexivity|]. split; [lia|]. split; [reflexivity|].
    fold s. fold e. rewrite He. split; [exact Hcs|]. split; [exact Hnce | reflexivity].
Qed.

(** Two letters agree on their first bits exactly when the second is in
    the cell of the first. *)
Lemma cell_letters c c' u cs ce :
  letter c -> letter c' -> 0 <= u <= 5 ->
  nth_char (js_shl (js_shr (char_value c) u) u) = Some cs ->
  (if js_shl (js_shr (char_value c) u) u + js_shl 1 u >? 31 then Some "~"%char
   else nth_char (js_shl (js_shr (char_value c) u) u + js_shl 1 u)) = Some ce ->
  firstn (Z.to_nat (5 - u)) (bits5 (char_value c)) =
  firstn (Z.to_nat (5 - u)) (bits5 (char_value c')) <->
  Ascii.ltb c' cs = false /\ Ascii.ltb c' ce = true.
Proof.
  intros Hc Hc' Hu Hcs Hce.
  pose proof (check_pair_ok (char_value c) (char_value c') u (proj1 Hc) (proj1 Hc') Hu) as K.
  unfold check_pair in K.
  set (s := js_shl (js_shr (char_value c) u) u) in *.
  set (e := s + js_shl 1 u) in *.
  set (x := if e >? 31 then Some "~"%char else nth_char e) in *.
  rewrite (proj2 Hc'), Hcs, Hce in K.
  rewrite <- bits_eqb_eq.
  set (inside := (s <=? char_value c') && (char_value c' <? e)) in K.
  set (between := negb (Ascii.ltb c' cs) && Ascii.ltb c' ce) in K.
  set (same := bits_eqb _ _) in *.
  assert (E : same = between)
    by (destruct inside, between, same; cbn in K; try discriminate; reflexivity).
  rewrite E. unfold between. now rewrite andb_true_iff, negb_true_iff.
Qed.

Lemma shares_refl b g : shares_top_bits b g g.
Proof. reflexivity. Qed.

(** Claim C9.  For a valid geohash [g] and a bit count [b >= 0] with
    [ceil(b / 5) <= length g], [geohashQuery g b] returns a pair
    [(start, end)] with [start <= g <= end] in the order of strings, and
    the valid geohashes that share their [b] first bits with [g] are
    exactly those from [start] up to [end], the end itself excluded; this
    includes the case where the end is [base + '~']. *)
Theorem geohashQuery_contains (g : string) (b : Z) :
  validateGeohash g = Ok tt ->
  0 <= b ->
  ceil_div b g_BITS_PER_CHAR <= JsString.len g ->
  exists start end_,
    geohashQuery g b = Ok (start, end_) /\
    JsString.le start g = true /\ JsString.le g end_ = true /\
    forall h, validateGeohash h = Ok tt ->
      (shares_top_bits b g h <->
       JsString.le start h = true /\ JsString.le h end_ = true /\ h <> end_).
Proof.
  intros Hv Hb Hp.
  assert (G : exists start end_,
            geohashQuery g b = Ok (start, end_) /\
            forall h, validateGeohash h = Ok tt ->
              (shares_top_bits b g h <->
               JsString.le start h = true /\ JsString.le h end_ = true /\ h <> end_)).
  { destruct (Z.eq_dec b 0) as [->|Hb0].
    - (* no bit is significant: the whole alphabet *)
      exists "0", "~". split.
      + destruct g as [|c rest]; [discriminate|].
        unfold geohashQuery. rewrite Hv. reflexivity.
      + intros h Hh. destruct (valid_letters h Hh) as [Hne Hl].
        unfold JsString.le.
        rewrite (between_iff EmptyString "0" "~" h). split; [intros _ | intros _; reflexivity].
        destruct h as [|c' rest']; [congruence|]. exists c', rest'. split; [reflexivity|].
        cbn [list_ascii_of_string] in Hl. inversion Hl as [|? ? [Hv' Hc'] _]; subst.
        pose proof (check_pair_ok 0 _ 5 ltac:(lia) Hv' ltac:(lia)) as H.
        unfold check_pair in H. rewrite Hc' in H.
        change (js_shl (js_shr 0 5) 5) with 0 in H. change (js_shl 1 5) with 32 in H.
        cbn [Z.add Z.gtb Z.compare Pos.compare Pos.compare_cont] in H.
        change (nth_char 0) with (Some "0"%char) in H.
        apply andb_prop in H as [H _]. apply Bool.eqb_prop in H.
        assert (E : (0 <=? char_value c') && (char_value c' <? 32) = true)
          by (apply andb_true_intro; split; [apply Z.leb_le | apply Z.ltb_lt]; lia).
        rewrite E in H. symmetry in H. apply andb_prop in H as [H1 H2].
        apply negb_true_iff in H1. auto.
    - destruct (geohashQuery_form g b Hv ltac:(lia) Hp)
        as (base & c & rest & cs & ce & u & -> & Hlen & Hu & Hcs & Hce & Hq).
      unfold g_BITS_PER_CHAR in *.
      pose proof (ceil_div_5_bounds b ltac:(lia)) as [Hp1 Hsig].
      set (p := ceil_div b 5) in *.
      exists (base ++ String cs EmptyString), (base ++ String ce EmptyString).
      split; [exact Hq|]. intros h Hh.
      destruct (valid_letters _ Hv) as [_ Hlg]. destruct (valid_letters h Hh) as [_ Hlh].
      unfold JsString.le. rewrite between_iff. unfold shares_top_bits.
      replace (Z.to_nat b) with (5 * String.length base + Z.to_nat (5 - u))%nat
        by lia.
      rewrite (shares_iff base c rest (Z.to_nat (5 - u)) h Hlg Hlh) by lia.
      assert (Hc : letter c).
      { rewrite list_ascii_of_app in Hlg. apply Forall_app in Hlg as [_ Hlg].
        cbn [list_ascii_of_string] in Hlg. now inversion Hlg. }
      split; intros (c' & rest' & -> & H); exists c', rest'; (split; [reflexivity|]);
        assert (Hc' : letter c')
          by (rewrite list_ascii_of_app in Hlh; apply Forall_app in Hlh as [_ Hlh];
              cbn [list_ascii_of_string] in Hlh; now inversion Hlh);
        now apply (cell_letters c c' u cs ce Hc Hc' ltac:(lia) Hcs Hce). }
  destruct G as (start & end_ & Hq & Hiff). exists start, end_.
  split; [exact Hq|].
  destruct (proj1 (Hiff g Hv) (shares_refl b g)) as (H1 & H2 & _).
  split; [exact H1|]. split; [exact H2 | exact Hiff].
Qed.

(** ** The monad: frame rules *)

Section Keeps.

(** A relation between the world before and after a computation that
    every step of it maintains. *)
Context {rel : World -> World -> Prop} {rel_preorder : PreOrder rel}.

Lemma keeps_ret {A} (a : A) : keeps rel (ret a).
Proof. intros w. reflexivity. Qed.

Lemma keeps_throw {A} (e : exn) : keeps rel (@throw A e).
Proof. intros w. reflexivity. Qed.

Lemma keeps_gets {A} (f : World -> A) : keeps rel (gets f).
Proof. intros w. reflexivity. Qed.

Lemma keeps_lift {A} (r : result A) : keeps rel (lift r).
Proof. intros w. reflexivity. Qed.

Lemma keeps_modify (f : World -> World) :
  (forall w, rel w (f w)) -> keeps rel (modify f).
Proof. intros H w. apply H. Qed.

Lemma keeps_bind {A B} (m : M A) (k : A -> M B) :
  keeps rel m -> (forall a, keeps rel (k a)) -> keeps rel (bind m k).
Proof.
  intros Hm Hk w. unfold bind. specialize (Hm w).
  destruct (m w) as [[a|e] w']; cbn [snd] in *; [|exact Hm].
  etransitivity; [exact Hm | apply Hk].
Qed.

Lemma keeps_when (b : bool) (m : M unit) : keeps rel m -> keeps rel (when b m).
Proof. destruct b; cbn; auto using keeps_ret. Qed.

Lemma keeps_forEach {A} (f : A -> M unit) (l : list A) :
  (forall a, keeps rel (f a)) -> keeps rel (forEach f l).
Proof.
  intros Hf. induction l as [|a l IH]; cbn [forEach].
  - apply keeps_ret.
  - apply keeps_bind; auto.
Qed.

End Keeps.

(** One step of a frame proof; [leaf] closes the calls of methods already
    treated and the field updates. *)
Ltac keeps_step leaf :=
  first
    [ leaf
    | match goal with
      | |- keeps _ (match ?x with _ => _ end) => destruct x
      | |- keeps _ (let _ := _ in _) => cbv zeta
      | |- keeps _ (ret _) => apply keeps_ret
      | |- keeps _ (throw _) => apply keeps_throw
      | |- keeps _ (gets _) => apply keeps_gets
      | |- keeps _ (lift _) => apply keeps_lift
      | |- keeps _ (when _ _) => apply keeps_when
      | |- keeps _ (bind _ _) => apply keeps_bind; [ | intros ]
      | |- keeps _ (forEach _ _) => apply keeps_forEach; intros
      | |- keeps _ (modify _) => apply keeps_modify; intros
      end ].

Ltac keeps_with leaf := repeat (keeps_step leaf).

(** *** The criteria are only written by the constructor and updateCriteria *)

#[export] Instance same_criteria_preorder : PreOrder same_criteria.
Proof.
  split.
  - intros w. split; reflexivity.
  - intros a b c [H1 H2] [H3 H4]. split; congruence.
Qed.

Ltac criteria_leaf := solve [ split; reflexivity | assumption | auto ].

Section Criteria.
Variable ToNumber : string -> option R.

Lemma cancel_same_criteria : keeps same_criteria cancel.
Proof. unfold cancel, _cancelGeohashQuery, unsubscribe, clearTimer. keeps_with criteria_leaf. Qed.

Lemma call_same_criteria f c : keeps same_criteria (call f c).
Proof. unfold call. keeps_with ltac:(first [apply cancel_same_criteria | criteria_leaf]). Qed.

Lemma fire_same_criteria ev key l d doc :
  keeps same_criteria (_fireCallbacksForKey ev key l d doc).
Proof.
  unfold _fireCallbacksForKey.
  keeps_with ltac:(first [apply call_same_criteria | criteria_leaf]).
Qed.

Lemma fireReady_same_criteria : keeps same_criteria _fireReadyEventCallbacks.
Proof.
  unfold _fireReadyEventCallbacks.
  keeps_with ltac:(first [apply call_same_criteria | criteria_leaf]).
Qed.

Lemma readyCallback_same_criteria q : keeps same_criteria (_geohashQueryReadyCallback q).
Proof.
  unfold _geohashQueryReadyCallback.
  keeps_with ltac:(first [apply fireReady_same_criteria | criteria_leaf]).
Qed.

Lemma listen_from_same_criteria l : keeps same_criteria (_listenForNewGeohashes_from l).
Proof.
  unfold _listenForNewGeohashes_from, setTimeout, onSnapshot, fresh_handle.
  keeps_with ltac:(first [apply readyCallback_same_criteria | criteria_leaf]).
Qed.

Lemma listen_same_criteria : keeps same_criteria _listenForNewGeohashes.
Proof.
  unfold _listenForNewGeohashes.
  keeps_with ltac:(first [apply listen_from_same_criteria | criteria_leaf]).
Qed.

Lemma updateCriteria_key_same_criteria key : keeps same_criteria (updateCriteria_key key).
Proof.
  unfold updateCriteria_key, set_tracked.
  keeps_with ltac:(first [apply fire_same_criteria | criteria_leaf]).
Qed.

Lemma updateCriteria_loop_same_criteria keys : keeps same_criteria (updateCriteria_loop keys).
Proof.
  induction keys as [|key rest IH]; cbn [updateCriteria_loop].
  - apply keeps_ret.
  - keeps_with ltac:(first [apply updateCriteria_key_same_criteria | exact IH | criteria_leaf]).
Qed.
End Criteria.

(** ** updateCriteria and the criteria *)

Lemma Rltb_true x y : (x < y)%R -> Rltb x y = true.
Proof. intros H. unfold Rltb. destruct (Rlt_dec x y); [reflexivity | contradiction]. Qed.

Lemma Rltb_false x y : (y <= x)%R -> Rltb x y = false.
Proof. intros H. unfold Rltb. destruct (Rlt_dec x y); [lra | reflexivity]. Qed.

Lemma Rleb_true x y : (x <= y)%R -> Rleb x y = true.
Proof. intros H. unfold Rleb. destruct (Rle_dec x y); [reflexivity | contradiction]. Qed.

Lemma Rleb_false x y : (y < x)%R -> Rleb x y = false.
Proof. intros H. unfold Rleb. destruct (Rle_dec x y); [lra | reflexivity]. Qed.

Lemma Reqb_true x : Reqb x x = true.
Proof. unfold Reqb. destruct (Req_dec_T x x); [reflexivity | contradiction]. Qed.

Lemma Reqb_false x y : x <> y -> Reqb x y = false.
Proof. intros H. unfold Reqb. destruct (Req_dec_T x y); [contradiction | reflexivity]. Qed.

Lemma validateLocation_ok lat lon :
  (-90 <= lat <= 90)%R -> (-180 <= lon <= 180)%R -> validateLocation (loc lat lon) = Ok tt.
Proof.
  intros Hlat Hlon. unfold validateLocation, loc.
  rewrite (Rltb_false lat), (Rltb_false 90), (Rltb_false lon), (Rltb_false 180) by lra.
  reflexivity.
Qed.

Section UpdateCriteria.

Lemma updateCriteria_rest_same_criteria : keeps same_criteria updateCriteria_rest.
Proof.
  unfold updateCriteria_rest.
  keeps_with ltac:(first [ apply updateCriteria_loop_same_criteria
                         | apply listen_same_criteria | criteria_leaf ]).
Qed.

Lemma updateCriteria_valid c nc nr w :
  validateCriteria c false = Ok tt ->
  get_field c "center" = Ok nc ->
  get_field c "radius" = Ok nr ->
  updateCriteria c w =
  updateCriteria_rest
    (set_radius (js_or nr (_radius (set_center (js_or nc (_center w)) w)))
                (set_center (js_or nc (_center w)) w)).
Proof.
  intros Hv Hc Hr. unfold updateCriteria, bind, lift, modify. rewrite Hv, Hc, Hr.
  reflexivity.
Qed.

Lemma updateCriteria_stores c nc nr w :
  validateCriteria c false = Ok tt ->
  get_field c "center" = Ok nc ->
  get_field c "radius" = Ok nr ->
  _center (snd (updateCriteria c w)) = js_or nc (_center w) /\
  _radius (snd (updateCriteria c w)) = js_or nr (_radius w).
Proof.
  intros Hv Hc Hr. rewrite (updateCriteria_valid c nc nr w Hv Hc Hr).
  destruct (updateCriteria_rest_same_criteria
              (set_radius (js_or nr (_radius (set_center (js_or nc (_center w)) w)))
                          (set_center (js_or nc (_center w)) w))) as [H1 H2].
  rewrite H1, H2. split; reflexivity.
Qed.

Lemma validateCriteria_radius r :
  (0 <= r)%R -> validateCriteria (VObj [("radius", VNum r)]) false = Ok tt.
Proof.
  intros Hr. unfold validateCriteria. cbn. rewrite Rltb_false by lra. reflexivity.
Qed.

(** Claim C3, at the input where the code departs from it.  The radius [0]
    passes [validateCriteria], and [updateCriteria({radius: 0})] leaves the
    radius (and the center) of the query as they were: [0 || this._radius]
    is the old radius. *)
Theorem updateCriteria_radius_zero_not_stored (w : World) :
  validateCriteria (VObj [("radius", VNum 0)]) false = Ok tt /\
  _radius (snd (updateCriteria (VObj [("radius", VNum 0)]) w)) = _radius w /\
  _center (snd (updateCriteria (VObj [("radius", VNum 0)]) w)) = _center w.
Proof.
  assert (Hv : validateCriteria (VObj [("radius", VNum 0)]) false = Ok tt)
    by (apply validateCriteria_radius; lra).
  split; [exact Hv|].
  destruct (updateCriteria_stores (VObj [("radius", VNum 0)]) VUndefined (VNum 0) w Hv
              eq_refl eq_refl) as [Hc Hr].
  rewrite Hc, Hr. unfold js_or, truthy. rewrite Reqb_true. split; reflexivity.
Qed.

(** A positive radius is stored and the center is kept. *)
Lemma updateCriteria_radius_positive (w : World) (r : R) :
  (0 < r)%R ->
  _radius (snd (updateCriteria (VObj [("radius", VNum r)]) w)) = VNum r /\
  _center (snd (updateCriteria (VObj [("radius", VNum r)]) w)) = _center w.
Proof.
  intros Hr.
  assert (Hv : validateCriteria (VObj [("radius", VNum r)]) false = Ok tt)
    by (apply validateCriteria_radius; lra).
  destruct (updateCriteria_stores (VObj [("radius", VNum r)]) VUndefined (VNum r) w Hv
              eq_refl eq_refl) as [Hc Hr'].
  rewrite Hc, Hr'. unfold js_or, truthy. rewrite Reqb_false by lra. split; reflexivity.
Qed.

(** A center alone is stored and the radius is kept. *)
Lemma updateCriteria_center_only (w : World) (lat lon : R) :
  validateLocation (loc lat lon) = Ok tt ->
  _center (snd (updateCriteria (VObj [("center", loc lat lon)]) w)) = loc lat lon /\
  _radius (snd (updateCriteria (VObj [("center", loc lat lon)]) w)) = _radius w.
Proof.
  intros Hl.
  assert (Hv : validateCriteria (VObj [("center", loc lat lon)]) false = Ok tt).
  { unfold validateCriteria. cbn -[validateLocation]. unfold loc in *. rewrite Hl. reflexivity. }
  destruct (updateCriteria_stores (VObj [("center", loc lat lon)]) (loc lat lon) VUndefined
              w Hv eq_refl eq_refl) as [Hc Hr].
  rewrite Hc, Hr. split; reflexivity.
Qed.

(** The constructor stores the criteria it was given, a radius of [0]
    included. *)
Lemma constructor_stores_criteria (ref c center radius : jsval) (w : World) :
  is_plain_object ref = true ->
  validateCriteria c true = Ok tt ->
  get_field c "center" = Ok center ->
  get_field c "radius" = Ok radius ->
  _center (snd (GeoFirestoreQuery ref c w)) = center /\
  _radius (snd (GeoFirestoreQuery ref c w)) = radius.
Proof.
  intros Href Hv Hc Hr.
  assert (E : exists w0, GeoFirestoreQuery ref c w =
                         _listenForNewGeohashes (set_radius radius (set_center center w0))).
  { unfold GeoFirestoreQuery, bind, modify, lift, when, setInterval, fresh_handle, gets, ret.
    rewrite Href, Hv, Hc, Hr. cbn [negb]. eexists. reflexivity. }
  destruct E as [w0 ->].
  destruct (listen_same_criteria (set_radius radius (set_center center w0))) as [H1 H2].
  rewrite H1, H2. split; reflexivity.
Qed.

Example constructor_stores_radius_zero (w : World) :
  _radius (snd (GeoFirestoreQuery (VObj [])
                  (VObj [("center", loc 0 0); ("radius", VNum 0)]) w)) = VNum 0.
Proof.
  apply (constructor_stores_criteria (VObj []) _ (loc 0 0) (VNum 0) w); try reflexivity.
  unfold validateCriteria. cbn -[validateLocation].
  rewrite validateLocation_ok by lra. rewrite Rltb_false by lra. reflexivity.
Qed.
End UpdateCriteria.

(** ** Timers and the constructor *)

Example world_thirty_ranges :
  List.length (_currentGeohashesQueried world_thirty) = 30%nat /\
  NoDup (Dict.keys (_currentGeohashesQueried world_thirty)) /\
  List.length (listeners world_thirty) = 60%nat /\
  timers world_thirty = [(0%nat, sweep)] /\
  _geohashCleanupScheduled world_thirty = false.
Proof.
  repeat split; try (vm_compute; reflexivity).
  vm_compute. repeat constructor; cbn; intuition discriminate.
Qed.

Section Timers.
Variable ToNumber : string -> option R.

(** The one-shot clean up never runs on the query. *)
Lemma one_shot_throws (w : World) (h : nat) :
  find_handle h (timers w) = Some one_shot ->
  timer_fires ToNumber h w =
  (Throw (TypeError "Cannot convert undefined or null to object"),
   set_timers (remove_handle h (timers w)) w).
Proof. intros H. unfold timer_fires, bind, gets. rewrite H. reflexivity. Qed.

(** While a clean up is marked as scheduled the periodic sweep does
    nothing. *)
Lemma sweep_skipped (w : World) (h : nat) :
  find_handle h (timers w) = Some sweep ->
  _geohashCleanupScheduled w = true ->
  timer_fires ToNumber h w = (Ok tt, w).
Proof.
  intros H Hs. unfold timer_fires, bind, gets. rewrite H.
  cbn [sweep repeating callback negb when ret]. rewrite Hs. reflexivity.
Qed.

(** Claim C6, on the scenario of the claim.  Thirty ranges are queried and
    five are still wanted; the update schedules the one-shot clean up
    (timer 61, 10 ms).  When that timer fires the method runs without its
    receiver and throws: the thirty ranges and their sixty listeners stay,
    the flag [_geohashCleanupScheduled] stays set, and the periodic sweep
    (timer 0) therefore does nothing either. *)
Theorem one_shot_cleanup_removes_nothing :
  List.length (_currentGeohashesQueried world_shrunk) = 30%nat /\
  count_active (_currentGeohashesQueried world_shrunk) = 5%nat /\
  _geohashCleanupScheduled world_shrunk = true /\
  _cleanUpCurrentGeohashesQueriedTimeout world_shrunk = Some 61%nat /\
  timers world_shrunk = [(0%nat, sweep); (61%nat, one_shot)] /\
  let (thrown, w') := timer_fires ToNumber 61 world_shrunk in
  thrown = Throw (TypeError "Cannot convert undefined or null to object") /\
  _currentGeohashesQueried w' = _currentGeohashesQueried world_shrunk /\
  listeners w' = listeners world_shrunk /\
  List.length (listeners w') = 60%nat /\
  _geohashCleanupScheduled w' = true /\
  timer_fires ToNumber 0 w' = (Ok tt, w').
Proof.
  split; [vm_compute; reflexivity|].
  split; [vm_compute; reflexivity|].
  split; [vm_compute; reflexivity|].
  split; [vm_compute; reflexivity|].
  split; [vm_compute; reflexivity|].
  rewrite one_shot_throws by (vm_compute; reflexivity).
  split; [reflexivity|].
  split; [vm_compute; reflexivity|].
  split; [vm_compute; reflexivity|].
  split; [vm_compute; reflexivity|].
  split; [vm_compute; reflexivity|].
  apply sweep_skipped; vm_compute; reflexivity.
Qed.
End Timers.

(** Claim C5, on the same scenario.  With the one-shot clean up pending,
    [cancel()] returns normally and clears the periodic timer only: the
    one-shot timer is still scheduled afterwards. *)
Theorem cancel_leaves_one_shot_scheduled :
  timers world_shrunk = [(0%nat, sweep); (61%nat, one_shot)] /\
  fst (cancel world_shrunk) = Ok tt /\
  timers (snd (cancel world_shrunk)) = [(61%nat, one_shot)] /\
  _cleanUpCurrentGeohashesQueriedTimeout (snd (cancel world_shrunk)) = Some 61%nat.
Proof. repeat split; vm_compute; reflexivity. Qed.

Section Constructor.

Lemma constructor_invalid_criteria (ref c : jsval) (e : exn) (w : World) :
  is_plain_object ref = true ->
  validateCriteria c true = Throw e ->
  fst (GeoFirestoreQuery ref c w) = Throw e /\
  timers (snd (GeoFirestoreQuery ref c w)) = (timers w ++ [(next_handle w, sweep)])%list /\
  listeners (snd (GeoFirestoreQuery ref c w)) = listeners w.
Proof.
  intros Href Hc. unfold GeoFirestoreQuery, bind, modify, lift, setInterval, fresh_handle, gets, ret.
  rewrite Href, Hc. cbn. repeat split.
Qed.

(** Claim C8, at criteria without a radius.  The constructor throws, no
    listener is attached, but the periodic timer was set before the
    criteria were validated and stays scheduled. *)
Theorem constructor_throws_after_setInterval (w : World) :
  let criteria := VObj [("center", loc 0 0)] in
  let (thrown, w') := GeoFirestoreQuery (VObj []) criteria w in
  thrown = Throw (Error "query criteria for a new query must contain both a center and a radius") /\
  timers w' = (timers w ++ [(next_handle w, sweep)])%list /\
  listeners w' = listeners w.
Proof.
  cbv zeta.
  pose proof (constructor_invalid_criteria (VObj []) (VObj [("center", loc 0 0)])
    (Error "query criteria for a new query must contain both a center and a radius") w
    eq_refl eq_refl) as H.
  destruct (GeoFirestoreQuery (VObj []) (VObj [("center", loc 0 0)]) w). exact H.
Qed.

(** An invalid collection reference is rejected before the timer is set. *)
Lemma constructor_invalid_ref (ref c : jsval) (w : World) :
  is_plain_object ref = false ->
  fst (GeoFirestoreQuery ref c w) = Throw (Error "firebaseRef must be an instance of Firestore") /\
  timers (snd (GeoFirestoreQuery ref c w)) = timers w /\
  listeners (snd (GeoFirestoreQuery ref c w)) = listeners w.
Proof.
  intros Href. unfold GeoFirestoreQuery, bind, modify. rewrite Href. cbn. repeat split.
Qed.
End Constructor.

(** ** The sweep over the tracked locations *)

Lemma nodupb_NoDup l : nodupb l = true -> NoDup l.
Proof.
  induction l as [|k l IH]; cbn; intros H; constructor.
  - apply andb_prop in H as [H _]. apply negb_true_iff in H.
    intros Hin. assert (existsb (String.eqb k) l = true); [|congruence].
    apply existsb_exists. exists k. split; auto. apply String.eqb_refl.
  - apply IH. now apply andb_prop in H as [_ H].
Qed.

Lemma get_delete_same {V} k (d : Dict.t V) : Dict.get k (Dict.delete k d) = None.
Proof.
  unfold Dict.get, Dict.delete. induction d as [|[k' v] d IH]; cbn; auto.
  destruct (String.eqb k k') eqn:E; cbn; auto. now rewrite E.
Qed.

Lemma get_delete_other {V} k k' (d : Dict.t V) :
  k <> k' -> Dict.get k (Dict.delete k' d) = Dict.get k d.
Proof.
  intros Hne. unfold Dict.get, Dict.delete. induction d as [|[k'' v] d IH]; cbn; auto.
  destruct (String.eqb k' k'') eqn:E; cbn.
  - apply String.eqb_eq in E. subst k''.
    destruct (String.eqb k k') eqn:E'; [apply String.eqb_eq in E'; congruence | exact IH].
  - destruct (String.eqb k k''); auto.
Qed.

Lemma get_in_keys {V} k (d : Dict.t V) : In k (Dict.keys d) -> Dict.get k d <> None.
Proof.
  unfold Dict.get, Dict.keys. induction d as [|[k' v] d IH]; cbn; [tauto|].
  intros [->|Hin].
  - now rewrite String.eqb_refl.
  - destruct (String.eqb k k'); [discriminate | auto].
Qed.

Section CleanUp.
Variable ToNumber : string -> option R.

Lemma geohashInSomeQuery_loop_wf g keys :
  forallb (fun k => is_ok (_stringToQuery k)) keys = true ->
  exists b, _geohashInSomeQuery_loop ToNumber g keys = Ok b.
Proof.
  induction keys as [|k keys IH]; cbn [forallb _geohashInSomeQuery_loop]; intros H.
  - eauto.
  - apply andb_prop in H as [Hk H]. destruct (_stringToQuery k) as [q|]; [|discriminate].
    cbn [bind_result]. destruct (in_range ToNumber g q); eauto.
Qed.

Lemma geohashInSomeQuery_covered w g :
  ranges_wf (_currentGeohashesQueried w) = true ->
  _geohashInSomeQuery ToNumber (Some g) w =
  (Ok (covered ToNumber (_currentGeohashesQueried w) g), w).
Proof.
  intros Hwf. unfold _geohashInSomeQuery, bind, gets, lift, covered.
  destruct (geohashInSomeQuery_loop_wf (Some g) _ Hwf) as [b ->]. reflexivity.
Qed.

(** One iteration of the sweep over the tracked locations. *)
Lemma cleanUp_location_cases w key e :
  ranges_wf (_currentGeohashesQueried w) = true ->
  Dict.get key (_locationsTracked w) = Some e ->
  cleanUp_location ToNumber key w =
  if covered ToNumber (_currentGeohashesQueried w) (geohash e) then (Ok tt, w)
  else if isInQuery e then (Throw internal_state_error, w)
  else (Ok tt, set_locationsTracked (Dict.delete key (_locationsTracked w)) w).
Proof.
  intros Hwf Hget. unfold cleanUp_location, bind, gets. rewrite Hget.
  rewrite (geohashInSomeQuery_covered w (geohash e) Hwf).
  destruct (covered ToNumber (_currentGeohashesQueried w) (geohash e)); [reflexivity|].
  cbn [negb when]. destruct (isInQuery e); reflexivity.
Qed.

Lemma geohashInSomeQuery_loop_iff g keys :
  forallb (fun k => is_ok (_stringToQuery k)) keys = true ->
  _geohashInSomeQuery_loop ToNumber (Some g) keys = Ok true <->
  exists k start end_,
    In k keys /\ _stringToQuery k = Ok (start, end_) /\
    JsString.le start g = true /\ JsString.le g end_ = true.
Proof.
  induction keys as [|k keys IH]; cbn [forallb _geohashInSomeQuery_loop]; intros H.
  - split; [discriminate | intros (k & s & e & [] & _)].
  - apply andb_prop in H as [Hk H].
    destruct (_stringToQuery k) as [[s e]|] eqn:Hq; [|discriminate].
    cbn [bind_result in_range fst snd].
    destruct (JsString.le s g && JsString.le g e) eqn:Hin.
    + split; [intros _ | reflexivity]. apply andb_prop in Hin as [H1 H2].
      exists k, s, e. repeat split; auto. now left.
    + rewrite (IH H). split.
      * intros (k' & s' & e' & Hin' & Hq' & H1 & H2).
        exists k', s', e'. repeat split; auto. now right.
      * intros (k' & s' & e' & [<-|Hin'] & Hq' & H1 & H2).
        -- rewrite Hq in Hq'. injection Hq' as <- <-. rewrite H1, H2 in Hin. discriminate.
        -- exists k', s', e'. auto.
Qed.

(** The test of the code is the coverage by a queried range. *)
Lemma covered_iff current g :
  ranges_wf current = true ->
  covered ToNumber current g = true <-> covered_by current g.
Proof.
  intros Hwf. unfold covered, covered_by.
  rewrite <- (geohashInSomeQuery_loop_iff g _ Hwf).
  destruct (geohashInSomeQuery_loop_wf (Some g) _ Hwf) as [b ->].
  split; [intros ->; reflexivity | intros [= ->]; reflexivity].
Qed.

Lemma forEach_cleanUp_location keys : forall w,
  ranges_wf (_currentGeohashesQueried w) = true ->
  NoDup keys ->
  (forall k, In k keys -> Dict.get k (_locationsTracked w) <> None) ->
  sweep_spec ToNumber keys w (fst (forEach (cleanUp_location ToNumber) keys w))
                    (snd (forEach (cleanUp_location ToNumber) keys w)).
Proof.
  induction keys as [|key rest IH]; intros w Hwf Hnd Hin.
  - cbn. split; [reflexivity|]. split; [auto|]. split; [|reflexivity].
    intros k e Hk. split; [auto | intros []].
  - inversion Hnd as [|? ? Hnotin Hnd']; subst.
    destruct (Dict.get key (_locationsTracked w)) as [e0|] eqn:Hkey;
      [|exfalso; eapply Hin; [left; reflexivity | exact Hkey]].
    assert (Hstep : forEach (cleanUp_location ToNumber) (key :: rest) w =
                    match cleanUp_location ToNumber key w with
                    | (Ok _, w1) => forEach (cleanUp_location ToNumber) rest w1
                    | (Throw e, w1) => (Throw e, w1)
                    end) by reflexivity.
    rewrite Hstep, (cleanUp_location_cases w key e0 Hwf Hkey). clear Hstep.
    destruct (covered ToNumber (_currentGeohashesQueried w) (geohash e0)) eqn:Hcov.
    + (* still covered: untouched *)
      cbv beta iota.
      destruct (IH w Hwf Hnd' (fun k H => Hin k (or_intror H)))
        as (Hcur & Hnone & Hsome & Hok).
      split; [exact Hcur|]. split; [exact Hnone|]. split.
      * intros k e Hk. destruct (Hsome k e Hk) as [Hout Hrest]. split.
        -- intros Hn. apply Hout. intros Hr. apply Hn. now right.
        -- intros [<-|Hr]; [|exact (Hrest Hr)].
           rewrite Hkey in Hk. injection Hk as <-. rewrite Hcov. now apply Hout.
      * intros Hall. apply Hok. intros k e Hr. apply Hall. now right.
    + destruct (isInQuery e0) eqn:Hin0.
      * (* in the query: the fatal error *)
        cbv beta iota. cbn [fst snd]. split; [reflexivity|]. split; [auto|]. split.
        -- intros k e Hk. split; [auto|]. intros _.
           destruct (covered ToNumber (_currentGeohashesQueried w) (geohash e)); [exact Hk|].
           destruct (isInQuery e); [split; [reflexivity | exact Hk] | discriminate].
        -- intros Hall. specialize (Hall key e0 (or_introl eq_refl) Hkey Hcov). congruence.
      * (* not in the query: deleted *)
        cbv beta iota.
        set (w1 := set_locationsTracked (Dict.delete key (_locationsTracked w)) w).
        assert (Hin1 : forall k, In k rest -> Dict.get k (_locationsTracked w1) <> None).
        { intros k Hr. cbn. rewrite get_delete_other; [apply Hin; now right|].
          intros ->. contradiction. }
        destruct (IH w1 Hwf Hnd' Hin1) as (Hcur & Hnone & Hsome & Hok).
        split; [exact Hcur|]. split; [|split].
        { intros k Hk. apply Hnone. cbn.
          destruct (String.eqb k key) eqn:E.
          - apply String.eqb_eq in E. subst k. apply get_delete_same.
          - apply String.eqb_neq in E. now rewrite get_delete_other. }
        { intros k e Hk. destruct (String.eqb k key) eqn:E.
          - apply String.eqb_eq in E. subst k. rewrite Hkey in Hk. injection Hk as <-.
            split; [intros Hn; exfalso; apply Hn; now left|].
            intros _. rewrite Hcov, Hin0. intros _. apply Hnone. cbn. apply get_delete_same.
          - apply String.eqb_neq in E.
            assert (Hk1 : Dict.get k (_locationsTracked w1) = Some e)
              by (cbn; now rewrite get_delete_other).
            destruct (Hsome k e Hk1) as [Hout Hrest]. split.
            + intros Hn. apply Hout. intros Hr. apply Hn. now right.
            + intros [->|Hr]; [congruence|]. now apply Hrest. }
        { intros Hall. apply Hok. intros k e Hr Hk. apply (Hall k e); [now right|].
          cbn in Hk. rewrite get_delete_other in Hk; [exact Hk|].
          intros ->. contradiction. }
Qed.


End CleanUp.

(** ** After cancel() *)

#[export] Instance quiet_preorder : PreOrder quiet.
Proof.
  split.
  - intros w H. split; [exact H | reflexivity].
  - intros a b c Hab Hbc H. destruct (Hab H) as [Hb Hcb].
    destruct (Hbc Hb) as [Hc Hcc]. split; [exact Hc | congruence].
Qed.

#[export] Instance same_registry_preorder : PreOrder same_registry.
Proof.
  split.
  - intros w. split; reflexivity.
  - intros a b c [H1 H2] [H3 H4]. split; congruence.
Qed.

Ltac quiet_leaf :=
  solve [ assumption
        | match goal with
          | |- quiet _ _ => let H := fresh in intros H; split; [exact H | reflexivity]
          end ].


Section Cancelled.
Variable ToNumber : string -> option R.


Lemma fireReady_quiet : keeps quiet _fireReadyEventCallbacks.
Proof.
  intros w H. unfold _fireReadyEventCallbacks, bind, gets. rewrite H. cbn. split; auto.
Qed.

Lemma readyCallback_quiet q : keeps quiet (_geohashQueryReadyCallback q).
Proof.
  unfold _geohashQueryReadyCallback.
  keeps_with ltac:(first [apply fireReady_quiet | quiet_leaf]).
Qed.











Lemma listen_from_quiet l : keeps quiet (_listenForNewGeohashes_from l).
Proof.
  unfold _listenForNewGeohashes_from, setTimeout, onSnapshot, fresh_handle.
  keeps_with ltac:(first [apply readyCallback_quiet | quiet_leaf]).
Qed.

Lemma listen_quiet : keeps quiet _listenForNewGeohashes.
Proof.
  unfold _listenForNewGeohashes.
  keeps_with ltac:(first [apply listen_from_quiet | quiet_leaf]).
Qed.

(** The loop of [updateCriteria] breaks at once on a cancelled query. *)
Lemma updateCriteria_loop_cancelled keys w :
  _cancelled w = true -> updateCriteria_loop keys w = (Ok tt, w).
Proof.
  intros H. destruct keys as [|key rest]; [reflexivity|].
  cbn [updateCriteria_loop]. unfold bind, gets. rewrite H. reflexivity.
Qed.


End Cancelled.

(** [cancel()] does not reset [_valueEventFired]: a [ready] callback
    registered on a cancelled query that was ready is called at once. *)
Example on_ready_after_cancel :
  calls (snd ((cancel ;; on "ready" (VFun 7)) (set_valueEventFired true empty_world))) =
  [CancelReturned; CallReady 7].
Proof. vm_compute. reflexivity. Qed.

(** ** Registrations *)

#[export] Instance steady_preorder : PreOrder steady.
Proof.
  split.
  - intros w H. split; reflexivity.
  - intros a b c Hab Hbc H. destruct (Hab H) as [H1 H2].
    destruct Hbc as [H3 H4]; [intros f; rewrite H2; apply H|]. split; congruence.
Qed.

Ltac steady_leaf :=
  solve [ assumption
        | match goal with
          | |- steady _ _ => let H := fresh in intros H; split; reflexivity
          end ].

Lemma eventType_eqb_eq a b : eventType_eqb a b = true <-> a = b.
Proof. destruct a, b; cbn; split; congruence. Qed.

Lemma callbacks_for_set_same ev l c : callbacks_for ev (set_callbacks_for ev l c) = l.
Proof. destruct ev; reflexivity. Qed.

Lemma callbacks_for_set_other ev ev' l c :
  ev' <> ev -> callbacks_for ev' (set_callbacks_for ev l c) = callbacks_for ev' c.
Proof. destruct ev, ev'; try reflexivity; congruence. Qed.

(** [splice(indexOf(f), 1)] removes the first occurrence of a callback that
    is in the list. *)
Lemma indexOf_from_ge f l : forall i, indexOf_from Nat.eqb f l i = -1 \/ i <= indexOf_from Nat.eqb f l i.
Proof.
  induction l as [|x l IH]; intros i; cbn; [now left|].
  destruct (Nat.eqb f x); [right; lia|]. destruct (IH (i + 1)); [now left | right; lia].
Qed.

Lemma splice1_indexOf_in f l :
  In f l ->
  exists l1 l2, l = (l1 ++ f :: l2)%list /\ ~ In f l1 /\
                splice1 (indexOf Nat.eqb f l) l = (l1 ++ l2)%list.
Proof.
  unfold indexOf, splice1.
  assert (G : forall l, In f l -> exists l1 l2, l = (l1 ++ f :: l2)%list /\ ~ In f l1 /\
              forall i, indexOf_from Nat.eqb f l i = i + Z.of_nat (List.length l1)).
  { clear l. induction l as [|x l IH]; intros Hin; [destruct Hin|].
    destruct (Nat.eqb f x) eqn:E.
    - apply Nat.eqb_eq in E. subst x. exists [], l. repeat split; auto.
      intros i. cbn. rewrite Nat.eqb_refl. lia.
    - destruct Hin as [->|Hin]; [rewrite Nat.eqb_refl in E; discriminate|].
      destruct (IH Hin) as (l1 & l2 & -> & Hn & Hi). exists (x :: l1), l2.
      repeat split; auto.
      + intros [->|H]; [rewrite Nat.eqb_refl in E; discriminate | auto].
      + intros i. cbn [indexOf_from]. rewrite E, Hi. cbn [List.length]. lia. }
  intros Hin. destruct (G l Hin) as (l1 & l2 & -> & Hn & Hi). exists l1, l2.
  repeat split; auto. rewrite Hi.
  destruct (0 + Z.of_nat (List.length l1) <? 0) eqn:E; [apply Z.ltb_lt in E; lia|].
  rewrite length_app. cbn [List.length].
  replace (Z.to_nat _) with (List.length l1) by lia.
  clear. induction l1; cbn; [reflexivity | f_equal; auto].
Qed.

Lemma occurrences_app f l1 l2 :
  occurrences f (l1 ++ l2) = (occurrences f l1 + occurrences f l2)%nat.
Proof. unfold occurrences. apply count_occ_app. Qed.

Lemma occurrences_in f l : (0 < occurrences f l)%nat -> In f l.
Proof. unfold occurrences. intros H. now apply (count_occ_In Nat.eq_dec). Qed.

Section Registrations.
Variable ToNumber : string -> option R.

Lemma call_steady f c : keeps steady (call f c).
Proof.
  intros w H. unfold call, bind, modify, gets. cbn [bodies set_calls].
  rewrite H. cbn. split; reflexivity.
Qed.

Lemma fire_steady ev key l d doc : keeps steady (_fireCallbacksForKey ev key l d doc).
Proof.
  unfold _fireCallbacksForKey. keeps_with ltac:(first [apply call_steady | steady_leaf]).
Qed.

Lemma fireReady_steady : keeps steady _fireReadyEventCallbacks.
Proof.
  unfold _fireReadyEventCallbacks. keeps_with ltac:(first [apply call_steady | steady_leaf]).
Qed.

Lemma readyCallback_steady q : keeps steady (_geohashQueryReadyCallback q).
Proof.
  unfold _geohashQueryReadyCallback.
  keeps_with ltac:(first [apply fireReady_steady | steady_leaf]).
Qed.

Lemma updateLocation_steady key l doc : keeps steady (_updateLocation key l doc).
Proof.
  unfold _updateLocation, set_tracked.
  keeps_with ltac:(first [apply fire_steady | steady_leaf]).
Qed.

Lemma removeLocation_steady key l : keeps steady (_removeLocation key l).
Proof.
  unfold _removeLocation. keeps_with ltac:(first [apply fire_steady | steady_leaf]).
Qed.

Lemma geohashInSomeQuery_steady g : keeps steady (_geohashInSomeQuery ToNumber g).
Proof. unfold _geohashInSomeQuery. keeps_with steady_leaf. Qed.

Lemma turn_steady e w : steady w (turn ToNumber e w).
Proof.
  destruct e as [docChanges|handle toQueryStr|key snapshot|h]; cbn [turn].
  - induction docChanges as [|change rest IH] in w |- *; cbn [child_listener].
    { reflexivity. }
    revert w. change (keeps steady (child_listener (change :: rest))).
    cbn [child_listener].
    unfold _childAddedCallback, _childChangedCallback, _childRemovedCallback.
    keeps_with ltac:(first [apply updateLocation_steady | exact IH | steady_leaf]).
  - revert w. change (keeps steady (value_listener handle toQueryStr)).
    unfold value_listener, unsubscribe.
    keeps_with ltac:(first [apply readyCallback_steady | steady_leaf]).
  - revert w. change (keeps steady (_childRemovedCallback_then ToNumber key snapshot)).
    unfold _childRemovedCallback_then.
    keeps_with ltac:(first [apply removeLocation_steady | apply geohashInSomeQuery_steady
                           | steady_leaf]).
  - revert w. change (keeps steady (timer_fires ToNumber h)).
    unfold timer_fires, _cleanUpCurrentGeohashesQueried, cleanUp_queries,
      cleanUp_locations, cleanUp_location, _cancelGeohashQuery, unsubscribe, clearTimer.
    keeps_with ltac:(first [apply geohashInSomeQuery_steady | steady_leaf]).
Qed.

Lemma updateCriteria_steady c : keeps steady (updateCriteria c).
Proof.
  assert (L : forall keys, keeps steady (updateCriteria_loop keys)).
  { induction keys as [|key rest IH]; cbn [updateCriteria_loop]; [apply keeps_ret|].
    unfold updateCriteria_key, set_tracked.
    keeps_with ltac:(first [apply fire_steady | exact IH | steady_leaf]). }
  unfold updateCriteria, _listenForNewGeohashes, _listenForNewGeohashes_from,
    setTimeout, onSnapshot, fresh_handle.
  keeps_with ltac:(first [apply L | apply readyCallback_steady | steady_leaf]).
Qed.
End Registrations.

Lemma live_app ev f rs r :
  live ev f (rs ++ [r]) = (live ev f rs + (if is_live ev f r then 1 else 0))%nat.
Proof.
  unfold live. rewrite filter_app, length_app. cbn. destruct (is_live ev f r); reflexivity.
Qed.

Lemma live_replace_nth ev f r r' : forall rs i,
  nth_error rs i = Some r ->
  (live ev f (replace_nth i r' rs) + (if is_live ev f r then 1 else 0) =
   live ev f rs + (if is_live ev f r' then 1 else 0))%nat.
Proof.
  unfold live. induction rs as [|x rs IH]; intros [|i] H; cbn in H; try discriminate.
  - injection H as ->. cbn. destruct (is_live ev f r), (is_live ev f r'); cbn; lia.
  - specialize (IH i H). cbn. destruct (is_live ev f x); cbn; lia.
Qed.

Lemma is_live_spec ev f r :
  is_live ev f r = true <-> _cancelCallback r = Some (RemoveCallback ev f).
Proof.
  unfold is_live. destruct (_cancelCallback r) as [[ev' f']|]; [|split; discriminate].
  rewrite andb_true_iff, eventType_eqb_eq, Nat.eqb_eq. split.
  - intros [-> ->]. reflexivity.
  - intros [= -> ->]. auto.
Qed.

Lemma live_in ev f rs r :
  In r rs -> _cancelCallback r = Some (RemoveCallback ev f) -> (0 < live ev f rs)%nat.
Proof.
  intros Hin Hr. unfold live.
  assert (In r (filter (is_live ev f) rs)) as H
    by (apply filter_In; split; [exact Hin | now apply is_live_spec]).
  destruct (filter (is_live ev f) rs); [destruct H | cbn; lia].
Qed.

Section RegistrationsOnce.
Variable ToNumber : string -> option R.

(** What [on] leaves: the callback pushed at the end of its list, and a
    registration for it when [on] returns. *)
Lemma on_spec eventType callback w :
  (forall f, bodies w f = Returns) ->
  bodies (snd (on eventType callback w)) = bodies w /\
  (_callbacks (snd (on eventType callback w)) = _callbacks w /\
   is_ok (fst (on eventType callback w)) = false
   \/
   exists ev f,
     _callbacks (snd (on eventType callback w)) =
       set_callbacks_for ev (callbacks_for ev (_callbacks w) ++ [f])%list (_callbacks w) /\
     (is_ok (fst (on eventType callback w)) = true ->
      fst (on eventType callback w) = Ok {| _cancelCallback := Some (RemoveCallback ev f) |})).
Proof.
  intros Hb.
  destruct (eventType_of_string eventType) as [ev|] eqn:Hev;
    [|unfold on; rewrite Hev; cbn [fst snd throw is_ok]; auto].
  destruct callback as [| | | | | | | |f];
    try (solve [unfold on; rewrite Hev; cbn [fst snd throw is_ok]; auto]).
  set (w1 := set_callbacks
               (set_callbacks_for ev (callbacks_for ev (_callbacks w) ++ [f])%list
                                  (_callbacks w)) w).
  assert (E : exists m : M unit,
             on eventType (VFun f) w =
             bind m (fun _ => ret {| _cancelCallback := Some (RemoveCallback ev f) |}) w1 /\
             keeps steady m).
  { eexists. split.
    - unfold on. rewrite Hev. unfold bind at 1. unfold modify at 1. cbv beta iota.
      reflexivity.
    - keeps_with ltac:(first [apply call_steady | steady_leaf]). }
  destruct E as (m & -> & K). destruct (K w1 Hb) as [K1 K2].
  unfold bind. destruct (m w1) as [[[]|e] w2]; cbn [fst snd ret is_ok] in *.
  - split; [exact K2|]. right. exists ev, f. split; [exact K1 | reflexivity].
  - split; [exact K2|]. right. exists ev, f. split; [exact K1 | discriminate].
Qed.

Lemma cancel_live ev f r w :
  _cancelCallback r = Some (RemoveCallback ev f) ->
  GeoCallbackRegistration_cancel r w =
  (Ok cancelled_registration,
   set_callbacks
     (set_callbacks_for ev
        (splice1 (indexOf Nat.eqb f (callbacks_for ev (_callbacks w)))
                 (callbacks_for ev (_callbacks w)))
        (_callbacks w)) w).
Proof. intros H. unfold GeoCallbackRegistration_cancel. rewrite H. reflexivity. Qed.

Lemma cancel_cancelled r w :
  _cancelCallback r = None -> GeoCallbackRegistration_cancel r w = (Ok r, w).
Proof. intros H. unfold GeoCallbackRegistration_cancel. rewrite H. reflexivity. Qed.

Lemma registered_step op w rs :
  registered w rs ->
  registered (fst (client_step ToNumber op (w, rs))) (snd (client_step ToNumber op (w, rs))).
Proof.
  intros [Hb Hle]. destruct op as [eventType callback|i|c|e]; cbn [client_step].
  - (* on *)
    destruct (on_spec eventType callback w Hb) as [Hb' Hcases].
    destruct (on eventType callback w) as [[reg|err] w']; cbn [fst snd is_ok] in *.
    + destruct Hcases as [[_ ?]|(ev & f & Hc & Hreg)]; [discriminate|].
      specialize (Hreg eq_refl). injection Hreg as ->.
      split; [intros g; rewrite Hb'; apply Hb|].
      intros ev' f'. rewrite live_app, Hc. specialize (Hle ev' f').
      destruct (is_live ev' f' _) eqn:El.
      * apply is_live_spec in El. cbn in El. injection El as -> ->.
        rewrite callbacks_for_set_same, occurrences_app. unfold occurrences at 2. cbn.
        destruct (Nat.eq_dec f' f'); [lia | congruence].
      * destruct (eventType_eqb ev' ev) eqn:Ee.
        -- apply eventType_eqb_eq in Ee. subst ev'.
           rewrite callbacks_for_set_same, occurrences_app. lia.
        -- rewrite callbacks_for_set_other; [lia|].
           intros ->. destruct ev; discriminate.
    + split; [intros g; rewrite Hb'; apply Hb|].
      intros ev' f'. specialize (Hle ev' f').
      destruct Hcases as [[-> _]|(ev & f & -> & _)]; [exact Hle|].
      destruct (eventType_eqb ev' ev) eqn:Ee.
      * apply eventType_eqb_eq in Ee. subst ev'.
        rewrite callbacks_for_set_same, occurrences_app. lia.
      * rewrite callbacks_for_set_other; [lia|]. intros ->. destruct ev; discriminate.
  - (* a registration is cancelled *)
    destruct (nth_error rs i) as [r|] eqn:Hr; [|split; assumption].
    destruct (_cancelCallback r) as [[ev f]|] eqn:Hc.
    + rewrite (cancel_live ev f r w Hc). cbn [fst snd].
      split; [exact Hb|]. intros ev' f'.
      pose proof (live_replace_nth ev' f' r cancelled_registration rs i Hr) as Hl.
      cbn [_callbacks set_callbacks] in *.
      assert (Hin : In f (callbacks_for ev (_callbacks w))).
      { apply occurrences_in. pose proof (Hle ev f).
        pose proof (live_in ev f rs r (nth_error_In _ _ Hr) Hc). lia. }
      destruct (splice1_indexOf_in f _ Hin) as (l1 & l2 & Heq & Hn & Hs).
      rewrite Hs. specialize (Hle ev' f'). unfold is_live at 2 in Hl. cbn in Hl.
      destruct (is_live ev' f' r) eqn:El.
      * apply is_live_spec in El. rewrite Hc in El. injection El as -> ->.
        rewrite callbacks_for_set_same. rewrite Heq in Hle.
        rewrite occurrences_app in *. unfold occurrences in *.
        cbn in Hle. destruct (Nat.eq_dec _ _); [lia | congruence].
      * destruct (eventType_eqb ev' ev) eqn:Ee.
        -- apply eventType_eqb_eq in Ee. subst ev'.
           rewrite callbacks_for_set_same. rewrite Heq in Hle.
           rewrite occurrences_app in *. unfold occurrences in *.
           cbn in Hle. destruct (Nat.eq_dec f f'); [|lia].
           subst f'. exfalso. assert (is_live ev f r = true) by now apply is_live_spec.
           congruence.
        -- rewrite callbacks_for_set_other; [lia|]. intros ->. destruct ev; discriminate.
    + rewrite (cancel_cancelled r w Hc). cbn [fst snd]. split; [exact Hb|].
      intros ev' f'. pose proof (live_replace_nth ev' f' r r rs i Hr). specialize (Hle ev' f').
      lia.
  - (* the criteria are updated *)
    destruct (updateCriteria_steady c w Hb) as [Hc' Hb']. cbn [fst snd].
    split; [intros g; rewrite Hb'; apply Hb|]. intros ev f. rewrite Hc'. apply Hle.
  - (* the event loop *)
    destruct (turn_steady ToNumber e w Hb) as [Hc' Hb']. cbn [fst snd].
    split; [intros g; rewrite Hb'; apply Hb|]. intros ev f. rewrite Hc'. apply Hle.
Qed.

Lemma registered_run ops : forall w rs,
  registered w rs ->
  registered (fst (client_run ToNumber ops (w, rs))) (snd (client_run ToNumber ops (w, rs))).
Proof.
  induction ops as [|op ops IH]; intros w rs H; [exact H|].
  cbn [client_run fold_left]. pose proof (registered_step op w rs H) as H1.
  destruct (client_step ToNumber op (w, rs)) as [w1 rs1]. apply IH. exact H1.
Qed.

(** Claim C10, amended.  For a query whose callbacks do not cancel it, and
    any registration the client holds after any sequence of [on],
    registration cancels, criteria updates and turns of the event loop:
    the call of [cancel()] on a registration not yet cancelled removes
    the first instance of its callback from the list of its event and
    nothing else; on a cancelled one it changes nothing; and every later
    call on the registration it leaves is a no-op. *)
Theorem registration_cancel_once (ops : list ClientOp) (w0 : World) :
  (forall f, bodies w0 f = Returns) ->
  let w := fst (client_run ToNumber ops (init_fields w0, [])) in
  let registrations := snd (client_run ToNumber ops (init_fields w0, [])) in
  forall i registration, nth_error registrations i = Some registration ->
    let w1 := snd (GeoCallbackRegistration_cancel registration w) in
    exists registration1,
      fst (GeoCallbackRegistration_cancel registration w) = Ok registration1 /\
      match _cancelCallback registration with
      | Some (RemoveCallback ev f) =>
          exists l1 l2,
            callbacks_for ev (_callbacks w) = (l1 ++ f :: l2)%list /\ ~ In f l1 /\
            callbacks_for ev (_callbacks w1) = (l1 ++ l2)%list /\
            forall ev', ev' <> ev ->
              callbacks_for ev' (_callbacks w1) = callbacks_for ev' (_callbacks w)
      | None => w1 = w
      end /\
      forall w2, GeoCallbackRegistration_cancel registration1 w2 = (Ok registration1, w2).
Proof.
  intros Hb w registrations i registration Hnth w1.
  assert (Hreg : registered w registrations).
  { apply registered_run. split; [exact Hb|]. intros ev f. cbn. lia. }
  destruct Hreg as [Hb' Hle]. subst w1.
  destruct (_cancelCallback registration) as [[ev f]|] eqn:Hc.
  - rewrite (cancel_live ev f registration w Hc). cbn [fst snd].
    exists cancelled_registration. split; [reflexivity|]. split.
    + assert (Hin : In f (callbacks_for ev (_callbacks w))).
      { apply occurrences_in. pose proof (Hle ev f).
        pose proof (live_in ev f registrations registration (nth_error_In _ _ Hnth) Hc). lia. }
      destruct (splice1_indexOf_in f _ Hin) as (l1 & l2 & Heq & Hn & Hs).
      exists l1, l2. cbn [_callbacks set_callbacks]. rewrite Hs, callbacks_for_set_same.
      repeat split; auto. intros ev' Hne. now apply callbacks_for_set_other.
    + intros w2. now apply cancel_cancelled.
  - rewrite (cancel_cancelled registration w Hc). cbn [fst snd].
    exists registration. split; [reflexivity|]. split; [reflexivity|].
    intros w2. now apply cancel_cancelled.
Qed.
End RegistrationsOnce.

(** ** Bounds of the real functions *)

Section RealBounds.
Local Open Scope R_scope.

Lemma PI_bounds : 31415 / 10000 < PI < 31416 / 10000.
Proof.
pose proof (PI_2_3_7_ineq 2) as H.
unfold sum_f_R0, tg_alt, PI_2_3_7_tg, Ratan_seq in H.
simpl in H. lra.
Qed.

Lemma sin_bounds x : 0 <= x <= 1 -> x - x * x * x / 6 <= sin x <= x.
Proof.
intros [H0 H1]. pose proof PI_bounds as HP. split.
- destruct (sin_bound x 0 H0 ltac:(lra)) as [H _].
  unfold sin_approx, sum_f_R0, sin_term in H. simpl in H. lra.
- destruct (Req_dec x 0) as [->|Hx]; [rewrite sin_0; lra|].
  left. apply sin_lt_x. lra.
Qed.

Lemma cos_bounds x : -1 <= x <= 1 -> 1 - x * x / 2 <= cos x <= 1.
Proof.
intros [H0 H1]. pose proof PI_bounds as HP. split.
- destruct (cos_bound x 0 ltac:(lra) ltac:(lra)) as [H _].
  unfold cos_approx, sum_f_R0, cos_term in H. simpl in H. lra.
- apply COS_bound.
Qed.

Lemma sin_sqr_bounds u :
-1 <= u <= 1 -> u * u - u * u * u * u / 3 <= sin u * sin u <= u * u.
Proof.
intros [H0 H1]. destruct (Rle_dec 0 u) as [Hu|Hu].
- destruct (sin_bounds u ltac:(lra)) as [Hl Hh].
  assert (0 <= u - u * u * u / 6) by nra. nra.
- assert (Hu' : 0 <= - u <= 1) by lra.
  destruct (sin_bounds (- u) Hu') as [Hl Hh]. rewrite sin_neg in *.
  assert (0 <= - u - - u * - u * - u / 6) by nra. nra.
Qed.

Lemma atan_le x y : x <= y -> atan x <= atan y.
Proof.
intros [H| ->]; [left; now apply atan_increasing | right; reflexivity].
Qed.

Lemma atan_tan_small theta : 0 <= theta <= 1 -> atan (tan theta) = theta.
Proof.
intros H. pose proof PI_bounds. apply atan_tan. split; lra.
Qed.

Lemma tan_bounds theta :
0 <= theta <= 1 ->
theta - theta * theta * theta / 6 <= tan theta <= theta / (1 - theta * theta / 2).
Proof.
intros H. destruct (sin_bounds theta H) as [Hs1 Hs2].
destruct (cos_bounds theta ltac:(lra)) as [Hc1 Hc2].
assert (Hpos : 0 < 1 - theta * theta / 2) by nra.
assert (Hcos : 0 < cos theta) by lra.
assert (Hsin : 0 <= sin theta) by nra.
unfold tan. split.
- apply Rle_trans with (sin theta); [exact Hs1|].
  apply Rmult_le_reg_r with (cos theta); [exact Hcos|].
  unfold Rdiv. rewrite Rmult_assoc, Rinv_l by lra. nra.
- apply Rmult_le_reg_r with (cos theta); [exact Hcos|].
  unfold Rdiv at 1. rewrite Rmult_assoc, Rinv_l by lra. rewrite Rmult_1_r.
  apply Rle_trans with (theta / (1 - theta * theta / 2) * (1 - theta * theta / 2)).
  + unfold Rdiv. rewrite Rmult_assoc, Rinv_l by lra. lra.
  + apply Rmult_le_compat_l; [|exact Hc1].
    apply Rmult_le_pos; [lra|]. left. now apply Rinv_0_lt_compat.
Qed.

Lemma atan_lower theta t :
0 <= theta <= 1 -> theta / (1 - theta * theta / 2) <= t -> theta <= atan t.
Proof.
intros H Ht. rewrite <- (atan_tan_small theta H). apply atan_le.
destruct (tan_bounds theta H). lra.
Qed.

Lemma atan_upper theta t :
0 <= theta <= 1 -> t <= theta - theta * theta * theta / 6 -> atan t <= theta.
Proof.
intros H Ht. rewrite <- (atan_tan_small theta H). apply atan_le.
destruct (tan_bounds theta H). lra.
Qed.

(** The angle of the haversine formula, from bounds on [a]. *)
Lemma haversine_angle_bounds a alo ahi slo shi tlo thi :
alo <= a <= ahi -> 0 < alo -> ahi < 1 ->
0 <= slo -> slo * slo <= alo ->
0 <= shi -> ahi <= shi * shi ->
0 <= tlo <= 1 -> tlo / (1 - tlo * tlo / 2) <= slo ->
0 <= thi <= 1 -> shi / (1 - ahi) <= thi - thi * thi * thi / 6 ->
2 * tlo <= 2 * atan2 (sqrt a) (sqrt (1 - a)) <= 2 * thi.
Proof.
intros [Ha1 Ha2] Halo Hahi Hslo Hslo2 Hshi Hshi2 Htlo Htlo2 Hthi Hthi2.
assert (Hsa : 0 < sqrt a) by (apply sqrt_lt_R0; lra).
assert (Hs1 : 0 < sqrt (1 - a)) by (apply sqrt_lt_R0; lra).
unfold atan2. rewrite Rltb_true by exact Hs1.
assert (Hlo : slo <= sqrt a).
{ rewrite <- (sqrt_square slo Hslo). apply sqrt_le_1_alt. lra. }
assert (Hhi : sqrt a <= shi).
{ rewrite <- (sqrt_square shi Hshi). apply sqrt_le_1_alt. lra. }
assert (H1a : 1 - ahi <= sqrt (1 - a)).
{ apply Rle_trans with (1 - a); [lra|].
  assert (0 <= sqrt (1 - a) <= 1).
  { split; [lra|].
    apply Rle_trans with (sqrt 1); [apply sqrt_le_1_alt; lra | rewrite sqrt_1; lra]. }
  pose proof (sqrt_sqrt (1 - a) ltac:(lra)).
  assert (0 <= sqrt (1 - a) * (1 - sqrt (1 - a))) by (apply Rmult_le_pos; lra). lra. }
assert (Hs1' : sqrt (1 - a) <= 1).
{ apply Rle_trans with (sqrt 1); [apply sqrt_le_1_alt; lra | rewrite sqrt_1; lra]. }
assert (Hq1 : sqrt a <= sqrt a / sqrt (1 - a)).
{ apply Rmult_le_reg_r with (sqrt (1 - a)); [exact Hs1|].
  unfold Rdiv. rewrite Rmult_assoc, Rinv_l by lra. nra. }
assert (Hq2 : sqrt a / sqrt (1 - a) <= shi / (1 - ahi)).
{ apply Rmult_le_reg_r with (sqrt (1 - a)); [exact Hs1|].
  unfold Rdiv at 1. rewrite Rmult_assoc, Rinv_l by lra. rewrite Rmult_1_r.
  apply Rle_trans with (shi / (1 - ahi) * (1 - ahi)).
  - unfold Rdiv. rewrite Rmult_assoc, Rinv_l by lra. lra.
  - apply Rmult_le_compat_l; [|exact H1a].
    apply Rmult_le_pos; [lra|]. left. apply Rinv_0_lt_compat. lra. }
split.
- assert (tlo <= atan (sqrt a / sqrt (1 - a))) by (apply atan_lower; [exact Htlo | lra]). lra.
- assert (atan (sqrt a / sqrt (1 - a)) <= thi) by (apply atan_upper; [exact Hthi | lra]). lra.
Qed.

Lemma distance_from_origin lat lon :
-90 <= lat <= 90 -> -180 <= lon <= 180 ->
distance (loc lat lon) (loc 0 0) =
Ok (6371 * (2 * atan2 (sqrt (haversine_a lat lon)) (sqrt (1 - haversine_a lat lon)))).
Proof.
intros Hlat Hlon. unfold distance.
rewrite (validateLocation_ok lat lon Hlat Hlon), (validateLocation_ok 0 0) by lra.
reflexivity.
Qed.

Lemma cos_degrees_0 : cos (degreesToRadians 0) = 1.
Proof. unfold degreesToRadians. replace (0 * PI / 180) with 0 by lra. apply cos_0. Qed.

Lemma distance_A_first :
exists d, distance (loc 0 (5 / 1000)) (loc 0 0) = Ok d /\ 555 / 1000 < d < 557 / 1000.
Proof.
eexists. split; [apply distance_from_origin; lra|].
pose proof PI_bounds as HP.
set (a := haversine_a 0 (5 / 1000)).
assert (Ha : 190370 / 100000000000000 <= a <= 190390 / 100000000000000).
{ unfold a, haversine_a. rewrite cos_degrees_0.
  replace (degreesToRadians (0 - 0) / 2) with 0 by (unfold degreesToRadians; lra).
  rewrite sin_0.
  set (u := degreesToRadians (0 - 5 / 1000) / 2).
  assert (Hu : - (436334 / 10000000000) <= u <= - (436319 / 10000000000))
    by (unfold u, degreesToRadians; lra).
  destruct (sin_sqr_bounds u ltac:(lra)) as [Hl Hh].
  assert (u * u <= 190390 / 100000000000000) by nra.
  assert (190374 / 100000000000000 <= u * u) by nra.
  assert (u * u * u * u <= 1 / 100000000000000) by nra.
  lra. }
pose proof (haversine_angle_bounds a _ _
              (43630 / 1000000000) (43634 / 1000000000)
              (43600 / 1000000000) (43700 / 1000000000) Ha) as H.
destruct H as [H1 H2]; try lra. all: try nra.
Qed.

Lemma distance_A_second :
exists d, distance (loc (2 / 100) (2 / 100)) (loc 0 0) = Ok d /\ 314 / 100 < d < 315 / 100.
Proof.
eexists. split; [apply distance_from_origin; lra|].
pose proof PI_bounds as HP.
set (a := haversine_a (2 / 100) (2 / 100)).
assert (Ha : 609190 / 10000000000000 <= a <= 609240 / 10000000000000).
{ unfold a, haversine_a. rewrite cos_degrees_0.
  replace (degreesToRadians (0 - 2 / 100) / 2) with (- (2 / 100 * PI / 360))
    by (unfold degreesToRadians; lra).
  set (u := - (2 / 100 * PI / 360)).
  assert (Hu : - (1745334 / 10000000000) <= u <= - (1745277 / 10000000000))
    by (unfold u; lra).
  set (z := degreesToRadians (2 / 100)).
  assert (Hz : 0 <= z <= 35 / 100000) by (unfold z, degreesToRadians; lra).
  destruct (sin_sqr_bounds u ltac:(lra)) as [Hl Hh].
  destruct (cos_bounds z ltac:(lra)) as [Hc1 Hc2].
  assert (u * u <= 304620 / 10000000000000) by nra.
  assert (304599 / 10000000000000 <= u * u) by nra.
  assert (u * u * u * u <= 1 / 1000000000000000) by nra.
  assert (z * z <= 13 / 100000000) by nra.
  assert (HS : 0 <= sin u * sin u) by nra.
  assert (cos z * (sin u * sin u) <= sin u * sin u) by nra.
  assert ((1 - 65 / 1000000000) * (sin u * sin u) <= cos z * (sin u * sin u)) by nra.
  lra. }
pose proof (haversine_angle_bounds a _ _
              (24681 / 100000000) (24684 / 100000000)
              (24670 / 100000000) (24700 / 100000000) Ha) as H.
destruct H as [H1 H2]; try lra. all: try nra.
Qed.

End RealBounds.

(** ** A key enters and moves *)

(** *** encodeGeohash returns *)

Lemma ToInt32_small x : - 2147483648 <= x < 2147483648 -> ToInt32 x = x.
Proof.
  intros H. unfold ToInt32. change (2 ^ 31) with 2147483648.
  change (2 ^ 32) with 4294967296. rewrite Z.mod_small; lia.
Qed.

Lemma js_shl_1 h : 0 <= h < 1073741824 -> js_shl h 1 = 2 * h.
Proof.
  intros H. unfold js_shl. change (shift_count 1) with 1.
  rewrite (ToInt32_small h) by lia. rewrite Z.shiftl_mul_pow2 by lia.
  change (2 ^ 1) with 2. rewrite ToInt32_small; lia.
Qed.

Lemma append_index_length s i :
  0 <= i < 32 -> String.length (JsString.append_index s g_BASE32 i) = S (String.length s).
Proof.
  intros H. unfold JsString.append_index.
  destruct (i <? 0) eqn:E; [apply Z.ltb_lt in E; lia|].
  assert (Hi : (Z.to_nat i < 32)%nat) by lia.
  destruct (String.get (Z.to_nat i) g_BASE32) as [c|] eqn:G.
  - clear. induction s; cbn; auto.
  - exfalso. revert G. generalize (Z.to_nat i) Hi. intros n Hn.
    do 32 (destruct n as [|n]; [discriminate|]). lia.
Qed.

Lemma encode_step_inv location st :
  encode_inv st ->
  encode_inv (encode_step location st) /\
  JsString.len (hash (encode_step location st)) * 5 + bits (encode_step location st) =
  JsString.len (hash st) * 5 + bits st + 1.
Proof.
  intros [Hb Hv]. unfold encode_step.
  assert (Hpow : 2 ^ bits st <= 16) by (apply (Z.pow_le_mono_r 2 (bits st) 4); lia).
  assert (Hh : 0 <= hashVal st < 16)
    by (split; [apply Hv | eapply Z.lt_le_trans; [apply Hv | exact Hpow]]).
  rewrite js_shl_1 by (clear - Hh; lia).
  set (b := if Rltb _ _ then 1 else 0).
  assert (Hbit : 0 <= b <= 1) by (unfold b; destruct (Rltb _ _); lia).
  unfold encode_inv. destruct (bits st <? 4) eqn:E; cbn [bits hashVal hash].
  - apply Z.ltb_lt in E. split; [|lia]. split; [lia|].
    replace (bits st + 1) with (Z.succ (bits st)) by lia. rewrite Z.pow_succ_r by lia. lia.
  - apply Z.ltb_ge in E. assert (bits st = 4) as Hb4 by lia. rewrite Hb4 in *.
    split; [split; cbn; lia|]. unfold JsString.len.
    rewrite append_index_length by (change (2 ^ 4) with 16 in Hv; lia). lia.
Qed.

Lemma encode_loop_returns location precision : forall fuel st,
  encode_inv st ->
  JsString.len (hash st) * 5 + bits st + Z.of_nat fuel = 5 * precision ->
  exists h, encode_loop fuel location precision st = Some h.
Proof.
  induction fuel as [|fuel IH]; intros st Hinv Hm; cbn [encode_loop].
  - destruct Hinv as [Hb _]. destruct (JsString.len (hash st) <? precision) eqn:E.
    + apply Z.ltb_lt in E. lia.
    + eauto.
  - destruct (encode_step_inv location st Hinv) as [Hinv' Hm'].
    destruct Hinv as [Hb _].
    destruct (JsString.len (hash st) <? precision) eqn:E; [|apply Z.ltb_ge in E; lia].
    apply IH; [exact Hinv' | lia].
Qed.

Lemma encodeGeohash_returns location precision :
  validateLocation location = Ok tt -> 1 <= precision <= 22 ->
  exists h, encodeGeohash location precision = Ok h.
Proof.
  intros Hv Hp. unfold encodeGeohash. rewrite Hv. cbn [bind_result].
  destruct (precision <=? 0) eqn:E1; [apply Z.leb_le in E1; lia|].
  destruct (precision >? 22) eqn:E2; [apply Z.gtb_lt in E2; lia|].
  destruct (encode_loop_returns (coords location) precision
              (Z.to_nat (g_BITS_PER_CHAR * precision)) encode_init) as [h ->].
  - split; cbn; lia.
  - change (JsString.len (hash encode_init)) with 0. change (bits encode_init) with 0.
    unfold g_BITS_PER_CHAR. lia.
  - eauto.
Qed.

(** *** Reading what was written *)

Lemma get_replace {V} k (v : V) d : Dict.has k d = true -> Dict.get k (Dict.replace k v d) = Some v.
Proof.
  unfold Dict.has, Dict.get. induction d as [|[k' v'] d IH]; cbn; [discriminate|].
  destruct (String.eqb k k') eqn:E; cbn; rewrite E; auto.
Qed.

Lemma get_insert_index {V} n k (v : V) d :
  Dict.get k d = None -> Dict.get k (Dict.insert_index n k v d) = Some v.
Proof.
  unfold Dict.get. induction d as [|[k' v'] d IH]; cbn.
  - now rewrite String.eqb_refl.
  - destruct (String.eqb k k') eqn:E; [discriminate|]. intros H.
    destruct (Dict.array_index k') as [n'|]; [destruct (n' <? n)%N|]; cbn;
      rewrite ?E, ?String.eqb_refl; auto.
Qed.

Lemma get_append {V} k (v : V) d :
  Dict.get k d = None -> Dict.get k (d ++ [(k, v)])%list = Some v.
Proof.
  unfold Dict.get. induction d as [|[k' v'] d IH]; cbn.
  - now rewrite String.eqb_refl.
  - destruct (String.eqb k k'); [discriminate | auto].
Qed.

Lemma get_set_same {V} k (v : V) d : Dict.get k (Dict.set k v d) = Some v.
Proof.
  unfold Dict.set. destruct (Dict.has k d) eqn:E; [now apply get_replace|].
  assert (Dict.get k d = None) by (unfold Dict.has in E; destruct (Dict.get k d); congruence).
  destruct (Dict.array_index k); [now apply get_insert_index | now apply get_append].
Qed.

(** *** An event, when no callback cancels the query *)

Lemma forEach_call_returns (mk : nat -> Call) fs : forall w,
  (forall f, bodies w f = Returns) ->
  forEach (fun f => call f (mk f)) fs w = (Ok tt, set_calls (calls w ++ map mk fs) w).
Proof.
  induction fs as [|f fs IH]; intros w Hb; cbn [forEach map].
  - rewrite app_nil_r. destruct w; reflexivity.
  - unfold bind at 1. unfold call at 1. unfold bind, modify, gets. cbn [bodies set_calls].
    rewrite Hb. cbn [ret]. rewrite IH by exact Hb. cbn [calls set_calls].
    rewrite <- app_assoc. reflexivity.
Qed.

Lemma fire_returns ev key lat lon d doc w :
  (forall f, bodies w f = Returns) ->
  is_undefined doc = false ->
  _fireCallbacksForKey ev key (loc lat lon) d doc w =
  (Ok tt, set_calls (calls w ++ map (key_call ev key (loc lat lon) d doc)
                                    (callbacks_for ev (_callbacks w))) w).
Proof.
  intros Hb Hdoc. unfold _fireCallbacksForKey, bind, gets. rewrite Hdoc.
  unfold loc. apply (forEach_call_returns (key_call ev key (VArr [VNum lat; VNum lon]) d doc)).
  exact Hb.
Qed.

Section UpdateLocation.

Lemma updateLocation_eval key lat lon doc w c r d g :
  validateLocation (loc lat lon) = Ok tt ->
  is_undefined doc = false ->
  _center w = c ->
  distance (loc lat lon) c = Ok d ->
  _radius w = VNum r ->
  encodeGeohash (loc lat lon) g_GEOHASH_PRECISION = Ok g ->
  _updateLocation key (loc lat lon) doc w =
  let old := Dict.get key (_locationsTracked w) in
  let wasInQuery := match old with Some e => isInQuery e | None => false end in
  let w' := set_locationsTracked
              (Dict.set key {| location := loc lat lon; document := doc;
                               distanceFromCenter := d; isInQuery := Rleb d r;
                               geohash := g |} (_locationsTracked w)) w in
  (if Rleb d r && negb wasInQuery then
     _fireCallbacksForKey KeyEntered key (loc lat lon) (VNum d) doc
   else if Rleb d r &&
           match old with
           | Some e => negb (Reqb lat (fst (coords (location e)))) ||
                       negb (Reqb lon (snd (coords (location e))))
           | None => false
           end then
     _fireCallbacksForKey KeyMoved key (loc lat lon) (VNum d) doc
   else if negb (Rleb d r) && wasInQuery then
     _fireCallbacksForKey KeyExited key (loc lat lon) (VNum d) doc
   else ret tt) w'.
Proof.
  intros Hv Hdoc Hc Hd Hr Hg.
  unfold _updateLocation, bind, lift, gets, set_tracked, modify.
  rewrite Hdoc, Hv, Hc, Hd, Hr, Hg. cbn [le_radius].
  destruct (Dict.get key (_locationsTracked w)) as [[l ? ? ? ?]|]; reflexivity.
Qed.

Lemma scenario_A (w : World) (doc : jsval) (r : R) :
  _center w = loc 0 0 ->
  _radius w = VNum r ->
  (557 / 1000 <= r)%R ->
  Dict.get "A" (_locationsTracked w) = None ->
  (forall f, bodies w f = Returns) ->
  is_undefined doc = false ->
  let w1 := snd (_updateLocation "A" (loc 0 (5 / 1000)) doc w) in
  let w2 := snd (_updateLocation "A" (loc (2 / 100) (2 / 100)) doc w1) in
  exists d1 d2 : R,
    (555 / 1000 < d1 < 557 / 1000)%R /\ (314 / 100 < d2 < 315 / 100)%R /\
    calls w1 = (calls w ++ map (key_call KeyEntered "A" (loc 0 (5 / 1000)) (VNum d1) doc)
                               (key_entered (_callbacks w)))%list /\
    calls w2 = (calls w1 ++
                map (key_call (if Rleb d2 r then KeyMoved else KeyExited) "A"
                              (loc (2 / 100) (2 / 100)) (VNum d2) doc)
                    (callbacks_for (if Rleb d2 r then KeyMoved else KeyExited)
                                   (_callbacks w)))%list.
Proof.
  intros Hc Hr Hrad Hget Hb Hdoc w1 w2.
  destruct distance_A_first as (d1 & Hd1 & Hb1).
  destruct distance_A_second as (d2 & Hd2 & Hb2).
  assert (Hv1 : validateLocation (loc 0 (5 / 1000)) = Ok tt)
    by (apply validateLocation_ok; lra).
  assert (Hv2 : validateLocation (loc (2 / 100) (2 / 100)) = Ok tt)
    by (apply validateLocation_ok; lra).
  destruct (encodeGeohash_returns _ g_GEOHASH_PRECISION Hv1) as [g1 Hg1];
    [unfold g_GEOHASH_PRECISION; lia|].
  destruct (encodeGeohash_returns _ g_GEOHASH_PRECISION Hv2) as [g2 Hg2];
    [unfold g_GEOHASH_PRECISION; lia|].
  exists d1, d2. split; [exact Hb1|]. split; [exact Hb2|].
  (* the first update *)
  assert (E1 : _updateLocation "A" (loc 0 (5 / 1000)) doc w =
               (Ok tt,
                set_calls (calls w ++ map (key_call KeyEntered "A" (loc 0 (5 / 1000))
                                                    (VNum d1) doc)
                                          (key_entered (_callbacks w)))%list
                  (set_locationsTracked
                     (Dict.set "A" {| location := loc 0 (5 / 1000); document := doc;
                                      distanceFromCenter := d1; isInQuery := true;
                                      geohash := g1 |} (_locationsTracked w)) w))).
  { rewrite (updateLocation_eval "A" _ _ doc w (loc 0 0) r d1 g1 Hv1 Hdoc Hc Hd1 Hr Hg1).
    cbv zeta. rewrite Hget. rewrite (Rleb_true d1 r) by lra. cbn [andb negb].
    rewrite fire_returns by assumption. reflexivity. }
  subst w2 w1. rewrite E1. cbn [snd]. split; [reflexivity|].
  set (w1 := set_calls _ _).
  rewrite (updateLocation_eval "A" _ _ doc w1 (loc 0 0) r d2 g2 Hv2 Hdoc Hc Hd2 Hr Hg2).
  cbv zeta. unfold w1 at 1 2 3. cbn [_locationsTracked set_calls set_locationsTracked].
  rewrite get_set_same. cbn [isInQuery location coords loc fst snd negb andb].
  rewrite (Reqb_false (2 / 100) 0) by lra. cbn [negb orb].
  destruct (Rleb d2 r); cbn [andb negb].
  - rewrite fire_returns by (try assumption; exact Hb). reflexivity.
  - rewrite fire_returns by (try assumption; exact Hb). reflexivity.
Qed.

(** Claim C2, amended.  Center [(0, 0)] and a radius [r], which the code
    compares with the distance in kilometres.  The first location
    [(0, 0.005)] of [A] calls every [key_entered] callback once, with a
    distance between 0.555 and 0.557 (for [r >= 0.557]).  The update to
    [(0.02, 0.02)], at a distance between 3.14 and 3.15, calls every
    [key_moved] callback once when [r >= 3.15], as for the radius [1000],
    and every [key_exited] callback once when [r <= 3.14], as for the
    radius [1]; no other callback is called. *)
Theorem key_A_enters_then_moves_or_exits (w : World) (doc : jsval) (r : R) :
  _center w = loc 0 0 ->
  _radius w = VNum r ->
  (557 / 1000 <= r)%R ->
  Dict.get "A" (_locationsTracked w) = None ->
  (forall f, bodies w f = Returns) ->
  is_undefined doc = false ->
  let w1 := snd (_updateLocation "A" (loc 0 (5 / 1000)) doc w) in
  let w2 := snd (_updateLocation "A" (loc (2 / 100) (2 / 100)) doc w1) in
  exists d1 d2 : R,
    (555 / 1000 < d1 < 557 / 1000)%R /\ (314 / 100 < d2 < 315 / 100)%R /\
    calls w1 = (calls w ++ map (key_call KeyEntered "A" (loc 0 (5 / 1000)) (VNum d1) doc)
                               (key_entered (_callbacks w)))%list /\
    ((315 / 100 <= r)%R ->
     calls w2 = (calls w1 ++
                 map (key_call KeyMoved "A" (loc (2 / 100) (2 / 100)) (VNum d2) doc)
                     (key_moved (_callbacks w)))%list) /\
    ((r <= 314 / 100)%R ->
     calls w2 = (calls w1 ++
                 map (key_call KeyExited "A" (loc (2 / 100) (2 / 100)) (VNum d2) doc)
                     (key_exited (_callbacks w)))%list).
Proof.
  intros Hc Hr Hrad Hget Hb Hdoc.
  destruct (scenario_A w doc r Hc Hr Hrad Hget Hb Hdoc)
    as (d1 & d2 & H1 & H2 & E1 & E2).
  exists d1, d2. repeat split; try tauto.
  - intros Hbig. rewrite (Rleb_true d2 r) in E2 by lra. exact E2.
  - intros Hsmall. rewrite (Rleb_false d2 r) in E2 by lra. exact E2.
Qed.

(** Claim C2 as stated fails: the update to [(0.02, 0.02)] is a move, and
    the [key_exited] callback is not called. *)
Lemma key_A_update_is_not_an_exit :
  let w1 := snd (_updateLocation "A" (loc 0 (5 / 1000)) VNull world_A) in
  let w2 := snd (_updateLocation "A" (loc (2 / 100) (2 / 100)) VNull w1) in
  (exists d1 d2 : R,
     calls w2 = [CallKey 1 KeyEntered "A" (loc 0 (5 / 1000)) (VNum d1) VNull;
                 CallKey 3 KeyMoved "A" (loc (2 / 100) (2 / 100)) (VNum d2) VNull]) /\
  forall f l d doc, ~ In (CallKey f KeyExited "A" l d doc) (calls w2).
Proof.
  destruct (scenario_A world_A VNull 1000 eq_refl eq_refl ltac:(lra) eq_refl
              (fun _ => eq_refl) eq_refl) as (d1 & d2 & H1 & H2 & E1 & E2).
  rewrite (Rleb_true d2 1000) in E2 by lra. cbv zeta. rewrite E2, E1.
  split.
  - exists d1, d2. reflexivity.
  - intros f l d doc [H|[H|[]]]; discriminate.
Qed.
End UpdateLocation.

(** ** The coverage of a circle *)

Lemma Q2R_mid a b : Q2R (Qred ((a + b) / 2)) = ((Q2R a + Q2R b) / 2)%R.
Proof.
  rewrite (Qeq_eqR _ _ (Qred_correct _)).
  unfold Qdiv. rewrite Q2R_mult, Q2R_plus, Q2R_inv by discriminate.
  replace (Q2R 2) with 2%R by (unfold Q2R; cbn; lra). reflexivity.
Qed.

Lemma shadow_step_sound lat lon qlat qlon st sq sq' :
  shadows st sq -> within lat qlat -> within lon qlon ->
  shadow_step qlat qlon sq = Some sq' ->
  shadows (encode_step (lat, lon) st) sq'.
Proof.
  intros (Hlat & Hlon & Hh & Hv & Hb & He) Wlat Wlon.
  unfold shadow_step, encode_step. rewrite Hlat, Hlon, Hh, Hv, Hb, He. cbn [fst snd].
  set (val := if s_even sq then lon else lat).
  set (qval := if s_even sq then qlon else qlat).
  assert (Wval : within val qval) by (unfold val, qval; destruct (s_even sq); assumption).
  set (qrange := if s_even sq then s_longitudeRange sq else s_latitudeRange sq).
  replace (if s_even sq then range_of (s_longitudeRange sq) else range_of (s_latitudeRange sq))
    with (range_of qrange) by (unfold qrange; destruct (s_even sq); reflexivity).
  cbn [min max range_of].
  rewrite <- Q2R_mid.
  set (qmid := Qred ((fst qrange + snd qrange) / 2)).
  destruct Wval as [Wlo Whi].
  destruct (Qle_bool qmid (fst qval)) eqn:E1.
  - apply Qle_bool_iff, Qle_Rle in E1.
    rewrite (Rltb_true (Q2R qmid) val) by lra.
    intros [= <-].
    destruct (s_bits sq <? 4), (s_even sq); repeat split.
  - destruct (Qle_bool (snd qval) qmid) eqn:E2; [|discriminate].
    apply Qle_bool_iff, Qle_Rle in E2.
    rewrite (Rltb_false (Q2R qmid) val) by lra.
    intros [= <-].
    destruct (s_bits sq <? 4), (s_even sq); repeat split.
Qed.

Lemma shadow_loop_sound lat lon qlat qlon precision h :
  within lat qlat -> within lon qlon ->
  forall fuel st sq,
    shadows st sq ->
    shadow_loop fuel qlat qlon precision sq = Some h ->
    encode_loop fuel (lat, lon) precision st = Some h.
Proof.
  intros Wlat Wlon. induction fuel as [|fuel IH]; intros st sq Hs;
    cbn [shadow_loop encode_loop];
    pose proof Hs as (_ & _ & Hh & _); rewrite Hh.
  - destruct (JsString.len (s_hash sq) <? precision); [discriminate | auto].
  - destruct (JsString.len (s_hash sq) <? precision); [|auto].
    destruct (shadow_step qlat qlon sq) as [sq'|] eqn:E; [|discriminate].
    apply IH. exact (shadow_step_sound lat lon qlat qlon st sq sq' Hs Wlat Wlon E).
Qed.

Lemma encodeGeohash_shadow lat lon qlat qlon precision h :
  (-90 <= lat <= 90)%R -> (-180 <= lon <= 180)%R ->
  within lat qlat -> within lon qlon ->
  (0 <? precision) && (precision <=? 22) = true ->
  shadow_encode qlat qlon precision = Some h ->
  encodeGeohash (loc lat lon) precision = Ok h.
Proof.
  intros Hlat Hlon Wlat Wlon Hp Hs. unfold encodeGeohash.
  rewrite validateLocation_ok by assumption. cbn [bind_result].
  apply andb_prop in Hp as [Hp1 Hp2]. apply Z.ltb_lt in Hp1. apply Z.leb_le in Hp2.
  destruct (precision <=? 0) eqn:E1; [apply Z.leb_le in E1; lia|].
  destruct (precision >? 22) eqn:E2; [apply Z.gtb_lt in E2; lia|].
  cbn [coords loc].
  rewrite (shadow_loop_sound lat lon qlat qlon precision h Wlat Wlon _ encode_init shadow_init);
    [reflexivity | | exact Hs].
  repeat split; unfold range_of; cbn; f_equal; unfold Q2R; cbn; lra.
Qed.

Example encode_p_6 : encodeGeohash (loc (8 / 1000) 0) 6 = Ok "ebpbpc".
Proof.
  apply (encodeGeohash_shadow _ _ ((7#1000)%Q, (8#1000)%Q) ((-1#1000000000)%Q, 0%Q)); try lra.
  - unfold within, Q2R; cbn; lra.
  - unfold within, Q2R; cbn; lra.
  - reflexivity.
  - vm_compute. reflexivity.
Qed.

Section BoundingBox.
Local Open Scope R_scope.

Lemma ln_2_pos : 0 < ln 2.
Proof. rewrite <- ln_1. apply ln_increasing; lra. Qed.

(** [Math.floor(Math.log2(x))] from the powers of two around [x]. *)
Lemma floor_log2 (k : nat) (x : R) :
2 ^ k <= x < 2 ^ (S k) -> Zfloor (log2 x) = Z.of_nat k.
Proof.
intros [Hlo Hhi]. pose proof ln_2_pos as H2.
assert (Hpow : 0 < 2 ^ k) by (apply pow_lt; lra).
apply Zfloor_eq. rewrite <- INR_IZR_INZ. unfold log2. split.
- apply Rmult_le_reg_r with (ln 2); [exact H2|].
  unfold Rdiv. rewrite Rmult_assoc, Rinv_l by lra. rewrite Rmult_1_r.
  rewrite <- ln_pow by lra.
  destruct Hlo as [Hlo|<-]; [left; apply ln_increasing; lra | right; reflexivity].
- apply Rmult_lt_reg_r with (ln 2); [exact H2|].
  unfold Rdiv. rewrite Rmult_assoc, Rinv_l by lra. rewrite Rmult_1_r.
  replace ((INR k + 1) * ln 2) with (INR (S k) * ln 2) by (rewrite S_INR; reflexivity).
  rewrite <- ln_pow by lra. apply ln_increasing; lra.
Qed.

(** The length of a degree of longitude near the equator. *)
Lemma metersToLongitudeDegrees_1220 latitude :
-2 / 100 <= latitude <= 2 / 100 ->
109593 / 10000000 <= metersToLongitudeDegrees 1220 latitude <= 109599 / 10000000.
Proof.
intros Hlat. pose proof PI_bounds as HP. unfold metersToLongitudeDegrees.
set (radians := degreesToRadians latitude).
assert (Hr : -4 / 10000 <= radians <= 4 / 10000)
  by (unfold radians, degreesToRadians; split; nra).
destruct (cos_bounds radians ltac:(lra)) as [Hc1 Hc2].
destruct (sin_sqr_bounds radians ltac:(lra)) as [Hs1 Hs2].
assert (Hrr : radians * radians <= 16 / 100000000) by nra.
assert (Hss : 0 <= sin radians * sin radians) by nra.
set (x := 1 - g_E2 * sin radians * sin radians).
assert (Hx : 1 - 2 / 1000000000 <= x <= 1).
{ unfold x, g_E2. split; nra. }
assert (Hsx : 1 - 2 / 1000000000 <= sqrt x <= 1).
{ split.
  - apply Rle_trans with x; [lra|].
    assert (0 <= sqrt x) by apply sqrt_pos.
    assert (sqrt x <= 1)
      by (apply Rle_trans with (sqrt 1); [apply sqrt_le_1_alt; lra | rewrite sqrt_1; lra]).
    pose proof (sqrt_sqrt x ltac:(lra)).
    assert (0 <= sqrt x * (1 - sqrt x)) by (apply Rmult_le_pos; lra). lra.
  - apply Rle_trans with (sqrt 1); [apply sqrt_le_1_alt; lra | rewrite sqrt_1; lra]. }
set (num := cos radians * g_EARTH_EQ_RADIUS * PI / 180).
assert (Hnum : 111316 <= num <= 1113198 / 10).
{ unfold num, g_EARTH_EQ_RADIUS. split; nra. }
set (denom := 1 / sqrt x).
assert (Hden : 1 <= denom <= 1 + 3 / 1000000000).
{ unfold denom. split.
  - apply Rmult_le_reg_r with (sqrt x); [lra|].
    unfold Rdiv. rewrite Rmult_assoc, Rinv_l by lra. lra.
  - apply Rmult_le_reg_r with (sqrt x); [lra|].
    unfold Rdiv at 1. rewrite Rmult_assoc, Rinv_l by lra. lra. }
assert (Hdelta : 111316 <= num * denom <= 111320).
{ assert (num * 1 <= num * denom) by (apply Rmult_le_compat_l; lra).
  assert (num * denom <= num * (1 + 3 / 1000000000)) by (apply Rmult_le_compat_l; lra).
  lra. }
rewrite Rltb_false by (unfold g_EPSILON; lra).
assert (Hq : 109593 / 10000000 <= 1220 / (num * denom) <= 109599 / 10000000).
{ split.
  - apply Rmult_le_reg_r with (num * denom); [lra|].
    unfold Rdiv at 2. rewrite Rmult_assoc, Rinv_l by lra. lra.
  - apply Rmult_le_reg_r with (num * denom); [lra|].
    unfold Rdiv at 1. rewrite Rmult_assoc, Rinv_l by lra. lra. }
unfold Rmin. destruct (Rle_dec 360 (1220 / (num * denom))); lra.
Qed.

Lemma longitudeBits_1220 latitude :
-2 / 100 <= latitude <= 2 / 100 ->
Zfloor (longitudeBitsForResolution 1220 latitude) = 15%Z.
Proof.
intros Hlat. unfold longitudeBitsForResolution.
pose proof (metersToLongitudeDegrees_1220 latitude Hlat) as Hd.
set (degs := metersToLongitudeDegrees 1220 latitude) in *.
rewrite Rltb_true by (rewrite Rabs_pos_eq; lra).
assert (Hq : 2 ^ 15 <= 360 / degs < 2 ^ 16).
{ split.
  - apply Rmult_le_reg_r with degs; [lra|].
    unfold Rdiv. rewrite Rmult_assoc, Rinv_l by lra. lra.
  - apply Rmult_lt_reg_r with degs; [lra|].
    unfold Rdiv. rewrite Rmult_assoc, Rinv_l by lra. lra. }
pose proof (floor_log2 15 (360 / degs) Hq) as Hf.
assert (Hl : 1 <= log2 (360 / degs)).
{ pose proof (Zfloor_bound (log2 (360 / degs))) as Hb. rewrite Hf in Hb.
  change (IZR (Z.of_nat 15)) with 15 in Hb. lra. }
rewrite Rmax_right by exact Hl. exact Hf.
Qed.

Lemma latitudeBits_1220 : Zfloor (latitudeBitsForResolution 1220) = 14%Z.
Proof.
unfold latitudeBitsForResolution. rewrite Reqb_false by lra.
assert (Hq : 2 ^ 14 <= g_EARTH_MERI_CIRCUMFERENCE / 2 / 1220 < 2 ^ 15)
  by (unfold g_EARTH_MERI_CIRCUMFERENCE; lra).
pose proof (floor_log2 14 _ Hq) as Hf.
assert (Hl : log2 (g_EARTH_MERI_CIRCUMFERENCE / 2 / 1220) <= IZR g_MAXIMUM_BITS_PRECISION).
{ pose proof (Zfloor_bound (log2 (g_EARTH_MERI_CIRCUMFERENCE / 2 / 1220))) as Hb.
  rewrite Hf in Hb. change (IZR (Z.of_nat 14)) with 14 in Hb.
  change (IZR g_MAXIMUM_BITS_PRECISION) with 110. lra. }
rewrite Rmin_left by exact Hl. exact Hf.
Qed.

Lemma boundingBoxBits_1220 : boundingBoxBits (0, 0) 1220 = 28%Z.
Proof.
unfold boundingBoxBits. cbn [fst].
assert (Hn : 0 <= 1220 / g_METERS_PER_DEGREE_LATITUDE <= 2 / 100)
  by (unfold g_METERS_PER_DEGREE_LATITUDE; lra).
rewrite Rmin_right by lra. rewrite Rmax_right by lra.
rewrite latitudeBits_1220, !longitudeBits_1220 by lra. reflexivity.
Qed.

End BoundingBox.

Lemma wrapLongitude_in_range x : (-180 <= x <= 180)%R -> wrapLongitude x = x.
Proof.
  intros H. unfold wrapLongitude. rewrite !Rleb_true by lra. reflexivity.
Qed.

Lemma within_Q x (lo hi : Q) : (Q2R lo < x <= Q2R hi)%R -> within x (lo, hi).
Proof. auto. Qed.

Ltac q2r q := unfold q, within, Q2R; cbn [fst snd Qnum Qden]; lra.

Lemma distance_p :
  exists d, distance (loc (8 / 1000) 0) (loc 0 0) = Ok d /\ (889 / 1000 < d < 891 / 1000)%R.
Proof.
  eexists. split; [apply distance_from_origin; lra|].
  pose proof PI_bounds as HP.
  set (a := haversine_a (8 / 1000) 0).
  assert (Ha : (48735 / 10000000000000 <= a <= 48740 / 10000000000000)%R).
  { unfold a, haversine_a. rewrite cos_degrees_0.
    replace (degreesToRadians (0 - 0) / 2)%R with 0%R by (unfold degreesToRadians; lra).
    rewrite sin_0.
    set (u := (degreesToRadians (0 - 8 / 1000) / 2)%R).
    assert (Hu : (- (698134 / 10000000000) <= u <= - (698111 / 10000000000))%R)
      by (unfold u, degreesToRadians; lra).
    destruct (sin_sqr_bounds u ltac:(lra)) as [Hl Hh].
    assert (u * u <= 48740 / 10000000000000)%R by nra.
    assert (487358 / 100000000000000 <= u * u)%R by nra.
    assert (u * u * u * u <= 1 / 10000000000000000)%R by nra.
    lra. }
  pose proof (haversine_angle_bounds a _ _
                (6981 / 100000000) (69815 / 1000000000)
                (698 / 10000000) (699 / 10000000) Ha) as H.
  destruct H as [H1 H2]; try lra. all: try nra.
Qed.

Lemma geohashQueries_1220 : geohashQueries (loc 0 0) 1220 = Ok coverage_1220.
Proof.
  unfold geohashQueries. rewrite validateLocation_ok by lra. cbn [bind_result coords loc].
  rewrite boundingBoxBits_1220. change (Z.max 1 28) with 28.
  change (ceil_div 28 g_BITS_PER_CHAR) with 6.
  unfold boundingBoxCoordinates. cbn [fst snd].
  assert (Hn : (110333 / 10000000 < 1220 / g_METERS_PER_DEGREE_LATITUDE <= 110334 / 10000000)%R)
    by (unfold g_METERS_PER_DEGREE_LATITUDE; lra).
  rewrite (Rmin_right 90) by lra. rewrite (Rmax_right (-90)) by lra.
  set (N := (0 + 1220 / g_METERS_PER_DEGREE_LATITUDE)%R).
  set (S := (0 - 1220 / g_METERS_PER_DEGREE_LATITUDE)%R).
  assert (HN : (110333 / 10000000 < N <= 110334 / 10000000)%R) by (unfold N; lra).
  assert (HS : (- (110334 / 10000000) <= S < - (110333 / 10000000))%R) by (unfold S; lra).
  pose proof (metersToLongitudeDegrees_1220 N ltac:(lra)) as HLn.
  pose proof (metersToLongitudeDegrees_1220 S ltac:(lra)) as HLs.
  set (L := Rmax (metersToLongitudeDegrees 1220 N) (metersToLongitudeDegrees 1220 S)).
  assert (HL : (109593 / 10000000 <= L <= 109599 / 10000000)%R).
  { unfold L, Rmax. destruct (Rle_dec _ _); lra. }
  rewrite (wrapLongitude_in_range (0 - L)), (wrapLongitude_in_range (0 + L)) by lra.
  set (Lw := (0 - L)%R). set (Le := (0 + L)%R).
  assert (HLw : (- (109600 / 10000000) < Lw <= - (109593 / 10000000))%R) by (unfold Lw; lra).
  assert (HLe : (109592 / 10000000 < Le <= 109599 / 10000000)%R) by (unfold Le; lra).
  pose (q0 := ((-1 # 1000000000)%Q, 0%Q)).
  pose (qN := ((110333 # 10000000)%Q, (110334 # 10000000)%Q)).
  pose (qS := ((-110335 # 10000000)%Q, (-110333 # 10000000)%Q)).
  pose (qLe := ((109592 # 10000000)%Q, (109599 # 10000000)%Q)).
  pose (qLw := ((-109600 # 10000000)%Q, (-109593 # 10000000)%Q)).
  assert (W0 : within 0 q0) by q2r q0.
  assert (WN : within N qN) by q2r qN.
  assert (WS : within S qS) by q2r qS.
  assert (WLe : within Le qLe) by q2r qLe.
  assert (WLw : within Lw qLw) by q2r qLw.
  cbn [map_result fst snd].
  rewrite (encodeGeohash_shadow 0 0 q0 q0 6 "7zzzzz"),
          (encodeGeohash_shadow 0 Lw q0 qLw 6 "7zzzzz"),
          (encodeGeohash_shadow 0 Le q0 qLe 6 "kpbpbp"),
          (encodeGeohash_shadow N 0 qN q0 6 "ebpbpf"),
          (encodeGeohash_shadow N Lw qN qLw 6 "ebpbpf"),
          (encodeGeohash_shadow N Le qN qLe 6 "s00004"),
          (encodeGeohash_shadow S 0 qS q0 6 "7zzzzv"),
          (encodeGeohash_shadow S Lw qS qLw 6 "7zzzzv"),
          (encodeGeohash_shadow S Le qS qLe 6 "kpbpbj");
    try assumption; try lra; try reflexivity; try (vm_compute; reflexivity).
Qed.

Lemma encodeGeohash_p (precision : Z) (h : string) :
  (0 <? precision) && (precision <=? 22) = true ->
  shadow_encode ((7999999 # 1000000000)%Q, (8 # 1000)%Q) ((-1 # 1000000000)%Q, 0%Q) precision
    = Some h ->
  encodeGeohash (loc (8 / 1000) 0) precision = Ok h.
Proof.
  intros Hp Hs. apply (encodeGeohash_shadow _ _ _ _ precision h) with (5 := Hp) (6 := Hs).
  - lra.
  - lra.
  - unfold within, Q2R; cbn [fst snd Qnum Qden]; lra.
  - unfold within, Q2R; cbn [fst snd Qnum Qden]; lra.
Qed.

(** Claim C1, at a point of the circle the coverage misses.  The point
    [(0.008, 0)] is at less than 891 m of the center [(0, 0)]; the coverage
    of the circle of 1220 m has six ranges, and neither the geohash of the
    point at the precision of the coverage, [ebpbpc], nor the geohash
    stored for it, [ebpbpcryxg], is in one of them. *)
Theorem coverage_misses_a_point_of_the_circle :
  exists d : R,
    distance (loc (8 / 1000) 0) (loc 0 0) = Ok d /\
    (d * 1000 <= 1220)%R /\
    geohashQueries (loc 0 0) 1220 = Ok coverage_1220 /\
    encodeGeohash (loc (8 / 1000) 0) 6 = Ok "ebpbpc" /\
    in_some_range "ebpbpc" coverage_1220 = false /\
    encodeGeohash (loc (8 / 1000) 0) g_GEOHASH_PRECISION = Ok "ebpbpcryxg" /\
    in_some_range "ebpbpcryxg" coverage_1220 = false.
Proof.
  destruct distance_p as (d & Hd & Hb). exists d.
  split; [exact Hd|]. split; [lra|]. split; [exact geohashQueries_1220|].
  split; [apply encodeGeohash_p; vm_compute; reflexivity|].
  split; [vm_compute; reflexivity|].
  split; [apply encodeGeohash_p; vm_compute; reflexivity|].
  vm_compute; reflexivity.
Qed.

(** * Part III: further properties *)

(** ** Geohashes: validation and encoding *)

Lemma base32_char (c : ascii) :
  (JsString.indexOf (String c EmptyString) g_BASE32 =? -1) =
  negb (existsb (Ascii.eqb c) (list_ascii_of_string g_BASE32)).
Proof. destruct c as [[] [] [] [] [] [] [] []]; vm_compute; reflexivity. Qed.

Lemma base32_char_in (c : ascii) :
  JsString.indexOf (String c EmptyString) g_BASE32 <> -1 <->
  In c (list_ascii_of_string g_BASE32).
Proof.
  rewrite <- Z.eqb_neq, base32_char, negb_false_iff, existsb_exists. split.
  - intros (x & Hin & E). apply Ascii.eqb_eq in E. now subst.
  - intros Hin. exists c. split; [exact Hin | apply Ascii.eqb_refl].
Qed.

Lemma letters_none_iff (g : string) :
  validateGeohash_letters g None = None <->
  Forall (fun c => In c (list_ascii_of_string g_BASE32)) (list_ascii_of_string g).
Proof.
  induction g as [|a g IH]; cbn [validateGeohash_letters list_ascii_of_string].
  - split; [constructor | reflexivity].
  - destruct (JsString.indexOf (String a EmptyString) g_BASE32 =? -1) eqn:E.
    + split.
      * intros H. exfalso. revert H. apply letters_error_sticky. discriminate.
      * intros H. inversion H as [|? ? Ha _]; subst.
        apply base32_char_in in Ha. apply Z.eqb_eq in E. contradiction.
    + rewrite IH. apply Z.eqb_neq in E. split.
      * intros H. constructor; [now apply base32_char_in | exact H].
      * intros H. now inversion H.
Qed.

Lemma validateGeohash_accepts_aux (g : string) :
  validateGeohash g = Ok tt <->
  g <> EmptyString /\
  Forall (fun c => In c (list_ascii_of_string g_BASE32)) (list_ascii_of_string g).
Proof.
  unfold validateGeohash. destruct g as [|a g].
  - cbn. split; [discriminate | intros [H _]; congruence].
  - replace (JsString.len (String a g) =? 0) with false
      by (symmetry; apply Z.eqb_neq; unfold JsString.len; cbn [String.length]; lia).
    rewrite <- letters_none_iff.
    destruct (validateGeohash_letters (String a g) None); split.
    + discriminate.
    + intros [_ H]. discriminate.
    + intros _. split; [discriminate | reflexivity].
    + reflexivity.
Qed.

(** The loop of [encodeGeohash] after [n] iterations. *)
Lemma encode_loop_iter location precision : forall fuel st,
  encode_inv st ->
  JsString.len (hash st) * 5 + bits st + Z.of_nat fuel = 5 * precision ->
  encode_loop fuel location precision st =
  Some (hash (Nat.iter fuel (encode_step location) st)).
Proof.
  induction fuel as [|fuel IH]; intros st Hinv Hm; cbn [encode_loop].
  - destruct Hinv as [Hb _]. destruct (JsString.len (hash st) <? precision) eqn:E.
    + apply Z.ltb_lt in E. lia.
    + reflexivity.
  - destruct (encode_step_inv location st Hinv) as [Hinv' Hm'].
    destruct Hinv as [Hb _].
    destruct (JsString.len (hash st) <? precision) eqn:E; [|apply Z.ltb_ge in E; lia].
    rewrite IH by (try exact Hinv'; lia). now rewrite Nat.iter_succ_r.
Qed.

Lemma encodeGeohash_iter location precision :
  validateLocation location = Ok tt -> 1 <= precision <= 22 ->
  encodeGeohash location precision =
  Ok (hash (Nat.iter (Z.to_nat (5 * precision)) (encode_step (coords location)) encode_init)).
Proof.
  intros Hv Hp. unfold encodeGeohash. rewrite Hv. cbn [bind_result].
  destruct (precision <=? 0) eqn:E1; [apply Z.leb_le in E1; lia|].
  destruct (precision >? 22) eqn:E2; [apply Z.gtb_lt in E2; lia|].
  unfold g_BITS_PER_CHAR. rewrite encode_loop_iter; [reflexivity | |].
  - split; cbn; lia.
  - change (JsString.len (hash encode_init)) with 0. change (bits encode_init) with 0. lia.
Qed.

Lemma encode_init_inv : encode_inv encode_init.
Proof. split; cbn; lia. Qed.

Lemma append_index_letter s i :
  0 <= i < 32 ->
  exists c, JsString.append_index s g_BASE32 i = s ++ String c EmptyString /\
            In c (list_ascii_of_string g_BASE32).
Proof.
  intros H. unfold JsString.append_index.
  destruct (i <? 0) eqn:E; [apply Z.ltb_lt in E; lia|].
  assert (Hall : forallb (fun n => match String.get n g_BASE32 with
                                   | Some c => existsb (Ascii.eqb c)
                                                 (list_ascii_of_string g_BASE32)
                                   | None => false
                                   end) (seq 0 32) = true) by (vm_compute; reflexivity).
  rewrite forallb_forall in Hall.
  specialize (Hall (Z.to_nat i) ltac:(apply in_seq; lia)).
  destruct (String.get (Z.to_nat i) g_BASE32) as [c|]; [|discriminate].
  exists c. split; [reflexivity|].
  apply existsb_exists in Hall as (x & Hin & Ex). apply Ascii.eqb_eq in Ex. now subst.
Qed.

Lemma string_app_assoc (a b c : string) : (a ++ b) ++ c = a ++ (b ++ c).
Proof. induction a as [|x a IH]; cbn; [reflexivity | now rewrite IH]. Qed.

Lemma string_app_nil_r (a : string) : a ++ EmptyString = a.
Proof. induction a as [|x a IH]; cbn; [reflexivity | now rewrite IH]. Qed.

Lemma encode_step_hash location st :
  encode_inv st ->
  hash (encode_step location st) = hash st \/
  exists c, hash (encode_step location st) = hash st ++ String c EmptyString /\
            In c (list_ascii_of_string g_BASE32).
Proof.
  intros [Hb Hv]. unfold encode_step.
  assert (Hpow : 2 ^ bits st <= 16) by (apply (Z.pow_le_mono_r 2 (bits st) 4); lia).
  assert (Hh : 0 <= hashVal st < 16)
    by (split; [apply Hv | eapply Z.lt_le_trans; [apply Hv | exact Hpow]]).
  rewrite js_shl_1 by (clear - Hh; lia).
  set (b := if Rltb _ _ then 1 else 0).
  assert (Hbit : 0 <= b <= 1) by (unfold b; destruct (Rltb _ _); lia).
  destruct (bits st <? 4); cbn [hash]; [now left | right].
  apply append_index_letter. lia.
Qed.

(** What [n] iterations keep: the invariant, the count of the bits, and the
    letters of the hash, which is only extended. *)
Lemma encode_iter_inv location n : forall st,
  encode_inv st ->
  Forall (fun c => In c (list_ascii_of_string g_BASE32)) (list_ascii_of_string (hash st)) ->
  let st' := Nat.iter n (encode_step location) st in
  encode_inv st' /\
  JsString.len (hash st') * 5 + bits st' = JsString.len (hash st) * 5 + bits st + Z.of_nat n /\
  Forall (fun c => In c (list_ascii_of_string g_BASE32)) (list_ascii_of_string (hash st')) /\
  exists t, hash st' = hash st ++ t.
Proof.
  induction n as [|n IH]; intros st Hinv Hall; cbv zeta; cbn [Nat.iter].
  - split; [exact Hinv|]. split; [cbn; lia|]. split; [exact Hall|].
    exists EmptyString. now rewrite string_app_nil_r.
  - rewrite Nat.iter_succ.
    destruct (IH st Hinv Hall) as (Hinv' & Hm & Hall' & t & Ht).
    set (st' := Nat.iter n (encode_step location) st) in *.
    destruct (encode_step_inv location st' Hinv') as [Hinv'' Hm''].
    split; [exact Hinv''|]. split; [lia|].
    destruct (encode_step_hash location st' Hinv') as [E|(c & E & Hc)]; rewrite E.
    + split; [exact Hall'|]. now exists t.
    + split.
      * rewrite list_ascii_of_app. apply Forall_app. split; [exact Hall'|].
        cbn. constructor; [exact Hc | constructor].
      * exists (t ++ String c EmptyString). now rewrite Ht, string_app_assoc.
Qed.

Lemma iter_add {A} (f : A -> A) n m x : Nat.iter (n + m) f x = Nat.iter m f (Nat.iter n f x).
Proof.
  induction m as [|m IH]; [now rewrite Nat.add_0_r|].
  rewrite Nat.add_succ_r, !Nat.iter_succ. now rewrite IH.
Qed.

(** [encodeGeohash] on a valid location and a precision between 1 and 22:
    the hash returned, its length, its letters, and the extension property. *)
Lemma encodeGeohash_spec location precision :
  validateLocation location = Ok tt -> 1 <= precision <= 22 ->
  exists h, encodeGeohash location precision = Ok h /\
            JsString.len h = precision /\ validateGeohash h = Ok tt.
Proof.
  intros Hv Hp. rewrite (encodeGeohash_iter location precision Hv Hp).
  destruct (encode_iter_inv (coords location) (Z.to_nat (5 * precision)) encode_init
              encode_init_inv (Forall_nil _)) as (Hinv & Hm & Hall & _).
  set (st := Nat.iter _ _ _) in *.
  change (JsString.len (hash encode_init)) with 0 in Hm. change (bits encode_init) with 0 in Hm.
  assert (Hlen : JsString.len (hash st) = precision) by (destruct Hinv as [Hb _]; lia).
  eexists. split; [reflexivity|]. split; [exact Hlen|].
  apply validateGeohash_accepts_aux. split; [|exact Hall].
  intros E. rewrite E in Hlen. cbn in Hlen. lia.
Qed.

Lemma encodeGeohash_extends location p q :
  validateLocation location = Ok tt -> 1 <= p -> p <= q -> q <= 22 ->
  exists h t, encodeGeohash location p = Ok h /\ encodeGeohash location q = Ok (h ++ t).
Proof.
  intros Hv Hp Hpq Hq.
  rewrite (encodeGeohash_iter location p Hv ltac:(lia)).
  rewrite (encodeGeohash_iter location q Hv ltac:(lia)).
  replace (Z.to_nat (5 * q)) with (Z.to_nat (5 * p) + Z.to_nat (5 * (q - p)))%nat by lia.
  rewrite iter_add.
  destruct (encode_iter_inv (coords location) (Z.to_nat (5 * p)) encode_init
              encode_init_inv (Forall_nil _)) as (Hinv & _ & Hall & _).
  destruct (encode_iter_inv (coords location) (Z.to_nat (5 * (q - p))) _ Hinv Hall)
    as (_ & _ & _ & t & Ht).
  eexists _, t. split; [reflexivity|]. now rewrite Ht.
Qed.

(** The range of [geohashQuery g b] for [b > 0]: it holds every string that
    starts with the first [ceil(b / 5)] letters of [g]. *)
Lemma geohashQuery_cell (g : string) (b : Z) :
  validateGeohash g = Ok tt ->
  0 < b ->
  ceil_div b g_BITS_PER_CHAR <= JsString.len g ->
  exists base c rest start end_,
    g = base ++ String c rest /\
    JsString.len base = ceil_div b g_BITS_PER_CHAR - 1 /\
    geohashQuery g b = Ok (start, end_) /\
    forall t, JsString.le start (base ++ String c t) = true /\
              JsString.le (base ++ String c t) end_ = true.
Proof.
  intros Hv Hb Hp. unfold geohashQuery. rewrite Hv. cbn [bind_result].
  destruct (validateGeohash_ok g Hv) as [Hne Hletters].
  destruct (JsString.len g <? ceil_div b g_BITS_PER_CHAR) eqn:E;
    [apply Z.ltb_lt in E; lia|]. clear E.
  unfold g_BITS_PER_CHAR in *.
  pose proof (ceil_div_5_bounds b Hb) as [Hp1 Hsig].
  set (p := ceil_div b 5) in *.
  destruct (split_at (Z.to_nat (p - 1)) g) as (base & c & rest & -> & Hlen).
  { unfold JsString.len in Hp. lia. }
  exists base, c, rest.
  assert (Hsub : JsString.substring0 p (base ++ String c rest) = base ++ String c EmptyString).
  { unfold JsString.substring0, JsString.len. rewrite string_length_app. simpl.
    replace (Z.to_nat _) with (S (String.length base)) by lia.
    apply substring_prefix. }
  rewrite Hsub.
  assert (Hl1 : JsString.len (base ++ String c EmptyString) - 1 = Z.of_nat (String.length base)).
  { unfold JsString.len. rewrite string_length_app. simpl. lia. }
  rewrite Hl1.
  assert (Hbase : JsString.substring0 (Z.of_nat (String.length base))
                    (base ++ String c EmptyString) = base).
  { unfold JsString.substring0, JsString.len. rewrite string_length_app. simpl.
    replace (Z.to_nat _) with (String.length base) by lia.
    apply substring_base. }
  rewrite Hbase.
  assert (Hchar : JsString.charAt (Z.of_nat (String.length base))
                    (base ++ String c EmptyString) = String c EmptyString).
  { unfold JsString.charAt. destruct (_ <? 0) eqn:E; [apply Z.ltb_lt in E; lia|].
    rewrite Nat2Z.id, get_last. reflexivity. }
  rewrite Hchar.
  specialize (Hletters (String.length base) c (get_last base c rest)).
  destruct (alphabet_index c) as [Hc|[Hrange Hc]]; [contradiction|].
  set (v := JsString.indexOf (String c EmptyString) g_BASE32) in *.
  assert (Hu : JsString.len base = p - 1) by (unfold JsString.len; lia).
  rewrite Hu.
  set (u := 5 - (b - (p - 1) * 5)).
  pose proof (check_cell_ok v u Hrange ltac:(unfold u; lia)) as Hcell.
  unfold check_cell in Hcell. rewrite Hc in Hcell.
  set (s := js_shl (js_shr v u) u) in *.
  set (e := s + js_shl 1 u) in *.
  destruct (nth_char s) as [cs|] eqn:Hcs; [|discriminate].
  apply andb_prop in Hcell as [Hcell Hend].
  apply andb_prop in Hcell as [Hcell Htilde].
  apply andb_prop in Hcell as [Hs0 Hle].
  apply Z.leb_le in Hs0. apply negb_true_iff in Hle.
  assert (Hstart : JsString.append_index base g_BASE32 s = base ++ String cs EmptyString).
  { unfold JsString.append_index. destruct (s <? 0) eqn:E; [apply Z.ltb_lt in E; lia|].
    unfold nth_char in Hcs. now rewrite Hcs. }
  rewrite Hstart.
  destruct (e >? 31) eqn:He.
  - eexists _, _. split; [reflexivity|]. split; [reflexivity|]. split; [reflexivity|].
    intros t. unfold JsString.le. split.
    + apply leb_app_l. now apply leb_char_le.
    + apply leb_app_l. now apply leb_char_lt.
  - apply andb_prop in Hend as [He0 Hce]. apply Z.leb_le in He0.
    destruct (nth_char e) as [ce|] eqn:Hnce; [|discriminate].
    assert (Hend' : JsString.append_index base g_BASE32 e = base ++ String ce EmptyString).
    { unfold JsString.append_index. destruct (e <? 0) eqn:E; [apply Z.ltb_lt in E; lia|].
      unfold nth_char in Hnce. now rewrite Hnce. }
    rewrite Hend'.
    eexists _, _. split; [reflexivity|]. split; [reflexivity|]. split; [reflexivity|].
    intros t. unfold JsString.le. split.
    + apply leb_app_l. now apply leb_char_le.
    + apply leb_app_l. now apply leb_char_lt.
Qed.

Lemma length_one_more base c rest :
  String.length (base ++ String c rest) = S (String.length base) -> rest = EmptyString.
Proof.
  rewrite string_length_app. cbn. intros H. destruct rest; [reflexivity | cbn in H; lia].
Qed.

(** The range computed from the hash of a location at the precision of
    the bits holds the hashes of that location at every higher precision. *)
Lemma geohashQuery_of_encodeGeohash location b q :
  validateLocation location = Ok tt ->
  1 <= b -> ceil_div b g_BITS_PER_CHAR <= q -> q <= 22 ->
  exists h g start end_,
    encodeGeohash location (ceil_div b g_BITS_PER_CHAR) = Ok h /\
    encodeGeohash location q = Ok g /\
    geohashQuery h b = Ok (start, end_) /\
    JsString.le start g = true /\ JsString.le g end_ = true.
Proof.
  intros Hv Hb Hq Hq22.
  pose proof (ceil_div_5_bounds b ltac:(lia)) as [Hp1 _]. fold g_BITS_PER_CHAR in Hp1.
  set (p := ceil_div b g_BITS_PER_CHAR) in *.
  destruct (encodeGeohash_spec location p Hv ltac:(lia)) as (h & Eh & Hlen & Hvalid).
  destruct (encodeGeohash_extends location p q Hv ltac:(lia) Hq Hq22) as (h' & t & Eh' & Eq).
  rewrite Eh in Eh'. injection Eh' as <-.
  destruct (geohashQuery_cell h b Hvalid ltac:(lia) ltac:(fold p; lia))
    as (base & c & rest & s & e & Hg & Hbase & Hquery & Hin).
  fold p in Hbase.
  assert (rest = EmptyString) as ->.
  { apply (length_one_more base c). unfold JsString.len in *. rewrite <- Hg. lia. }
  exists h, (h ++ t), s, e. repeat split; try assumption.
  - rewrite Hg, string_app_assoc. apply Hin.
  - rewrite Hg, string_app_assoc. apply Hin.
Qed.

(** ** Longitudes, the bounding box and the coverage *)

Section Wrap.
Local Open Scope R_scope.

Lemma js_rem_nonneg x :
  0 <= x -> 0 <= js_rem x 360 < 360 /\ exists k : Z, js_rem x 360 = x - 360 * IZR k.
Proof.
  intros Hx. unfold js_rem.
  assert (Hq : 0 <= x / 360) by (apply Rmult_le_pos; lra).
  destruct (Rle_dec 0 (x / 360)) as [_|Hn]; [|contradiction].
  pose proof (Zfloor_bound (x / 360)) as [Hlo Hhi].
  split; [|now exists (Zfloor (x / 360))].
  assert (E : x = 360 * (x / 360)) by (field).
  split; lra.
Qed.

Lemma wrapLongitude_bounds x :
  -180 <= wrapLongitude x <= 180 /\
  (exists k : Z, wrapLongitude x = x + 360 * IZR k) /\
  (-180 <= x <= 180 -> wrapLongitude x = x).
Proof.
  unfold wrapLongitude.
  destruct (Rleb x 180 && Rleb (-180) x) eqn:E.
  - apply andb_prop in E as [E1 E2]. unfold Rleb in E1, E2.
    destruct (Rle_dec x 180); [|discriminate]. destruct (Rle_dec (-180) x); [|discriminate].
    split; [lra|]. split; [exists 0%Z; lra | reflexivity].
  - assert (Hout : ~ (-180 <= x <= 180)).
    { intros [H1 H2]. rewrite (Rleb_true x 180 H2), (Rleb_true (-180) x H1) in E.
      discriminate. }
    cbv zeta. unfold Rltb. destruct (Rlt_dec 0 (x + 180)) as [Hpos|Hneg].
    + destruct (js_rem_nonneg (x + 180) ltac:(lra)) as [Hb [k Hk]].
      split; [lra|]. split; [|intros H; contradiction].
      exists (- k)%Z. rewrite opp_IZR. lra.
    + destruct (js_rem_nonneg (- (x + 180)) ltac:(lra)) as [Hb [k Hk]].
      split; [lra|]. split; [|intros H; contradiction].
      exists (k + 1)%Z. rewrite plus_IZR. lra.
Qed.

(** Property X5.  For a distance that is not negative, at any latitude,
    [metersToLongitudeDegrees] returns between 0 and 360 degrees: the
    quotient is capped at 360, and where the length of a degree falls under
    [g_EPSILON] the function returns 360 or 0 without dividing. *)
Theorem metersToLongitudeDegrees_bounds distance latitude :
  0 <= distance -> 0 <= metersToLongitudeDegrees distance latitude <= 360.
Proof.
  intros Hd. unfold metersToLongitudeDegrees. cbv zeta.
  set (deltaDeg := _ * _ * _ / _ * _).
  unfold Rltb. destruct (Rlt_dec deltaDeg g_EPSILON) as [Hsmall|Hbig].
  - destruct (Rlt_dec 0 distance); lra.
  - assert (Heps : 0 < g_EPSILON) by (unfold g_EPSILON; lra).
    assert (Hq : 0 <= distance / deltaDeg).
    { apply Rmult_le_pos; [exact Hd|]. apply Rlt_le, Rinv_0_lt_compat. lra. }
    unfold Rmin. destruct (Rle_dec 360 (distance / deltaDeg)); lra.
Qed.


Lemma boundingBoxCoordinates_valid lat lon radius :
  -90 <= lat <= 90 -> -180 <= lon <= 180 -> 0 <= radius ->
  exists c1 c2 c3 c4 c5 c6 c7 c8,
    boundingBoxCoordinates (lat, lon) radius = [(lat, lon); c1; c2; c3; c4; c5; c6; c7; c8] /\
    Forall (fun c => validateLocation (loc (fst c) (snd c)) = Ok tt)
           (boundingBoxCoordinates (lat, lon) radius).
Proof.
  intros Hlat Hlon Hr. unfold boundingBoxCoordinates. cbv zeta. cbn [fst snd].
  do 8 eexists. split; [reflexivity|].
  assert (Hd : 0 <= radius / g_METERS_PER_DEGREE_LATITUDE).
  { unfold g_METERS_PER_DEGREE_LATITUDE. apply Rmult_le_pos; lra. }
  assert (Hn : -90 <= Rmin 90 (lat + radius / g_METERS_PER_DEGREE_LATITUDE) <= 90).
  { unfold Rmin. destruct (Rle_dec _ _); lra. }
  assert (Hs : -90 <= Rmax (-90) (lat - radius / g_METERS_PER_DEGREE_LATITUDE) <= 90).
  { unfold Rmax. destruct (Rle_dec _ _); lra. }
  repeat constructor; cbn [fst snd];
    apply validateLocation_ok; first [assumption | apply wrapLongitude_bounds].
Qed.

End Wrap.




Lemma remove_duplicates_head query rest :
  exists kept, remove_duplicates [] (query :: rest) = query :: kept.
Proof. cbn. eauto. Qed.

Lemma map_result_ok {A B} (f : A -> result B) (l : list A) :
  Forall (fun a => exists b, f a = Ok b) l ->
  exists bs, map_result f l = Ok bs /\ List.length bs = List.length l.
Proof.
  induction 1 as [|a l [b Hb] _ (bs & IH & Hlen)]; cbn [map_result].
  - exists []. auto.
  - rewrite Hb. cbn [bind_result]. rewrite IH. cbn [bind_result].
    exists (b :: bs). cbn. auto.
Qed.

Lemma map_result_cons {A B} (f : A -> result B) a l :
  map_result f (a :: l) =
  bind_result (f a) (fun b => bind_result (map_result f l) (fun bs => Ok (b :: bs))).
Proof. reflexivity. Qed.

Lemma queryBits_bounds coordinate size :
  1 <= Z.max 1 (boundingBoxBits coordinate size) <= 110 /\
  1 <= ceil_div (Z.max 1 (boundingBoxBits coordinate size)) g_BITS_PER_CHAR <= 22.
Proof.
  assert (H : boundingBoxBits coordinate size <= 110).
  { unfold boundingBoxBits. cbv zeta. change g_MAXIMUM_BITS_PRECISION with 110. lia. }
  set (b := Z.max 1 _). assert (Hb : 1 <= b <= 110) by (unfold b; lia).
  split; [exact Hb|]. unfold ceil_div, g_BITS_PER_CHAR.
  pose proof (Z.div_mod (- b) 5 ltac:(lia)). pose proof (Z.mod_pos_bound (- b) 5 ltac:(lia)).
  lia.
Qed.

(** One range of the coverage: the hash of a sample point and its range. *)
Lemma sample_query coordinate b :
  validateLocation (loc (fst coordinate) (snd coordinate)) = Ok tt ->
  1 <= b -> 1 <= ceil_div b g_BITS_PER_CHAR <= 22 ->
  exists q,
    bind_result (encodeGeohash (loc (fst coordinate) (snd coordinate))
                               (ceil_div b g_BITS_PER_CHAR))
                (fun h => geohashQuery h b) = Ok q.
Proof.
  intros Hv Hb Hp.
  destruct (encodeGeohash_spec _ _ Hv Hp) as (h & -> & Hlen & Hvalid). cbn [bind_result].
  destruct (geohashQuery_cell h b Hvalid ltac:(lia) ltac:(lia))
    as (base & c & rest & s & e & _ & _ & -> & _).
  eauto.
Qed.

Section Coverage.
Local Open Scope R_scope.

(** [geohashQueries] on a valid center and a radius that is not negative:
    the hash of the center at the precision of the coverage, its range, and
    the ranges of the eight other sample points, duplicates removed. *)
Lemma geohashQueries_eval lat lon radius :
  -90 <= lat <= 90 -> -180 <= lon <= 180 -> 0 <= radius ->
  let queryBits := Z.max 1 (boundingBoxBits (lat, lon) radius) in
  exists h q queries,
    encodeGeohash (loc lat lon) (ceil_div queryBits g_BITS_PER_CHAR) = Ok h /\
    geohashQuery h queryBits = Ok q /\
    List.length queries = 8%nat /\
    geohashQueries (loc lat lon) radius = Ok (remove_duplicates [] (q :: queries)).
Proof.
  intros Hlat Hlon Hr queryBits.
  destruct (queryBits_bounds (lat, lon) radius) as [Hb Hp]. fold queryBits in Hb, Hp.
  unfold geohashQueries. rewrite (validateLocation_ok lat lon Hlat Hlon).
  cbn [bind_result]. change (coords (loc lat lon)) with (lat, lon). fold queryBits.
  destruct (boundingBoxCoordinates_valid lat lon radius Hlat Hlon Hr)
    as (c1 & c2 & c3 & c4 & c5 & c6 & c7 & c8 & -> & Hall).
  assert (Hok : Forall (fun coordinate => exists q,
             bind_result (encodeGeohash (loc (fst coordinate) (snd coordinate))
                            (ceil_div queryBits g_BITS_PER_CHAR))
                         (fun h => geohashQuery h queryBits) = Ok q)
             [(lat, lon); c1; c2; c3; c4; c5; c6; c7; c8]).
  { eapply Forall_impl; [|exact Hall]. intros c Hc. apply sample_query; [exact Hc | lia | lia]. }
  inversion Hok as [|c l [q Hq] Hrest]; subst.
  destruct (map_result_ok _ _ Hrest) as (queries & Hmap & Hlen).
  rewrite map_result_cons, Hq. cbn [bind_result]. rewrite Hmap. cbn [bind_result].
  cbn [fst snd] in Hq.
  destruct (encodeGeohash (loc lat lon) (ceil_div queryBits g_BITS_PER_CHAR)) as [h|] eqn:Eh;
    [|discriminate].
  exists h, q, queries. repeat split; auto.
Qed.


Lemma log2_lt_25 x : 0 < x < 2 ^ 25 -> log2 x < 25.
Proof.
  intros [H0 H1]. unfold log2. pose proof ln_2_pos as Hl.
  apply Rmult_lt_reg_r with (ln 2); [exact Hl|].
  unfold Rdiv. rewrite Rmult_assoc, Rinv_l by lra. rewrite Rmult_1_r.
  replace (25 * ln 2) with (ln (2 ^ 25)).
  - apply ln_increasing; assumption.
  - rewrite ln_pow by lra. rewrite INR_IZR_INZ. reflexivity.
Qed.

Lemma boundingBoxBits_metre coordinate size :
  1 <= size -> (boundingBoxBits coordinate size <= 48)%Z.
Proof.
  intros Hs. unfold boundingBoxBits. cbv zeta.
  assert (H : (Zfloor (latitudeBitsForResolution size) <= 24)%Z).
  { unfold latitudeBitsForResolution. rewrite Reqb_false by lra.
    assert (Hq : 0 < g_EARTH_MERI_CIRCUMFERENCE / 2 / size < 2 ^ 25).
    { unfold g_EARTH_MERI_CIRCUMFERENCE. split.
      - apply Rmult_lt_0_compat; [lra | apply Rinv_0_lt_compat; lra].
      - apply Rmult_lt_reg_r with size; [lra|].
        unfold Rdiv at 1. rewrite Rmult_assoc, Rinv_l by lra. lra. }
    pose proof (log2_lt_25 _ Hq) as Hlog.
    set (v := Rmin _ _).
    assert (Hv : v < 25) by (unfold v, Rmin; destruct (Rle_dec _ _); [lra | change (IZR g_MAXIMUM_BITS_PRECISION) with 110 in *; lra]).
    pose proof (Zfloor_bound v) as [Hlo _].
    assert (IZR (Zfloor v) < 25) by lra.
    apply lt_IZR in H. lia. }
  lia.
Qed.

(** Property X8.  For a valid center and a radius of one metre or more, the
    geohash of ten characters stored for the center lies in one of the
    ranges of [geohashQueries]. *)
Theorem geohashQueries_center lat lon radius :
  -90 <= lat <= 90 -> -180 <= lon <= 180 -> 1 <= radius ->
  exists queries g,
    geohashQueries (loc lat lon) radius = Ok queries /\
    encodeGeohash (loc lat lon) g_GEOHASH_PRECISION = Ok g /\
    in_some_range g queries = true.
Proof.
  intros Hlat Hlon Hr.
  destruct (geohashQueries_eval lat lon radius Hlat Hlon ltac:(lra))
    as (h & q & qs & Eh & Eq & _ & ->).
  pose proof (boundingBoxBits_metre (lat, lon) radius Hr) as Hbits.
  destruct (queryBits_bounds (lat, lon) radius) as [Hb Hp].
  set (queryBits := Z.max 1 (boundingBoxBits (lat, lon) radius)) in *.
  assert (Hp10 : (ceil_div queryBits g_BITS_PER_CHAR <= 10)%Z).
  { unfold ceil_div, g_BITS_PER_CHAR.
    pose proof (Z.div_mod (- queryBits) 5 ltac:(lia)).
    pose proof (Z.mod_pos_bound (- queryBits) 5 ltac:(lia)). lia. }
  destruct (geohashQuery_of_encodeGeohash (loc lat lon) queryBits 10
              (validateLocation_ok lat lon Hlat Hlon) ltac:(lia) Hp10 ltac:(lia))
    as (h' & g & s & e & Eh' & Eg & Eq' & Hs & He).
  rewrite Eh in Eh'. injection Eh' as <-. rewrite Eq in Eq'. injection Eq' as ->.
  destruct (remove_duplicates_head (s, e) qs) as [kept ->].
  exists ((s, e) :: kept), g. split; [reflexivity|]. split; [exact Eg|].
  cbn [in_some_range existsb fst snd]. unfold in_some_range. cbn [existsb fst snd].
  now rewrite Hs, He.
Qed.

End Coverage.

(** ** The distance *)

Section Distance.
Local Open Scope R_scope.








End Distance.

(** ** The locations tracked *)





Lemma replace_same {V} k (v : V) d : Dict.get k d = Some v -> Dict.replace k v d = d.
Proof.
  unfold Dict.get. induction d as [|[k' v'] d IH]; cbn; [reflexivity|].
  destruct (String.eqb k k') eqn:E.
  - intros [= ->]. reflexivity.
  - intros H. now rewrite IH.
Qed.

Lemma set_same {V} k (v : V) d : Dict.get k d = Some v -> Dict.set k v d = d.
Proof.
  intros H. unfold Dict.set, Dict.has. rewrite H. now apply replace_same.
Qed.


#[export] Instance shrinks_preorder : PreOrder shrinks.
Proof.
  split.
  - intros w. split; [reflexivity | auto].
  - intros a b c [H1 H2] [H3 H4]. split; [etransitivity; eassumption | auto].
Qed.

#[export] Instance stays_consistent_preorder : PreOrder stays_consistent.
Proof.
  split.
  - intros w H. exact H.
  - intros a b c H1 H2 H. auto.
Qed.




Section Tracked.
Variable ToNumber : string -> option R.














End Tracked.

Lemma updateLocation_unfold key l doc w :
  _updateLocation key l doc w =
  match validateLocation l with
  | Throw e => (Throw e, w)
  | Ok _ =>
      match distance l (_center w) with
      | Throw e => (Throw e, w)
      | Ok d =>
          match encodeGeohash l g_GEOHASH_PRECISION with
          | Throw e => (Throw e, w)
          | Ok g =>
              let document := if is_undefined doc then VNull else doc in
              let old := Dict.get key (_locationsTracked w) in
              let wasInQuery := match old with Some e => isInQuery e | None => false end in
              let inQuery := le_radius d (_radius w) in
              (if inQuery && negb wasInQuery then
                 _fireCallbacksForKey KeyEntered key l (VNum d) document
               else if inQuery &&
                       match old with
                       | Some e =>
                           negb (Reqb (fst (coords l)) (fst (coords (location e)))) ||
                           negb (Reqb (snd (coords l)) (snd (coords (location e))))
                       | None => false
                       end then
                 _fireCallbacksForKey KeyMoved key l (VNum d) document
               else if negb inQuery && wasInQuery then
                 _fireCallbacksForKey KeyExited key l (VNum d) document
               else ret tt)
                (set_locationsTracked
                   (Dict.set key {| location := l; document := document;
                                    distanceFromCenter := d; isInQuery := inQuery;
                                    geohash := g |} (_locationsTracked w)) w)
          end
      end
  end.
Proof.
  unfold _updateLocation, bind, lift, gets, set_tracked, modify.
  destruct (validateLocation l); [|reflexivity].
  destruct (distance l (_center w)); [|reflexivity].
  destruct (encodeGeohash l g_GEOHASH_PRECISION); [|reflexivity].
  destruct (Dict.get key (_locationsTracked w)) as [[l0 ? ? ? ?]|]; reflexivity.
Qed.

Lemma fire_returns_any ev key l d doc w :
  (forall f, bodies w f = Returns) ->
  exists cs, _fireCallbacksForKey ev key l d doc w = (Ok tt, set_calls (calls w ++ cs) w).
Proof.
  intros Hb. unfold _fireCallbacksForKey, bind, gets.
  destruct l; eexists; apply forEach_call_returns; exact Hb.
Qed.

Lemma set_locationsTracked_same w : set_locationsTracked (_locationsTracked w) w = w.
Proof. destruct w; reflexivity. Qed.

Section Tracked2.
Variable ToNumber : string -> option R.




End Tracked2.

(** Property X13.  When no callback cancels the query, [_updateLocation]
    called a second time with the same key, location and document changes
    nothing: no callback is called, the world stays as the first call left
    it, and the result is that of the first call. *)
Theorem updateLocation_again key l doc w :
  (forall f, bodies w f = Returns) ->
  let w1 := snd (_updateLocation key l doc w) in
  _updateLocation key l doc w1 = (fst (_updateLocation key l doc w), w1).
Proof.
  intros Hb. cbv zeta. rewrite (updateLocation_unfold key l doc w).
  destruct (validateLocation l) as [[]|] eqn:Hv;
    [|cbn [fst snd]; rewrite updateLocation_unfold, Hv; reflexivity].
  destruct (distance l (_center w)) as [d|] eqn:Hd;
    [|cbn [fst snd]; rewrite updateLocation_unfold, Hv, Hd; reflexivity].
  destruct (encodeGeohash l g_GEOHASH_PRECISION) as [g|] eqn:Hg;
    [|cbn [fst snd]; rewrite updateLocation_unfold, Hv, Hd, Hg; reflexivity].
  cbv zeta.
  set (document := if is_undefined doc then VNull else doc).
  set (inQuery := le_radius d (_radius w)).
  set (entry := {| location := l; document := document; distanceFromCenter := d;
                   isInQuery := inQuery; geohash := g |}).
  set (w0 := set_locationsTracked (Dict.set key entry (_locationsTracked w)) w).
  assert (Hb0 : forall f, bodies w0 f = Returns) by exact Hb.
  assert (E : exists cs,
             (if inQuery && negb match Dict.get key (_locationsTracked w) with
                                 | Some e => isInQuery e | None => false end
              then _fireCallbacksForKey KeyEntered key l (VNum d) document
              else if inQuery &&
                      match Dict.get key (_locationsTracked w) with
                      | Some e =>
                          negb (Reqb (fst (coords l)) (fst (coords (location e)))) ||
                          negb (Reqb (snd (coords l)) (snd (coords (location e))))
                      | None => false
                      end
              then _fireCallbacksForKey KeyMoved key l (VNum d) document
              else if negb inQuery && match Dict.get key (_locationsTracked w) with
                                      | Some e => isInQuery e | None => false end
              then _fireCallbacksForKey KeyExited key l (VNum d) document
              else ret tt) w0 = (Ok tt, set_calls (calls w0 ++ cs) w0)).
  { destruct (_ && negb _); [apply fire_returns_any; exact Hb0|].
    destruct (_ && _); [apply fire_returns_any; exact Hb0|].
    destruct (_ && _); [apply fire_returns_any; exact Hb0|].
    exists []. unfold ret. rewrite app_nil_r. destruct w0; reflexivity. }
  destruct E as [cs ->]. cbn [fst snd].
  set (w1 := set_calls (calls w0 ++ cs) w0).
  rewrite (updateLocation_unfold key l doc w1).
  change (_center w1) with (_center w). change (_radius w1) with (_radius w).
  rewrite Hv, Hd, Hg. cbv zeta.
  change (_locationsTracked w1) with (Dict.set key entry (_locationsTracked w)).
  rewrite get_set_same. fold document. fold inQuery. fold entry.
  cbn [isInQuery location entry].
  rewrite !Reqb_true. cbn [negb orb].
  rewrite (set_same key entry) by apply get_set_same.
  replace (inQuery && negb inQuery) with false by (destruct inQuery; reflexivity).
  replace (inQuery && false) with false by (destruct inQuery; reflexivity).
  replace (negb inQuery && inQuery) with false by (destruct inQuery; reflexivity).
  reflexivity.
Qed.

(** ** updateCriteria and the locations tracked *)







(** ** GeoFirestore: what is written and read back *)

Lemma validateKey_nonempty key : validateKey (VStr key) = Ok tt -> (JsString.len key =? 0) = false.
Proof.
  unfold validateKey. destruct (JsString.len key =? 0); [discriminate | reflexivity].
Qed.

(** Property X10.  [set(key, location)] with a valid key and location
    issues one write of a record; [get] reads the location back from that
    record, the geohash stored under [g] is the hash of the location at ten
    characters, [remove] issues the delete of the document, and [get]
    answers [null] for a document that does not exist. *)
Theorem set_then_get key lat lon :
  validateKey (VStr key) = Ok tt ->
  (-90 <= lat <= 90)%R -> (-180 <= lon <= 180)%R ->
  exists data g,
    GeoFirestore_set (VStr key) (loc lat lon) = Ok [DocSet key data] /\
    GeoFirestore_get (VStr key) = Ok (VStr key) /\
    GeoFirestore_get_then {| id := key; exists_ := true; data := data |} = Ok (loc lat lon) /\
    encodeGeohash (loc lat lon) g_GEOHASH_PRECISION = Ok g /\
    get_field data "g" = Ok (VStr g) /\
    GeoFirestore_remove (VStr key) = Ok [DocDelete key] /\
    GeoFirestore_get_then {| id := key; exists_ := false; data := VUndefined |} = Ok VNull.
Proof.
  intros Hk Hlat Hlon.
  pose proof (validateLocation_ok lat lon Hlat Hlon) as Hv.
  destruct (encodeGeohash_spec (loc lat lon) g_GEOHASH_PRECISION Hv
              ltac:(unfold g_GEOHASH_PRECISION; lia)) as (g & Hg & _ & Hvalid).
  exists (VObj [(".priority", VStr g); ("g", VStr g); ("l", loc lat lon)]), g.
  unfold GeoFirestore_remove, GeoFirestore_set, GeoFirestore_get, encodeGeoFireObject.
  rewrite (validateKey_nonempty key Hk), Hk. cbn [negb bind_result].
  change (match loc lat lon with VNull => _ | _ => ?x end) with x.
  rewrite Hv, Hg. cbn [bind_result]. rewrite Hvalid. cbn [bind_result].
  repeat split; reflexivity.
Qed.

(** ** Ranges as keys of the dictionary *)

Lemma split_from_plain cur s :
  Forall (fun c => c <> ":"%char) (list_ascii_of_string s) ->
  split_from ":" cur s = [cur ++ s].
Proof.
  revert cur. induction s as [|c s IH]; intros cur H; cbn [split_from].
  - now rewrite string_app_nil_r.
  - inversion H as [|? ? Hc Hs]; subst.
    destruct (Ascii.eqb c ":") eqn:E; [apply Ascii.eqb_eq in E; contradiction|].
    rewrite IH by exact Hs. now rewrite string_app_assoc.
Qed.

Lemma split_from_colon cur s t :
  Forall (fun c => c <> ":"%char) (list_ascii_of_string s) ->
  split_from ":" cur (s ++ String ":" t) = (cur ++ s) :: split_from ":" EmptyString t.
Proof.
  revert cur. induction s as [|c s IH]; intros cur H; cbn [split_from append].
  - cbn. now rewrite string_app_nil_r.
  - inversion H as [|? ? Hc Hs]; subst.
    destruct (Ascii.eqb c ":") eqn:E; [apply Ascii.eqb_eq in E; contradiction|].
    rewrite IH by exact Hs. now rewrite string_app_assoc.
Qed.

Lemma stringToQuery_queryToString s e :
  Forall (fun c => c <> ":"%char) (list_ascii_of_string s) ->
  Forall (fun c => c <> ":"%char) (list_ascii_of_string e) ->
  _stringToQuery (_queryToString (s, e)) = Ok (s, e).
Proof.
  intros Hs He. unfold _stringToQuery, _queryToString, split. cbn [fst snd].
  change (s ++ ":" ++ e) with (s ++ String ":" e).
  rewrite split_from_colon by exact Hs. rewrite split_from_plain by exact He.
  reflexivity.
Qed.






(** ** The ranges queried and their listeners *)

Lemma delete_absent {V} k (d : Dict.t V) : ~ In k (Dict.keys d) -> Dict.delete k d = d.
Proof.
  unfold Dict.delete, Dict.keys. induction d as [|[k' v] d IH]; cbn; [reflexivity|].
  intros H. destruct (String.eqb k k') eqn:E.
  - apply String.eqb_eq in E. subst. exfalso. apply H. now left.
  - cbn. f_equal. apply IH. intros Hin. apply H. now right.
Qed.

Lemma delete_app {V} k (d1 d2 : Dict.t V) :
  Dict.delete k (d1 ++ d2)%list = (Dict.delete k d1 ++ Dict.delete k d2)%list.
Proof. unfold Dict.delete. apply filter_app. Qed.

Lemma get_app_absent {V} k (d1 d2 : Dict.t V) :
  ~ In k (Dict.keys d1) -> Dict.get k (d1 ++ d2)%list = Dict.get k d2.
Proof.
  unfold Dict.get, Dict.keys. induction d1 as [|[k' v] d1 IH]; cbn; [reflexivity|].
  intros H. destruct (String.eqb k k') eqn:E.
  - apply String.eqb_eq in E. subst. exfalso. apply H. now left.
  - apply IH. intros Hin. apply H. now right.
Qed.

Lemma without_handles_remove h1 h2 hs ls :
  without_handles hs (remove_handle h2 (remove_handle h1 ls)) = without_handles (h1 :: h2 :: hs) ls.
Proof.
  unfold without_handles, remove_handle. induction ls as [|[h l] ls IH]; cbn; [reflexivity|].
  rewrite (Nat.eqb_sym h h1), (Nat.eqb_sym h h2).
  destruct (Nat.eqb h1 h); cbn; [exact IH|].
  destruct (Nat.eqb h2 h); cbn; [exact IH|].
  destruct (existsb (Nat.eqb h) hs); cbn; [exact IH | f_equal; exact IH].
Qed.

Lemma without_handles_app hs1 hs2 ls :
  without_handles hs2 (without_handles hs1 ls) = without_handles (hs1 ++ hs2) ls.
Proof.
  unfold without_handles. induction ls as [|[h l] ls IH]; cbn; [reflexivity|].
  rewrite existsb_app.
  destruct (existsb (Nat.eqb h) hs1); cbn; [exact IH|].
  destruct (existsb (Nat.eqb h) hs2); cbn; [exact IH | f_equal; exact IH].
Qed.

Lemma without_handles_nil ls : without_handles [] ls = ls.
Proof. unfold without_handles. induction ls as [|l ls IH]; cbn; [reflexivity | now f_equal]. Qed.

Lemma cancelGeohashQuery_eval q s w :
  _cancelGeohashQuery q s w =
  (Ok tt, set_listeners (remove_handle (valueCallback s)
                           (remove_handle (childCallback s) (listeners w))) w).
Proof. destruct w; reflexivity. Qed.

(** The loop of [cancel]: every range is unsubscribed and deleted. *)
Lemma cancel_ranges_loop d : forall w,
  _currentGeohashesQueried w = d ->
  ranges_wf d = true -> NoDup (Dict.keys d) ->
  cancel_ranges w =
  (Ok tt, set_currentGeohashesQueried []
            (set_listeners (without_handles (range_handles d) (listeners w)) w)).
Proof.
  unfold cancel_ranges, bind at 1, gets at 1.
  induction d as [|[k v] d IH]; intros w Hd Hwf Hnd; rewrite Hd.
  - cbn. rewrite without_handles_nil. destruct w; cbn in *; subst; reflexivity.
  - cbn [Dict.keys map fst forEach].
    unfold ranges_wf in Hwf. cbn [Dict.keys map fst forallb] in Hwf.
    apply andb_prop in Hwf as [Hk Hwf].
    inversion Hnd as [|? ? Hnotin Hnd']; subst.
    unfold bind at 1. unfold bind at 1. unfold lift at 1.
    destruct (_stringToQuery k) as [q|]; [|discriminate].
    unfold bind at 1. unfold gets at 1. rewrite Hd.
    unfold Dict.get at 1. cbn [lookup]. rewrite String.eqb_refl.
    unfold bind at 1. rewrite cancelGeohashQuery_eval. unfold modify at 1.
    set (w1 := set_currentGeohashesQueried _ _).
    assert (Hd1 : _currentGeohashesQueried w1 = d).
    { unfold w1. cbn. rewrite Hd. unfold Dict.delete. cbn [filter fst].
      rewrite String.eqb_refl. cbn [negb]. now apply delete_absent. }
    specialize (IH w1 Hd1 Hwf Hnd'). rewrite Hd1 in IH.
    cbv beta iota. fold (Dict.keys d). rewrite IH.
    f_equal. unfold w1. cbn [range_handles flat_map snd app].
    fold (range_handles d).
    rewrite <- without_handles_remove. destruct w; reflexivity.
Qed.

Lemma cancel_eval w :
  ranges_wf (_currentGeohashesQueried w) = true ->
  nodupb (Dict.keys (_currentGeohashesQueried w)) = true ->
  cancel w =
  (Ok tt,
   set_calls (calls w ++ [CancelReturned])
     (set_timers (match _cleanUpCurrentGeohashesQueriedInterval w with
                  | Some h => remove_handle h (timers w)
                  | None => timers w
                  end)
        (set_locationsTracked []
           (set_currentGeohashesQueried []
              (set_listeners (without_handles (range_handles (_currentGeohashesQueried w))
                                              (listeners w))
                 (set_callbacks no_callbacks (set_cancelled true w))))))).
Proof.
  intros Hwf Hnd.
  assert (E : cancel w =
              (cancel_ranges ;;
               modify (set_locationsTracked []) ;;
               interval <- gets _cleanUpCurrentGeohashesQueriedInterval ;;
               clearTimer interval ;;
               modify (fun w => set_calls (calls w ++ [CancelReturned]) w))
                (set_callbacks no_callbacks (set_cancelled true w))) by reflexivity.
  rewrite E. unfold bind at 1.
  rewrite (cancel_ranges_loop (_currentGeohashesQueried w)); try assumption;
    [|reflexivity | now apply nodupb_NoDup].
  unfold bind, modify, gets, clearTimer.
  destruct w as [? ? ? ? ? ? ? [h|] ? ? ? ? ? ? ? ?]; reflexivity.
Qed.

(** The first loop of the clean up: the ranges marked inactive are
    unsubscribed and deleted, the others are kept. *)
Lemma cleanUp_queries_loop d : forall pre w,
  _currentGeohashesQueried w = (pre ++ d)%list ->
  ranges_wf d = true -> NoDup (Dict.keys d) ->
  (forall k, In k (Dict.keys d) -> ~ In k (Dict.keys pre)) ->
  forEach (fun geohashQueryStr =>
    queryState <- gets (fun w => Dict.get geohashQueryStr (_currentGeohashesQueried w)) ;;
    match queryState with
    | None => throw (TypeError "Cannot read property 'active' of undefined")
    | Some queryState =>
        when (negb (active queryState))
          (query <- lift (_stringToQuery geohashQueryStr) ;;
           _cancelGeohashQuery query queryState ;;
           modify (fun w => set_currentGeohashesQueried
                     (Dict.delete geohashQueryStr (_currentGeohashesQueried w)) w))
    end) (Dict.keys d) w =
  (Ok tt,
   set_currentGeohashesQueried (pre ++ filter (fun e => active (snd e)) d)%list
     (set_listeners
        (without_handles (range_handles (filter (fun e => negb (active (snd e))) d))
                         (listeners w)) w)).
Proof.
  induction d as [|[k v] d IH]; intros pre w Hd Hwf Hnd Hdis.
  - cbn. rewrite without_handles_nil, app_nil_r in *. destruct w; cbn in *; subst; reflexivity.
  - cbn [Dict.keys map fst forEach].
    unfold ranges_wf in Hwf. cbn [Dict.keys map fst forallb] in Hwf.
    apply andb_prop in Hwf as [Hk Hwf].
    inversion Hnd as [|? ? Hnotin Hnd']; subst.
    assert (Hpre : ~ In k (Dict.keys pre)) by (apply Hdis; now left).
    unfold bind at 1. unfold bind at 1. unfold gets at 1. rewrite Hd.
    rewrite get_app_absent by exact Hpre.
    unfold Dict.get at 1. cbn [lookup]. rewrite String.eqb_refl.
    cbn [filter snd]. destruct (active v) eqn:Ha; cbn [negb when].
    + unfold ret at 1. fold (Dict.keys d).
      rewrite (IH (pre ++ [(k, v)])%list w).
      * rewrite <- app_assoc. reflexivity.
      * rewrite Hd, <- app_assoc. reflexivity.
      * exact Hwf.
      * exact Hnd'.
      * intros k' Hk' Hin. unfold Dict.keys in Hin. rewrite map_app in Hin.
        apply in_app_or in Hin as [Hin|[<-|[]]].
        -- apply (Hdis k'); [now right | exact Hin].
        -- contradiction.
    + unfold bind at 1. unfold lift at 1.
      destruct (_stringToQuery k) as [q|]; [|discriminate].
      unfold bind at 1. rewrite cancelGeohashQuery_eval. unfold modify at 1.
      set (w1 := set_currentGeohashesQueried _ _).
      assert (Hd1 : _currentGeohashesQueried w1 = (pre ++ d)%list).
      { unfold w1. cbn [_currentGeohashesQueried set_currentGeohashesQueried set_listeners].
        rewrite Hd, delete_app.
        rewrite (delete_absent k pre Hpre). f_equal.
        unfold Dict.delete. cbn [filter fst]. rewrite String.eqb_refl. cbn [negb].
        now apply delete_absent. }
      fold (Dict.keys d).
      rewrite (IH pre w1 Hd1 Hwf Hnd'); [|intros k' Hk'; apply Hdis; now right].
      f_equal. unfold w1. cbn [range_handles flat_map snd app].
      fold (range_handles (filter (fun e => negb (active (snd e))) d)).
      rewrite <- without_handles_remove. destruct w; reflexivity.
Qed.

Lemma cleanUp_queries_eval w :
  ranges_wf (_currentGeohashesQueried w) = true ->
  nodupb (Dict.keys (_currentGeohashesQueried w)) = true ->
  cleanUp_queries w =
  (Ok tt,
   set_currentGeohashesQueried
     (filter (fun e => active (snd e)) (_currentGeohashesQueried w))
     (set_listeners
        (without_handles
           (range_handles (filter (fun e => negb (active (snd e)))
                                  (_currentGeohashesQueried w)))
           (listeners w)) w)).
Proof.
  intros Hwf Hnd. unfold cleanUp_queries, bind at 1, gets at 1.
  apply (cleanUp_queries_loop (_currentGeohashesQueried w) [] w);
    [reflexivity | exact Hwf | now apply nodupb_NoDup | intros k _ []].
Qed.

(** ** The ready event *)


(** [splice(indexOf(q), 1)], done when the index is not [-1], on a list
    without duplicates: [q] is removed. *)
Lemma splice_indexOf_remove q l :
  NoDup l ->
  (if indexOf String.eqb q l >? -1 then splice1 (indexOf String.eqb q l) l else l) =
  List.remove string_dec q l.
Proof.
  unfold indexOf, splice1.
  assert (G : forall l i, 0 <= i -> NoDup l ->
            (indexOf_from String.eqb q l i = -1 /\ List.remove string_dec q l = l) \/
            (i <= indexOf_from String.eqb q l i /\
             remove_at (Z.to_nat (indexOf_from String.eqb q l i - i)) l =
             List.remove string_dec q l /\
             indexOf_from String.eqb q l i - i < Z.of_nat (List.length l))).
  { clear l. induction l as [|x l IH]; intros i Hi Hnd; [left; split; reflexivity|].
    inversion Hnd as [|? ? Hx Hnd']; subst. cbn [indexOf_from List.remove].
    destruct (String.eqb q x) eqn:E.
    - apply String.eqb_eq in E. subst x. right. split; [lia|].
      replace (i - i) with 0 by lia. cbn [Z.to_nat remove_at List.length].
      destruct (string_dec q q); [|contradiction]. split; [|lia].
      symmetry. now apply notin_remove.
    - apply String.eqb_neq in E. destruct (string_dec q x); [contradiction|].
      destruct (IH (i + 1) ltac:(lia) Hnd') as [[H1 H2]|(H1 & H2 & H3)].
      + left. split; [exact H1 | now rewrite H2].
      + right. split; [lia|]. split.
        * replace (Z.to_nat (indexOf_from String.eqb q l (i + 1) - i))
            with (S (Z.to_nat (indexOf_from String.eqb q l (i + 1) - (i + 1)))) by lia.
          cbn [remove_at]. now rewrite H2.
        * cbn [List.length]. lia. }
  intros Hnd. destruct (G l 0 ltac:(lia) Hnd) as [[H1 H2]|(H1 & H2 & H3)].
  - rewrite H1. cbn. now rewrite H2.
  - rewrite Z.sub_0_r in H2, H3.
    destruct (_ >? -1) eqn:E; [|rewrite Z.gtb_ltb in E; apply Z.ltb_ge in E; lia].
    destruct (_ <? 0) eqn:E'; [apply Z.ltb_lt in E'; lia|].
    rewrite Z.min_l by lia. exact H2.
Qed.

(** Property X19.  The first snapshot of a range arrives, and no callback
    cancels the query: the listener unsubscribes itself, the range is no
    longer awaited, and the [ready] callbacks are called, once each and in
    the order of their registration, exactly when no other range is
    awaited. *)
Theorem value_listener_eval h q w :
  (forall f, bodies w f = Returns) ->
  NoDup (_outstandingGeohashReadyEvents w) ->
  let awaited := List.remove string_dec q (_outstandingGeohashReadyEvents w) in
  let fired := Nat.eqb (List.length awaited) 0 in
  value_listener h q w =
  (Ok tt,
   set_calls (calls w ++ if fired then map CallReady (ready (_callbacks w)) else [])
     (set_valueEventFired fired
        (set_outstandingGeohashReadyEvents awaited
           (set_listeners (remove_handle h (listeners w)) w)))).
Proof.
  intros Hb Hnd. cbv zeta.
  pose proof (splice_indexOf_remove q _ Hnd) as Hs.
  unfold value_listener, unsubscribe, _geohashQueryReadyCallback.
  unfold bind at 1. unfold modify at 1. unfold bind at 1. unfold bind at 1.
  unfold gets at 1.
  set (w1 := set_listeners _ w).
  change (_outstandingGeohashReadyEvents w1) with (_outstandingGeohashReadyEvents w).
  set (l := _outstandingGeohashReadyEvents w) in *.
  assert (E : when (indexOf String.eqb q l >? -1)
                (modify (fun w0 => set_outstandingGeohashReadyEvents
                           (splice1 (indexOf String.eqb q l)
                                    (_outstandingGeohashReadyEvents w0)) w0)) w1 =
              (Ok tt, set_outstandingGeohashReadyEvents (List.remove string_dec q l) w1)).
  { destruct (indexOf String.eqb q l >? -1); cbn [when]; unfold modify, ret.
    - change (_outstandingGeohashReadyEvents w1) with l. now rewrite Hs.
    - rewrite <- Hs. destruct w; reflexivity. }
  cbv beta iota. rewrite E. clear E.
  set (awaited := List.remove string_dec q l).
  unfold bind at 1. unfold modify at 1. unfold bind at 1. unfold gets at 1.
  cbn [_valueEventFired set_valueEventFired _outstandingGeohashReadyEvents
       set_outstandingGeohashReadyEvents].
  destruct (Nat.eqb (List.length awaited) 0); cbn [when].
  - unfold _fireReadyEventCallbacks, bind, gets.
    rewrite forEach_call_returns by exact Hb. destruct w; reflexivity.
  - unfold ret. rewrite app_nil_r. destruct w; reflexivity.
Qed.

(** ** Callbacks registered for locations already in the query *)

Lemma on_key_entered_loop f (d : Dict.t LocationTracked) : forall pre w,
  bodies w f = Returns ->
  _locationsTracked w = (pre ++ d)%list ->
  NoDup (Dict.keys d) ->
  (forall k, In k (Dict.keys d) -> ~ In k (Dict.keys pre)) ->
  forEach (fun key =>
    locationDict <- gets (fun w => Dict.get key (_locationsTracked w)) ;;
    match locationDict with
    | Some locationDict =>
        when (isInQuery locationDict)
          (call f (CallKey f KeyEntered key (location locationDict)
                     (VNum (distanceFromCenter locationDict))
                     (document locationDict)))
    | None => ret tt
    end) (Dict.keys d) w =
  (Ok tt, set_calls (calls w ++ replayed_calls f d) w).
Proof.
  induction d as [|[k v] d IH]; intros pre w Hb Ht Hnd Hdis.
  - cbn. rewrite app_nil_r. destruct w; reflexivity.
  - cbn [Dict.keys map fst forEach].
    inversion Hnd as [|? ? Hnotin Hnd']; subst.
    assert (Hpre : ~ In k (Dict.keys pre)) by (apply Hdis; now left).
    unfold bind at 1. unfold bind at 1. unfold gets at 1. rewrite Ht.
    rewrite get_app_absent by exact Hpre.
    unfold Dict.get at 1. cbn [lookup]. rewrite String.eqb_refl.
    unfold replayed_calls. cbn [filter snd fst].
    assert (Hdis' : forall k', In k' (Dict.keys d) -> ~ In k' (Dict.keys (pre ++ [(k, v)])%list)).
    { intros k' Hk' Hin. unfold Dict.keys in Hin. rewrite map_app in Hin.
      apply in_app_or in Hin as [Hin|[<-|[]]].
      - apply (Hdis k'); [now right | exact Hin].
      - contradiction. }
    destruct (isInQuery v); cbn [when map].
    + unfold call, bind, modify, gets. cbn [bodies set_calls]. rewrite Hb. unfold ret.
      fold (Dict.keys d).
      rewrite (IH (pre ++ [(k, v)])%list); try assumption.
      * cbn [calls set_calls]. rewrite <- app_assoc. destruct w; reflexivity.
      * cbn. rewrite Ht, <- app_assoc. reflexivity.
    + unfold ret at 1. fold (Dict.keys d).
      rewrite (IH (pre ++ [(k, v)])%list); try assumption; try reflexivity.
      rewrite Ht, <- app_assoc. reflexivity.
Qed.

(** [on('key_entered', f)]: the callback is registered and called for the
    locations already in the query. *)
Lemma on_key_entered_eval f w :
  bodies w f = Returns ->
  nodupb (Dict.keys (_locationsTracked w)) = true ->
  on "key_entered" (VFun f) w =
  (Ok {| _cancelCallback := Some (RemoveCallback KeyEntered f) |},
   set_calls (calls w ++ replayed_calls f (_locationsTracked w))
     (set_callbacks
        (set_callbacks_for KeyEntered (key_entered (_callbacks w) ++ [f]) (_callbacks w)) w)).
Proof.
  intros Hb Hnd. unfold on. cbn [eventType_of_string String.eqb Ascii.eqb Bool.eqb].
  change (eventType_of_string "key_entered") with (Some KeyEntered). cbv beta iota.
  unfold bind at 1. unfold modify at 1. unfold bind at 1. unfold bind at 1.
  unfold gets at 1.
  set (w1 := set_callbacks _ w).
  change (_locationsTracked w1) with (_locationsTracked w).
  rewrite (on_key_entered_loop f (_locationsTracked w) [] w1 Hb eq_refl
             (nodupb_NoDup _ Hnd) (fun k _ H => H)).
  reflexivity.
Qed.

(** ** Listening for the ranges wanted *)










Lemma digits_no_colon s : forall acc n,
  Dict.digits acc s = Some n -> Forall (fun c => c <> ":"%char) (list_ascii_of_string s).
Proof.
  induction s as [|c s IH]; intros acc n H; cbn in *; constructor.
  - intros ->. cbn in H. discriminate.
  - destruct (Dict.digit c); [|discriminate]. eapply IH. exact H.
Qed.

Lemma array_index_digits k : Dict.array_index k <> None -> Dict.digits 0 k <> None.
Proof.
  destruct k as [|[[] [] [] [] [] [] [] []] [|c' k']]; cbv beta iota delta [Dict.array_index];
    try congruence; try (intros _; cbn; congruence);
    intros H E; rewrite E in H; congruence.
Qed.

(** A key of the form [start:end] is no array index. *)
Lemma stringToQuery_not_index s :
  is_ok (_stringToQuery s) = true -> Dict.array_index s = None.
Proof.
  intros H. destruct (Dict.array_index s) eqn:E; [|reflexivity]. exfalso.
  assert (Hd : Dict.digits 0 s <> None) by (apply array_index_digits; congruence).
  destruct (Dict.digits 0 s) as [n'|] eqn:Ed; [|congruence].
  apply digits_no_colon in Ed.
  unfold _stringToQuery, split in H. rewrite split_from_plain in H by exact Ed.
  discriminate.
Qed.








(** ** A query is built *)






Section Built.
Local Open Scope R_scope.


End Built.




Section Sweep.
Variable ToNumber : string -> option R.

Lemma delete_middle {V} k (v : V) pre post :
  NoDup (Dict.keys (pre ++ (k, v) :: post)%list) ->
  Dict.delete k (pre ++ (k, v) :: post)%list = (pre ++ post)%list.
Proof.
  intros Hnd. unfold Dict.keys in Hnd. rewrite map_app in Hnd. cbn [map fst] in Hnd.
  apply NoDup_remove_2 in Hnd.
  rewrite delete_app. unfold Dict.delete at 2. cbn [filter fst].
  rewrite String.eqb_refl. cbn [negb]. fold (Dict.delete k post).
  rewrite !delete_absent; [reflexivity | |];
    intros Hin; apply Hnd; apply in_or_app; [right | left]; exact Hin.
Qed.

Lemma NoDup_keys_remove {V} k (v : V) pre post :
  NoDup (Dict.keys (pre ++ (k, v) :: post)%list) -> NoDup (Dict.keys (pre ++ post)%list).
Proof.
  unfold Dict.keys. rewrite !map_app. cbn [map fst]. apply NoDup_remove_1.
Qed.

Lemma get_middle {V} k (v : V) pre post :
  NoDup (Dict.keys (pre ++ (k, v) :: post)%list) ->
  Dict.get k (pre ++ (k, v) :: post)%list = Some v.
Proof.
  intros Hnd. unfold Dict.keys in Hnd. rewrite map_app in Hnd. cbn [map fst] in Hnd.
  apply NoDup_remove_2 in Hnd.
  rewrite get_app_absent by (intros Hin; apply Hnd; apply in_or_app; now left).
  unfold Dict.get. cbn [lookup]. now rewrite String.eqb_refl.
Qed.

(** The second loop of the clean up when no key is both out of every
    range and in the query: the keys out of every range are deleted. *)
Lemma cleanUp_locations_to_end d : forall pre w,
  ranges_wf (_currentGeohashesQueried w) = true ->
  _locationsTracked w = (pre ++ d)%list ->
  NoDup (Dict.keys (pre ++ d)%list) ->
  (forall k e, In (k, e) d ->
     covered ToNumber (_currentGeohashesQueried w) (geohash e) = false ->
     isInQuery e = false) ->
  forEach (cleanUp_location ToNumber) (Dict.keys d) w =
  (Ok tt,
   set_locationsTracked
     (pre ++ filter (fun kv => covered ToNumber (_currentGeohashesQueried w) (geohash (snd kv)))
                    d)%list w).
Proof.
  induction d as [|[k e] d IH]; intros pre w Hwf Ht Hnd Hall.
  - cbn. rewrite <- Ht. now rewrite set_locationsTracked_same.
  - cbn [Dict.keys map fst forEach]. fold (Dict.keys d). unfold bind at 1.
    rewrite (cleanUp_location_cases ToNumber w k e Hwf)
      by (rewrite Ht; now apply get_middle).
    cbn [filter snd].
    destruct (covered ToNumber (_currentGeohashesQueried w) (geohash e)) eqn:Hcov.
    + rewrite (IH (pre ++ [(k, e)])%list w Hwf).
      * now rewrite <- app_assoc.
      * now rewrite <- app_assoc.
      * now rewrite <- app_assoc.
      * intros k' e' Hin'. apply (Hall k' e'). now right.
    + rewrite (Hall k e (or_introl eq_refl) Hcov).
      set (w1 := set_locationsTracked _ w).
      assert (Ht1 : _locationsTracked w1 = (pre ++ d)%list).
      { unfold w1. cbn. rewrite Ht. now apply delete_middle. }
      rewrite (IH pre w1 Hwf Ht1 (NoDup_keys_remove _ _ _ _ Hnd)
                 (fun k' e' Hin => Hall k' e' (or_intror Hin))).
      change (_currentGeohashesQueried w1) with (_currentGeohashesQueried w).
      unfold w1. destruct w; reflexivity.
Qed.

(** The second loop when the key [k] is the first that is out of every
    range and in the query: the loop stops there with the fatal error. *)
Lemma cleanUp_locations_fatal d1 : forall pre w k e d2,
  ranges_wf (_currentGeohashesQueried w) = true ->
  _locationsTracked w = (pre ++ d1 ++ (k, e) :: d2)%list ->
  NoDup (Dict.keys (pre ++ d1 ++ (k, e) :: d2)%list) ->
  (forall k0 e0, In (k0, e0) d1 ->
     covered ToNumber (_currentGeohashesQueried w) (geohash e0) = false ->
     isInQuery e0 = false) ->
  covered ToNumber (_currentGeohashesQueried w) (geohash e) = false ->
  isInQuery e = true ->
  forEach (cleanUp_location ToNumber) (Dict.keys (d1 ++ (k, e) :: d2)%list) w =
  (Throw internal_state_error,
   set_locationsTracked
     (pre ++ filter (fun kv => covered ToNumber (_currentGeohashesQueried w) (geohash (snd kv)))
                    d1 ++ (k, e) :: d2)%list w).
Proof.
  induction d1 as [|[k1 e1] d1 IH]; intros pre w k e d2 Hwf Ht Hnd Hall Hcov Hin.
  - cbn [app Dict.keys map fst forEach filter]. unfold bind at 1.
    rewrite (cleanUp_location_cases ToNumber w k e Hwf)
      by (rewrite Ht; now apply get_middle).
    rewrite Hcov, Hin. cbn [app] in Ht. rewrite <- Ht.
    now rewrite set_locationsTracked_same.
  - cbn [app Dict.keys map fst forEach]. fold (Dict.keys (d1 ++ (k, e) :: d2)%list).
    unfold bind at 1. cbn [app] in Ht, Hnd.
    rewrite (cleanUp_location_cases ToNumber w k1 e1 Hwf)
      by (rewrite Ht; now apply get_middle).
    cbn [filter snd].
    destruct (covered ToNumber (_currentGeohashesQueried w) (geohash e1)) eqn:Hcov1.
    + rewrite (IH (pre ++ [(k1, e1)])%list w k e d2 Hwf); try assumption.
      * now rewrite <- !app_assoc.
      * now rewrite <- app_assoc.
      * now rewrite <- app_assoc.
      * intros k' e' Hin'. apply (Hall k' e'). now right.
    + rewrite (Hall k1 e1 (or_introl eq_refl) Hcov1).
      set (w1 := set_locationsTracked _ w).
      assert (Ht1 : _locationsTracked w1 = (pre ++ d1 ++ (k, e) :: d2)%list).
      { unfold w1. cbn. rewrite Ht. now apply delete_middle. }
      rewrite (IH pre w1 k e d2 Hwf Ht1 (NoDup_keys_remove _ _ _ _ Hnd)
                 (fun k' e' Hin' => Hall k' e' (or_intror Hin')) Hcov Hin).
      change (_currentGeohashesQueried w1) with (_currentGeohashesQueried w).
      unfold w1. destruct w; reflexivity.
Qed.

Lemma ranges_wf_filter (p : string * GeohashQueryState -> bool) current :
  ranges_wf current = true -> ranges_wf (filter p current) = true.
Proof.
  unfold ranges_wf, Dict.keys. rewrite !forallb_forall. intros H k Hk.
  apply in_map_iff in Hk as ([k' s] & <- & Hin). apply filter_In in Hin as [Hin _].
  apply H. apply in_map_iff. exists (k', s). auto.
Qed.

(** Claim C7, amended.  The clean up first drops the ranges that are no
    longer wanted; [covers g] is the test of the code on the ranges that
    remain, and it holds exactly when one of them has [start <= g <= end].
    The tracked keys are then visited in the order of the dictionary.  If
    [key] is the first tracked key that no remaining range covers and that
    is in the query, the clean up throws the internal state error there:
    the keys before it that no range covers (all out of the query) are
    deleted, [key] and every key after it stay tracked, covered or not, and
    the flag of the scheduled clean up is not reset.  If there is no such
    key, the clean up returns, exactly the keys that no range covers are
    deleted, and the flag is reset. *)
Theorem cleanUp_sweep (w : World) :
  ranges_wf (_currentGeohashesQueried w) = true ->
  nodupb (Dict.keys (_currentGeohashesQueried w)) = true ->
  nodupb (Dict.keys (_locationsTracked w)) = true ->
  let remaining := filter (fun r => active (snd r)) (_currentGeohashesQueried w) in
  let covers := fun kv : string * LocationTracked =>
                  covered ToNumber remaining (geohash (snd kv)) in
  let res := fst (_cleanUpCurrentGeohashesQueried ToNumber ThisQuery w) in
  let w' := snd (_cleanUpCurrentGeohashesQueried ToNumber ThisQuery w) in
  (forall g, covered ToNumber remaining g = true <-> covered_by remaining g) /\
  _currentGeohashesQueried w' = remaining /\
  (forall pre key e post,
     _locationsTracked w = (pre ++ (key, e) :: post)%list ->
     (forall k0 e0, In (k0, e0) pre -> covers (k0, e0) = false -> isInQuery e0 = false) ->
     covers (key, e) = false -> isInQuery e = true ->
     res = Throw internal_state_error /\
     _locationsTracked w' = (filter covers pre ++ (key, e) :: post)%list /\
     _geohashCleanupScheduled w' = _geohashCleanupScheduled w) /\
  ((forall k e, In (k, e) (_locationsTracked w) -> covers (k, e) = false ->
                isInQuery e = false) ->
   res = Ok tt /\
   _locationsTracked w' = filter covers (_locationsTracked w) /\
   _geohashCleanupScheduled w' = false).
Proof.
  intros Hwf Hndr Hndt remaining covers res w'.
  assert (Hwf' : ranges_wf remaining = true) by now apply ranges_wf_filter.
  set (w1 := set_currentGeohashesQueried remaining
               (set_listeners
                  (without_handles
                     (range_handles (filter (fun e => negb (active (snd e)))
                                            (_currentGeohashesQueried w)))
                     (listeners w)) w)).
  assert (E : _cleanUpCurrentGeohashesQueried ToNumber ThisQuery w =
              (cleanUp_locations ToNumber ;;
               modify (set_geohashCleanupScheduled false) ;;
               timeout <- gets _cleanUpCurrentGeohashesQueriedTimeout ;;
               match timeout with
               | Some h =>
                   clearTimer (Some h) ;;
                   modify (set_cleanUpCurrentGeohashesQueriedTimeout None)
               | None => ret tt
               end) w1).
  { cbn [_cleanUpCurrentGeohashesQueried]. unfold bind at 1.
    rewrite (cleanUp_queries_eval w Hwf Hndr). reflexivity. }
  assert (El : cleanUp_locations ToNumber w1 =
               forEach (cleanUp_location ToNumber) (Dict.keys (_locationsTracked w)) w1)
    by reflexivity.
  split; [intros g; now apply covered_iff|].
  split; [|split].
  - subst w'. rewrite E. unfold bind at 1. rewrite El.
    destruct (forEach_cleanUp_location ToNumber (Dict.keys (_locationsTracked w)) w1 Hwf'
                (nodupb_NoDup _ Hndt) (fun k => get_in_keys k _)) as (Hcur & _).
    destruct (forEach _ _ w1) as [[[]|err] w2]; cbn [fst snd] in *.
    + unfold bind, modify, gets.
      destruct (_cleanUpCurrentGeohashesQueriedTimeout _); cbn; exact Hcur.
    + exact Hcur.
  - intros pre key e post Ht Hpre Hcov Hin.
    assert (R : _cleanUpCurrentGeohashesQueried ToNumber ThisQuery w =
                (Throw internal_state_error,
                 set_locationsTracked (filter covers pre ++ (key, e) :: post)%list w1)).
    { rewrite E. unfold bind at 1. rewrite El, Ht.
      rewrite (cleanUp_locations_fatal pre [] w1 key e post Hwf' Ht
                 ltac:(rewrite <- Ht; now apply nodupb_NoDup) Hpre Hcov Hin).
      reflexivity. }
    subst res w'. rewrite R. cbn [fst snd]. repeat split.
  - intros Hall.
    assert (R : exists w2,
               _cleanUpCurrentGeohashesQueried ToNumber ThisQuery w = (Ok tt, w2) /\
               _locationsTracked w2 = filter covers (_locationsTracked w) /\
               _geohashCleanupScheduled w2 = false).
    { rewrite E. unfold bind at 1. rewrite El.
      rewrite (cleanUp_locations_to_end (_locationsTracked w) [] w1 Hwf' eq_refl
                 (nodupb_NoDup _ Hndt) Hall).
      cbn [app]. unfold bind, modify, gets.
      destruct (_cleanUpCurrentGeohashesQueriedTimeout _) eqn:Et; cbn;
        eexists; repeat split. }
    destruct R as (w2 & R & R1 & R2). subst res w'. rewrite R. cbn [fst snd]. auto.
Qed.

End Sweep.

(** ** A callback cancels the query *)

Lemma world_mid_flight_eval :
  exists d g,
    distance (loc (2 / 100) (2 / 100)) (loc 0 0) = Ok d /\
    (314 / 100 < d < 315 / 100)%R /\
    world_mid_flight =
    set_locationsTracked
      [("A", {| location := loc (2 / 100) (2 / 100); document := VNull;
                distanceFromCenter := d; isInQuery := true; geohash := g |})]
      (set_callbacks {| ready := []; key_entered := []; key_exited := [1%nat; 2%nat];
                        key_moved := [] |}
         (set_radius (VNum 1000)
            (set_center (loc 0 0) (init_fields (set_bodies first_cancels empty_world))))).
Proof.
  destruct distance_A_second as (d & Hd & Hb).
  assert (Hv : validateLocation (loc (2 / 100) (2 / 100)) = Ok tt)
    by (apply validateLocation_ok; lra).
  destruct (encodeGeohash_returns _ g_GEOHASH_PRECISION Hv) as [g Hg];
    [unfold g_GEOHASH_PRECISION; lia|].
  exists d, g. split; [exact Hd|]. split; [exact Hb|].
  set (w2 := set_callbacks _ _).
  assert (E : two_exit_callbacks (set_bodies first_cancels empty_world) =
              _updateLocation "A" (loc (2 / 100) (2 / 100)) VNull w2)
    by (unfold w2; cbv -[_updateLocation loc IZR Rdiv]; reflexivity).
  unfold world_mid_flight. rewrite E.
  rewrite (updateLocation_eval "A" _ _ VNull w2 (loc 0 0) 1000 d g Hv eq_refl eq_refl Hd
             eq_refl Hg).
  cbv zeta. change (Dict.get "A" (_locationsTracked w2)) with (@None LocationTracked).
  rewrite (Rleb_true d 1000) by lra. cbn [andb negb].
  unfold w2. cbv -[loc IZR Rdiv]. reflexivity.
Qed.

Lemma call_cancels f c w :
  bodies w f = CallsCancel -> call f c w = cancel (set_calls (calls w ++ [c]) w).
Proof.
  intros H. unfold call, bind, modify, gets. cbn [bodies set_calls]. now rewrite H.
Qed.

Lemma call_returns f c w :
  bodies w f = Returns -> call f c w = (Ok tt, set_calls (calls w ++ [c]) w).
Proof.
  intros H. unfold call, bind, modify, gets. cbn [bodies set_calls]. now rewrite H.
Qed.

(** An event is dispatched to two callbacks of which the first cancels
    the query: the second is called after [cancel()] has returned. *)
Lemma fire_first_cancels ev key lat lon d doc w f g :
  callbacks_for ev (_callbacks w) = [f; g] ->
  bodies w f = CallsCancel -> bodies w g = Returns ->
  is_undefined doc = false ->
  ranges_wf (_currentGeohashesQueried w) = true ->
  nodupb (Dict.keys (_currentGeohashesQueried w)) = true ->
  exists w',
    _fireCallbacksForKey ev key (loc lat lon) d doc w = (Ok tt, w') /\
    _callbacks w' = no_callbacks /\ _cancelled w' = true /\
    calls w' = (calls w ++ [CallKey f ev key (loc lat lon) d doc; CancelReturned;
                            CallKey g ev key (loc lat lon) d doc])%list.
Proof.
  intros Hcb Hf Hg Hdoc Hwf Hnd.
  unfold _fireCallbacksForKey, bind at 1, gets at 1. rewrite Hdoc, Hcb.
  unfold loc. cbn [forEach]. unfold bind at 1.
  rewrite (call_cancels f _ w Hf).
  rewrite (cancel_eval (set_calls _ w)) by assumption.
  unfold bind at 1. rewrite call_returns by exact Hg. cbn [ret].
  eexists. split; [reflexivity|]. cbn. rewrite <- !app_assoc. repeat split.
Qed.

(** The body of the loop of [updateCriteria] for a key that was in the
    query and is now farther from the center than the radius. *)
Lemma updateCriteria_key_exits key e w d r :
  Dict.get key (_locationsTracked w) = Some e ->
  isInQuery e = true ->
  distance (location e) (_center w) = Ok d ->
  _radius w = VNum r ->
  (r < d)%R ->
  updateCriteria_key key w =
  _fireCallbacksForKey KeyExited key (location e) (VNum d) (document e)
    (set_locationsTracked
       (Dict.set key {| location := location e; document := document e;
                        distanceFromCenter := d; isInQuery := false;
                        geohash := geohash e |} (_locationsTracked w)) w).
Proof.
  intros Hget Hin Hd Hr Hlt.
  unfold updateCriteria_key, bind, gets, lift, set_tracked, modify.
  rewrite Hget, Hd, Hr. cbn [le_radius]. rewrite (Rleb_false d r Hlt), Hin. reflexivity.
Qed.

(** Claim C4, at an input where the code departs from it.  Of two
    [ready] callbacks the first cancels the query: when the awaited range
    reports, the second is still called after [cancel()] has returned.
    Of two [key_exited] callbacks the first cancels the query: when
    [updateCriteria] shrinks the radius so that [A] leaves the query, its
    loop calls the second callback for [A] after [cancel()] has returned. *)
Theorem callbacks_called_after_cancel :
  (calls world_two_ready = [] /\
   calls (turn no_number (ValueSnapshot 1 (cell_range "0" "1")) world_two_ready) =
   [CallReady 1; CancelReturned; CallReady 2]) /\
  (calls world_mid_flight = [] /\
   exists d : R,
     (314 / 100 < d < 315 / 100)%R /\
     calls (snd (updateCriteria (VObj [("radius", VNum 1)]) world_mid_flight)) =
     [CallKey 1 KeyExited "A" (loc (2 / 100) (2 / 100)) (VNum d) VNull;
      CancelReturned;
      CallKey 2 KeyExited "A" (loc (2 / 100) (2 / 100)) (VNum d) VNull]).
Proof.
  split; [split; vm_compute; reflexivity|].
  destruct world_mid_flight_eval as (d & g & Hd & Hb & ->).
  split; [reflexivity|]. exists d. split; [exact Hb|].
  set (w3 := set_locationsTracked _ _).
  rewrite (updateCriteria_valid (VObj [("radius", VNum 1)]) VUndefined (VNum 1) w3
             (validateCriteria_radius 1 ltac:(lra)) eq_refl eq_refl).
  unfold js_or, truthy. rewrite (Reqb_false 1 0) by lra. cbn [negb].
  set (w4 := set_radius _ _).
  assert (Eloop : exists w5,
             updateCriteria_loop ["A"] w4 = (Ok tt, w5) /\
             _callbacks w5 = no_callbacks /\
             calls w5 =
             [CallKey 1 KeyExited "A" (loc (2 / 100) (2 / 100)) (VNum d) VNull;
              CancelReturned;
              CallKey 2 KeyExited "A" (loc (2 / 100) (2 / 100)) (VNum d) VNull]).
  { cbn [updateCriteria_loop]. unfold bind at 1. unfold gets at 1.
    change (_cancelled w4) with false. cbv iota. unfold bind at 1.
    rewrite (updateCriteria_key_exits "A"
               {| location := loc (2 / 100) (2 / 100); document := VNull;
                  distanceFromCenter := d; isInQuery := true; geohash := g |}
               w4 d 1 eq_refl eq_refl Hd eq_refl ltac:(lra)).
    cbn [location document geohash].
    destruct (fire_first_cancels KeyExited "A" (2 / 100) (2 / 100) (VNum d) VNull
                (set_locationsTracked
                   (Dict.set "A" {| location := loc (2 / 100) (2 / 100); document := VNull;
                                    distanceFromCenter := d; isInQuery := false;
                                    geohash := g |} (_locationsTracked w4)) w4)
                1%nat 2%nat eq_refl eq_refl eq_refl eq_refl eq_refl eq_refl)
      as (w5 & E5 & Hq5 & _ & Hc5).
    rewrite E5. exists w5. split; [reflexivity|]. split; [exact Hq5 | exact Hc5]. }
  destruct Eloop as (w5 & Eloop & Hq & Hcalls).
  unfold updateCriteria_rest. unfold bind at 1. unfold gets at 1.
  change (Dict.keys (_locationsTracked w4)) with ["A"].
  unfold bind at 1. rewrite Eloop.
  assert (K : keeps quiet (modify (set_valueEventFired false) ;; _listenForNewGeohashes))
    by keeps_with ltac:(first [apply listen_quiet | quiet_leaf]).
  destruct (K w5 Hq) as [_ Hsame]. rewrite Hsame. exact Hcalls.
Qed.

(** ** Properties of the functions of the library *)

(** Property X1.  [validateGeohash] accepts exactly the strings that are not
    empty and whose characters are all in the alphabet [g_BASE32]; every
    other string makes it throw an [Error]. *)
Theorem validateGeohash_accepts (g : string) :
  (validateGeohash g = Ok tt <->
   g <> EmptyString /\
   Forall (fun c => In c (list_ascii_of_string g_BASE32)) (list_ascii_of_string g)) /\
  (validateGeohash g = Ok tt \/ exists message, validateGeohash g = Throw (Error message)).
Proof.
  split; [apply validateGeohash_accepts_aux|].
  unfold validateGeohash.
  destruct (if JsString.len g =? 0 then _ else _) as [e|].
  - right. eexists. reflexivity.
  - left. reflexivity.
Qed.

(** Property X2.  [encodeGeohash] returns exactly when the location is valid
    and the precision is between 1 and 22.  What it returns has as many
    characters as the precision, passes [validateGeohash], and starts with
    the hash of the same location at every lower precision. *)
Theorem encodeGeohash_accepts (location : jsval) (precision : Z) :
  (is_ok (encodeGeohash location precision) = true <->
   validateLocation location = Ok tt /\ 1 <= precision <= 22) /\
  forall h, encodeGeohash location precision = Ok h ->
    JsString.len h = precision /\ validateGeohash h = Ok tt /\
    forall p, 1 <= p <= precision ->
      exists hp t, encodeGeohash location p = Ok hp /\ h = hp ++ t.
Proof.
  assert (Hret : is_ok (encodeGeohash location precision) = true ->
                 validateLocation location = Ok tt /\ 1 <= precision <= 22).
  { unfold encodeGeohash.
    destruct (validateLocation location) as [[]|]; [|discriminate]. cbn [bind_result].
    destruct (precision <=? 0) eqn:E1; [discriminate|].
    destruct (precision >? 22) eqn:E2; [discriminate|].
    intros _. split; [reflexivity|]. apply Z.leb_gt in E1.
    rewrite Z.gtb_ltb in E2. apply Z.ltb_ge in E2. lia. }
  split.
  - split; [exact Hret|]. intros [Hv Hp].
    destruct (encodeGeohash_spec location precision Hv Hp) as (h & -> & _). reflexivity.
  - intros h Eh.
    destruct Hret as [Hv Hp]; [rewrite Eh; reflexivity|].
    destruct (encodeGeohash_spec location precision Hv Hp) as (h' & Eh' & Hlen & Hvalid).
    rewrite Eh in Eh'. injection Eh' as <-.
    split; [exact Hlen|]. split; [exact Hvalid|].
    intros p Hpp.
    destruct (encodeGeohash_extends location p precision Hv) as (hp & t & Ep & Eq);
      try lia.
    exists hp, t. split; [exact Ep|]. rewrite Eh in Eq. now injection Eq.
Qed.

(** Property X3.  The hash of a location at [q] characters lies in the range
    [geohashQuery] gives for the hash of the same location cut to the
    characters that [b] bits take, whatever [q] from there to 22: the range
    computed from a sample point finds the records stored for it. *)
Theorem geohashQuery_holds_longer_hashes (location : jsval) (b q : Z) :
  validateLocation location = Ok tt ->
  1 <= b -> ceil_div b g_BITS_PER_CHAR <= q -> q <= 22 ->
  exists h g start end_,
    encodeGeohash location (ceil_div b g_BITS_PER_CHAR) = Ok h /\
    encodeGeohash location q = Ok g /\
    geohashQuery h b = Ok (start, end_) /\
    JsString.le start g = true /\ JsString.le g end_ = true.
Proof.
  intros Hv Hb Hq Hmax.
  destruct (geohashQuery_of_encodeGeohash location b q Hv Hb Hq Hmax)
    as (h & g & start & end_ & H).
  exists h, g, start, end_. exact H.
Qed.

(** ** geohashQuery on a hash shorter than the bits ask for *)

Lemma base32_before_tilde (c : ascii) :
  In c (list_ascii_of_string g_BASE32) -> Ascii.compare c "~" = Lt.
Proof.
  intros H. cbn in H.
  repeat (destruct H as [<-|H]; [reflexivity|]). contradiction.
Qed.

Lemma prefix_range (g : string) : forall h,
  Forall (fun c => In c (list_ascii_of_string g_BASE32)) (list_ascii_of_string h) ->
  (String.leb g h = true /\ String.leb h (g ++ "~") = true) <-> exists t, h = g ++ t.
Proof.
  induction g as [|a g IH]; intros h Hh.
  - split; [intros _; exists h; reflexivity|]. intros _. split.
    + unfold String.leb. destruct h; reflexivity.
    + destruct h as [|c h]; [reflexivity|].
      inversion Hh as [|? ? Hc _]; subst. unfold String.leb. cbn [append String.compare].
      rewrite (base32_before_tilde c Hc). reflexivity.
  - destruct h as [|c h].
    + split; [intros [H _]; discriminate H | intros [t Ht]; discriminate Ht].
    + inversion Hh as [|? ? Hc Hh']; subst.
      unfold String.leb. cbn [append String.compare].
      rewrite (Ascii.compare_antisym c a).
      destruct (Ascii.compare a c) eqn:E; cbn [CompOpp].
      * apply Ascii.compare_eq_iff in E. subst c.
        split.
        -- intros H. apply (IH h Hh') in H as [t ->]. exists t. reflexivity.
        -- intros [t Ht]. injection Ht as ->. apply (IH _ Hh'). exists t. reflexivity.
      * split; [intros [_ H]; discriminate H|].
        intros [t Ht]. injection Ht as <- _. rewrite ascii_compare_refl in E. discriminate.
      * split; [intros [H _]; discriminate H|].
        intros [t Ht]. injection Ht as <- _. rewrite ascii_compare_refl in E. discriminate.
Qed.

(** Property X23.  [geohashQuery] on a valid geohash that has fewer characters
    than the bits ask for returns the geohash and the geohash followed by a
    tilde; a valid geohash lies between the two exactly when it starts with
    the geohash given. *)
Theorem geohashQuery_short (g : string) (b : Z) :
  validateGeohash g = Ok tt ->
  JsString.len g < ceil_div b g_BITS_PER_CHAR ->
  geohashQuery g b = Ok (g, g ++ "~") /\
  forall h, validateGeohash h = Ok tt ->
    (JsString.le g h = true /\ JsString.le h (g ++ "~") = true <-> exists t, h = g ++ t).
Proof.
  intros Hg Hlen. split.
  - unfold geohashQuery. rewrite Hg. cbn [bind_result].
    destruct (JsString.len g <? ceil_div b g_BITS_PER_CHAR) eqn:E; [reflexivity|].
    apply Z.ltb_ge in E. lia.
  - intros h Hh. apply prefix_range.
    exact (proj2 (proj1 (validateGeohash_accepts_aux h) Hh)).
Qed.

(** Property X4.  [wrapLongitude] returns a longitude between -180 and 180
    that differs from its argument by a multiple of 360; it returns a
    longitude of that interval unchanged, and so wrapping twice is wrapping
    once. *)
Theorem wrapLongitude_range (x : R) :
  (-180 <= wrapLongitude x <= 180)%R /\
  (exists k : Z, wrapLongitude x = x + 360 * IZR k)%R /\
  ((-180 <= x <= 180)%R -> wrapLongitude x = x) /\
  wrapLongitude (wrapLongitude x) = wrapLongitude x.
Proof.
  destruct (wrapLongitude_bounds x) as (Hr & Hk & Hid).
  split; [exact Hr|]. split; [exact Hk|]. split; [exact Hid|].
  destruct (wrapLongitude_bounds (wrapLongitude x)) as (_ & _ & Hid').
  apply Hid'. exact Hr.
Qed.

(** Property X6.  For a valid center and a radius that is not negative,
    [boundingBoxCoordinates] returns nine points, the center first, and
    every one of them is a valid location. *)
Theorem boundingBoxCoordinates_locations (lat lon radius : R) :
  (-90 <= lat <= 90)%R -> (-180 <= lon <= 180)%R -> (0 <= radius)%R ->
  List.length (boundingBoxCoordinates (lat, lon) radius) = 9%nat /\
  nth_error (boundingBoxCoordinates (lat, lon) radius) 0 = Some (lat, lon) /\
  Forall (fun c => validateLocation (loc (fst c) (snd c)) = Ok tt)
         (boundingBoxCoordinates (lat, lon) radius).
Proof.
  intros Hlat Hlon Hr.
  destruct (boundingBoxCoordinates_valid lat lon radius Hlat Hlon Hr)
    as (c1 & c2 & c3 & c4 & c5 & c6 & c7 & c8 & E & Hall).
  split; [rewrite E; reflexivity|]. split; [rewrite E; reflexivity | exact Hall].
Qed.


(** Property X12.  A range whose two ends hold no colon is read back by
    [_stringToQuery] from the key [_queryToString] makes of it, and the key
    is not an array index, so the dictionary lists it in the order of
    insertion. *)
Theorem range_key_round_trip (s e : string) :
  Forall (fun c => c <> ":"%char) (list_ascii_of_string s) ->
  Forall (fun c => c <> ":"%char) (list_ascii_of_string e) ->
  _stringToQuery (_queryToString (s, e)) = Ok (s, e) /\
  Dict.array_index (_queryToString (s, e)) = None.
Proof.
  intros Hs He.
  pose proof (stringToQuery_queryToString s e Hs He) as H.
  split; [exact H|]. apply stringToQuery_not_index. rewrite H. reflexivity.
Qed.


(** Property X17.  [cancel()] on a query whose ranges are well formed
    returns; it leaves the query cancelled, with no callback, no range and
    no tracked location, it has unsubscribed the two listeners of every
    range and no other listener, and cleared the timer of the interval. *)
Theorem cancel_clears (w : World) :
  ranges_wf (_currentGeohashesQueried w) = true ->
  nodupb (Dict.keys (_currentGeohashesQueried w)) = true ->
  let w' := snd (cancel w) in
  fst (cancel w) = Ok tt /\
  _cancelled w' = true /\ _callbacks w' = no_callbacks /\
  _currentGeohashesQueried w' = [] /\ _locationsTracked w' = [] /\
  listeners w' = without_handles (range_handles (_currentGeohashesQueried w)) (listeners w) /\
  timers w' = match _cleanUpCurrentGeohashesQueriedInterval w with
              | Some h => remove_handle h (timers w)
              | None => timers w
              end /\
  calls w' = (calls w ++ [CancelReturned])%list.
Proof.
  intros Hwf Hnd. cbv zeta. rewrite (cancel_eval w Hwf Hnd). cbn [fst snd].
  repeat split.
Qed.



(** ** A document is removed *)

Lemma geohashInSomeQuery_null (ToNumber : string -> option R) keys :
  forallb (fun k => is_ok (_stringToQuery k)) keys = true ->
  (forall k q, In k keys -> _stringToQuery k = Ok q -> ToNumber (snd q) = None) ->
  _geohashInSomeQuery_loop ToNumber None keys = Ok false.
Proof.
  induction keys as [|k keys IH]; cbn [forallb _geohashInSomeQuery_loop]; intros Hwf Hn.
  - reflexivity.
  - apply andb_prop in Hwf as [Hk Hwf].
    destruct (_stringToQuery k) as [q|] eqn:E; [|discriminate]. cbn [bind_result].
    unfold in_range. rewrite (Hn k q (or_introl eq_refl) E).
    destruct (ToNumber (fst q)); apply IH; try exact Hwf;
      intros k' q' Hin; apply Hn; now right.
Qed.

(** Property X16.  A tracked key whose document was removed, once the store
    answers that the document no longer exists: the key is no longer
    tracked, and the [key_exited] callbacks are called for it, with [null]
    for the location, the distance and the document, exactly when the key
    was in the query.  The end of no range reads as a number (the ranges of
    [geohashQuery] end with a tilde). *)
Theorem removed_key_exits (ToNumber : string -> option R) (key : string)
        (e : LocationTracked) (snapshot : DocumentSnapshot) (w : World) :
  (forall f, bodies w f = Returns) ->
  ranges_wf (_currentGeohashesQueried w) = true ->
  (forall k q, In k (Dict.keys (_currentGeohashesQueried w)) ->
               _stringToQuery k = Ok q -> ToNumber (snd q) = None) ->
  Dict.get key (_locationsTracked w) = Some e ->
  exists_ snapshot = false ->
  _childRemovedCallback_then ToNumber key snapshot w =
  (Ok tt,
   set_calls (calls w ++ if isInQuery e
                         then map (key_call KeyExited key VNull VNull VNull)
                                  (key_exited (_callbacks w))
                         else [])
     (set_locationsTracked (Dict.delete key (_locationsTracked w)) w)).
Proof.
  intros Hb Hwf Hn Hget Hex.
  unfold _childRemovedCallback_then. rewrite Hex. cbn [negb].
  unfold bind at 1. unfold lift at 1. unfold bind at 1. unfold lift at 1.
  unfold bind at 1. unfold _geohashInSomeQuery, bind, gets, lift.
  rewrite (geohashInSomeQuery_null ToNumber _ Hwf Hn). cbn [negb when].
  unfold _removeLocation. unfold bind at 1. unfold gets at 1. rewrite Hget.
  unfold bind at 1. unfold modify at 1.
  destruct (isInQuery e).
  - cbn [when truthy]. unfold bind at 1. unfold gets at 1.
    unfold bind at 1. unfold ret at 1.
    unfold _fireCallbacksForKey. cbn [is_undefined]. unfold bind, gets.
    set (w' := set_locationsTracked _ w).
    change (calls w) with (calls w'). change (_callbacks w) with (_callbacks w').
    apply (forEach_call_returns (key_call KeyExited key VNull VNull VNull)).
    exact Hb.
  - cbn [when]. unfold ret. rewrite app_nil_r. destruct w; reflexivity.
Qed.

(** ** Callbacks are registered *)

(** Property X20.  [on] with one of the four event types and a callback that
    returns: the callback is added at the end of the list of its event; a
    [key_entered] callback is called at once for every tracked location that
    is in the query, in the order of the dictionary, a [ready] callback is
    called at once when the query is ready, and no other callback is
    called. *)
Theorem on_registers (name : string) (ev : EventType) (f : nat) (w : World) :
  eventType_of_string name = Some ev ->
  bodies w f = Returns ->
  nodupb (Dict.keys (_locationsTracked w)) = true ->
  on name (VFun f) w =
  (Ok {| _cancelCallback := Some (RemoveCallback ev f) |},
   set_calls (calls w ++ match ev with
                         | KeyEntered => replayed_calls f (_locationsTracked w)
                         | Ready => if _valueEventFired w then [CallReady f] else []
                         | _ => []
                         end)
     (set_callbacks
        (set_callbacks_for ev (callbacks_for ev (_callbacks w) ++ [f]) (_callbacks w)) w)).
Proof.
  intros Hev Hb Hnd.
  destruct ev.
  - unfold on. rewrite Hev. unfold bind, modify, gets, when, call, ret.
    cbn [_valueEventFired set_callbacks bodies].
    destruct (_valueEventFired w).
    + unfold bind, modify, gets. cbn [bodies set_calls set_callbacks]. rewrite Hb.
      destruct w; reflexivity.
    + rewrite app_nil_r. destruct w; reflexivity.
  - assert (name = "key_entered") as ->.
    { unfold eventType_of_string in Hev.
      destruct (String.eqb name "ready"); [discriminate|].
      destruct (String.eqb name "key_entered") eqn:E; [now apply String.eqb_eq in E|].
      destruct (String.eqb name "key_exited"); [discriminate|].
      destruct (String.eqb name "key_moved"); discriminate. }
    exact (on_key_entered_eval f w Hb Hnd).
  - unfold on. rewrite Hev. unfold bind, modify, ret.
    rewrite app_nil_r. destruct w; reflexivity.
  - unfold on. rewrite Hev. unfold bind, modify, ret.
    rewrite app_nil_r. destruct w; reflexivity.
Qed.

(** ** GeoFirestore: a mapping is written *)

Lemma own_entries_nodup props :
  NoDup (map fst props) -> own_entries (VObj props) = Ok props.
Proof.
  intros Hnd. unfold own_entries. f_equal.
  assert (G : forall l, (forall k v, In (k, v) l -> lookup k props = Some v) ->
              map (fun key => (key, match lookup key props with
                                    | Some v => v
                                    | None => VUndefined
                                    end)) (map fst l) = l).
  { induction l as [|[k v] l IH]; intros Hl; cbn [map fst]; [reflexivity|].
    rewrite (Hl k v (or_introl eq_refl)). f_equal. apply IH.
    intros k' v' Hin. apply Hl. now right. }
  apply G. clear G.
  induction props as [|[k0 v0] props IH]; intros k v Hin; [destruct Hin|].
  cbn [map fst] in Hnd. inversion Hnd as [|? ? Hk Hnd']; subst.
  destruct Hin as [E|Hin].
  - injection E as <- <-. cbn [lookup]. now rewrite String.eqb_refl.
  - cbn [lookup]. destruct (String.eqb k k0) eqn:E.
    + apply String.eqb_eq in E. subst k0. exfalso. apply Hk.
      apply in_map_iff. exists (k, v). auto.
    + apply IH; assumption.
Qed.

Lemma set_batch_spec entries : forall batch,
  (Forall valid_entry entries ->
   exists writes, set_batch entries batch = Ok (batch ++ writes)%list /\
                  Forall2 write_for entries writes) /\
  (is_ok (set_batch entries batch) = true -> Forall valid_entry entries).
Proof.
  induction entries as [|[key location] rest IH]; intros batch; cbn [set_batch].
  - split.
    + intros _. exists []. rewrite app_nil_r. split; [reflexivity | constructor].
    + intros _. constructor.
  - split.
    + intros Hall. inversion Hall as [|? ? [Hk Hl] Hrest]; subst. cbn [fst snd] in Hk, Hl.
      rewrite Hk. cbn [bind_result].
      assert (Hloc : location <> VNull -> validateLocation location = Ok tt).
      { intros Hne. destruct Hl as [Hl|Hl]; [contradiction | exact Hl]. }
      assert (Hset : location <> VNull ->
                exists writes,
                  bind_result (validateLocation location) (fun _ =>
                  bind_result (encodeGeohash location g_GEOHASH_PRECISION) (fun geohash =>
                  bind_result (encodeGeoFireObject location geohash) (fun data =>
                  set_batch rest (batch ++ [BatchSet key data])))) =
                  Ok (batch ++ writes)%list /\
                  Forall2 write_for ((key, location) :: rest) writes).
      { intros Hne. pose proof (Hloc Hne) as Hv. rewrite Hv. cbn [bind_result].
        destruct (encodeGeohash_spec location g_GEOHASH_PRECISION Hv
                    ltac:(unfold g_GEOHASH_PRECISION; lia))
          as (g & Eg & _ & Hg).
        rewrite Eg. cbn [bind_result]. unfold encodeGeoFireObject.
        rewrite Hv, Hg. cbn [bind_result].
        destruct (proj1 (IH (batch ++ [BatchSet key
                   (VObj [(".priority", VStr g); ("g", VStr g); ("l", location)])])%list)
                        Hrest) as (writes & E & Hw).
        exists (BatchSet key (VObj [(".priority", VStr g); ("g", VStr g); ("l", location)])
                  :: writes).
        rewrite E, <- app_assoc. split; [reflexivity|].
        constructor; [|exact Hw]. unfold write_for. cbn [fst snd].
        destruct location; try (exists g; split; [exact Eg | reflexivity]).
        congruence. }
      destruct location; try (apply Hset; discriminate).
      destruct (proj1 (IH (batch ++ [BatchDelete key])%list) Hrest) as (writes & E & Hw).
      exists (BatchDelete key :: writes). rewrite E, <- app_assoc.
      split; [reflexivity|]. constructor; [reflexivity | exact Hw].
    + destruct (validateKey (VStr key)) as [[]|] eqn:Hk; [|discriminate].
      cbn [bind_result].
      assert (Hset : is_ok (bind_result (validateLocation location) (fun _ =>
                  bind_result (encodeGeohash location g_GEOHASH_PRECISION) (fun geohash =>
                  bind_result (encodeGeoFireObject location geohash) (fun data =>
                  set_batch rest (batch ++ [BatchSet key data]))))) = true ->
                Forall valid_entry ((key, location) :: rest)).
      { destruct (validateLocation location) as [[]|] eqn:Hv; [|discriminate].
        cbn [bind_result].
        destruct (encodeGeohash location g_GEOHASH_PRECISION) as [g|]; [|discriminate].
        cbn [bind_result].
        destruct (encodeGeoFireObject location g) as [data|]; [|discriminate].
        cbn [bind_result]. intros H. constructor.
        - split; [exact Hk | right; exact Hv].
        - exact (proj2 (IH _) H). }
      destruct location; try exact Hset.
      intros H. constructor.
      * split; [exact Hk | left; reflexivity].
      * exact (proj2 (IH _) H).
Qed.

(** Property X11.  [set] with a mapping returns exactly when every key of
    the mapping is valid and every value is [null] or a valid location; the
    batch it commits then holds one write for every key, in the order of the
    keys: a delete for [null], and otherwise the record of the location
    under its geohash of ten characters.  When an entry is not valid [set]
    throws and nothing is committed. *)
Theorem set_mapping_writes (props : list (string * jsval)) :
  NoDup (map fst props) ->
  (is_ok (GeoFirestore_set (VObj props) VUndefined) = true <->
   Forall valid_entry props) /\
  (forall writes, GeoFirestore_set (VObj props) VUndefined = Ok writes ->
                  Forall2 write_for props writes).
Proof.
  intros Hnd.
  assert (E : GeoFirestore_set (VObj props) VUndefined = set_batch props []).
  { unfold GeoFirestore_set. cbn [typeof is_undefined negb].
    rewrite (own_entries_nodup props Hnd). reflexivity. }
  rewrite E. destruct (set_batch_spec props []) as [H1 H2].
  split; [split|].
  - exact H2.
  - intros Hall. destruct (H1 Hall) as (writes & -> & _). reflexivity.
  - intros writes Ew.
    destruct (H1 (H2 ltac:(rewrite Ew; reflexivity))) as (writes' & Ew' & Hw).
    rewrite Ew in Ew'. cbn [app] in Ew'. injection Ew' as ->. exact Hw.
Qed.

(** ** The theorems at concrete inputs *)

Lemma geohashQuery_contains_witness :
  validateGeohash "7zzzzz" = Ok tt /\ 0 <= 28 /\
  ceil_div 28 g_BITS_PER_CHAR <= JsString.len "7zzzzz" /\
  exists start end_,
    geohashQuery "7zzzzz" 28 = Ok (start, end_) /\
    JsString.le start "7zzzzz" = true /\ JsString.le "7zzzzz" end_ = true /\
    forall h, validateGeohash h = Ok tt ->
      (shares_top_bits 28 "7zzzzz" h <->
       JsString.le start h = true /\ JsString.le h end_ = true /\ h <> end_).
Proof.
  split; [reflexivity|]. split; [lia|]. split; [vm_compute; discriminate|].
  apply (geohashQuery_contains "7zzzzz" 28); [reflexivity | lia | vm_compute; discriminate].
Defined.

Lemma key_A_enters_then_moves_or_exits_witness :
  _center world_A = loc 0 0 /\ _radius world_A = VNum 1000 /\
  (557 / 1000 <= 1000)%R /\
  Dict.get "A" (_locationsTracked world_A) = None /\
  (forall f, bodies world_A f = Returns) /\
  is_undefined VNull = false /\
  let w1 := snd (_updateLocation "A" (loc 0 (5 / 1000)) VNull world_A) in
  let w2 := snd (_updateLocation "A" (loc (2 / 100) (2 / 100)) VNull w1) in
  exists d1 d2 : R,
    (555 / 1000 < d1 < 557 / 1000)%R /\ (314 / 100 < d2 < 315 / 100)%R /\
    calls w1 = (calls world_A ++
                map (key_call KeyEntered "A" (loc 0 (5 / 1000)) (VNum d1) VNull)
                    (key_entered (_callbacks world_A)))%list /\
    ((315 / 100 <= 1000)%R ->
     calls w2 = (calls w1 ++
                 map (key_call KeyMoved "A" (loc (2 / 100) (2 / 100)) (VNum d2) VNull)
                     (key_moved (_callbacks world_A)))%list) /\
    ((1000 <= 314 / 100)%R ->
     calls w2 = (calls w1 ++
                 map (key_call KeyExited "A" (loc (2 / 100) (2 / 100)) (VNum d2) VNull)
                     (key_exited (_callbacks world_A)))%list).
Proof.
  split; [reflexivity|]. split; [reflexivity|]. split; [lra|]. split; [reflexivity|].
  split; [intros f; reflexivity|]. split; [reflexivity|].
  apply (key_A_enters_then_moves_or_exits world_A VNull 1000);
    first [reflexivity | lra | intros f; reflexivity].
Defined.

Lemma registration_cancel_once_witness :
  (forall f, bodies empty_world f = Returns) /\
  let ops := [OpOn "ready" (VFun 1); OpOn "ready" (VFun 2); OpOn "ready" (VFun 1);
              OpCancelRegistration 2] in
  let w := fst (client_run no_number ops (init_fields empty_world, [])) in
  let registrations := snd (client_run no_number ops (init_fields empty_world, [])) in
  forall i registration, nth_error registrations i = Some registration ->
    let w1 := snd (GeoCallbackRegistration_cancel registration w) in
    exists registration1,
      fst (GeoCallbackRegistration_cancel registration w) = Ok registration1 /\
      match _cancelCallback registration with
      | Some (RemoveCallback ev f) =>
          exists l1 l2,
            callbacks_for ev (_callbacks w) = (l1 ++ f :: l2)%list /\ ~ In f l1 /\
            callbacks_for ev (_callbacks w1) = (l1 ++ l2)%list /\
            forall ev', ev' <> ev ->
              callbacks_for ev' (_callbacks w1) = callbacks_for ev' (_callbacks w)
      | None => w1 = w
      end /\
      forall w2, GeoCallbackRegistration_cancel registration1 w2 = (Ok registration1, w2).
Proof.
  split; [intros f; reflexivity|].
  apply (registration_cancel_once no_number
           [OpOn "ready" (VFun 1); OpOn "ready" (VFun 2); OpOn "ready" (VFun 1);
            OpCancelRegistration 2] empty_world).
  intros f; reflexivity.
Defined.

(** Claim C10 as stated fails once the query is cancelled: the first
    [cancel()] of the registration then removes no callback. *)
Lemma registration_cancel_after_query_cancel :
  let (r, w) := registration_after_cancel empty_world in
  r = Ok {| _cancelCallback := Some (RemoveCallback KeyEntered 1) |} /\
  key_entered (_callbacks w) = [] /\
  key_entered (_callbacks (snd (GeoCallbackRegistration_cancel
                                  {| _cancelCallback := Some (RemoveCallback KeyEntered 1) |}
                                  w))) = [].
Proof. vm_compute. repeat split. Qed.

(** When another callback was registered in between, the first call removes
    that one. *)
Lemma registration_cancel_removes_another :
  let (r, w) := registration_before_another empty_world in
  r = Ok {| _cancelCallback := Some (RemoveCallback KeyEntered 1) |} /\
  key_entered (_callbacks w) = [2%nat] /\
  key_entered (_callbacks (snd (GeoCallbackRegistration_cancel
                                  {| _cancelCallback := Some (RemoveCallback KeyEntered 1) |}
                                  w))) = [].
Proof. vm_compute. repeat split. Qed.

Lemma cleanUp_sweep_witness :
  ranges_wf (_currentGeohashesQueried world_sweep) = true /\
  nodupb (Dict.keys (_currentGeohashesQueried world_sweep)) = true /\
  nodupb (Dict.keys (_locationsTracked world_sweep)) = true /\
  let w := world_sweep in
  let remaining := filter (fun r => active (snd r)) (_currentGeohashesQueried w) in
  let covers := fun kv : string * LocationTracked =>
                  covered no_number remaining (geohash (snd kv)) in
  let res := fst (_cleanUpCurrentGeohashesQueried no_number ThisQuery w) in
  let w' := snd (_cleanUpCurrentGeohashesQueried no_number ThisQuery w) in
  (forall g, covered no_number remaining g = true <-> covered_by remaining g) /\
  _currentGeohashesQueried w' = remaining /\
  (forall pre key e post,
     _locationsTracked w = (pre ++ (key, e) :: post)%list ->
     (forall k0 e0, In (k0, e0) pre -> covers (k0, e0) = false -> isInQuery e0 = false) ->
     covers (key, e) = false -> isInQuery e = true ->
     res = Throw internal_state_error /\
     _locationsTracked w' = (filter covers pre ++ (key, e) :: post)%list /\
     _geohashCleanupScheduled w' = _geohashCleanupScheduled w) /\
  ((forall k e, In (k, e) (_locationsTracked w) -> covers (k, e) = false ->
                isInQuery e = false) ->
   res = Ok tt /\
   _locationsTracked w' = filter covers (_locationsTracked w) /\
   _geohashCleanupScheduled w' = false).
Proof.
  split; [reflexivity|]. split; [reflexivity|]. split; [reflexivity|].
  apply (cleanUp_sweep no_number world_sweep); reflexivity.
Defined.

(** Claim C7 as stated fails: [C] is tracked out of the query and no
    range that remains covers its geohash, yet the clean up, which throws
    at [A], leaves [C] tracked; [B], visited before [A], is deleted. *)
Lemma cleanUp_leaves_a_key_out_of_every_range :
  let w := world_sweep in
  let remaining := filter (fun r => active (snd r)) (_currentGeohashesQueried w) in
  let res := fst (_cleanUpCurrentGeohashesQueried no_number ThisQuery w) in
  let w' := snd (_cleanUpCurrentGeohashesQueried no_number ThisQuery w) in
  exists e, Dict.get "C" (_locationsTracked w) = Some e /\
            isInQuery e = false /\ ~ covered_by remaining (geohash e) /\
            res = Throw internal_state_error /\
            Dict.get "C" (_locationsTracked w') = Some e /\
            Dict.keys (_locationsTracked w') = ["A"; "C"].
Proof.
  eexists. split; [reflexivity|]. split; [reflexivity|]. split.
  - intros Hc.
    assert (Hwf : ranges_wf (filter (fun r => active (snd r))
                                    (_currentGeohashesQueried world_sweep)) = true)
      by reflexivity.
    apply (covered_iff no_number _ _ Hwf) in Hc. discriminate.
  - repeat split.
Qed.



Lemma geohashQuery_holds_longer_hashes_witness :
  validateLocation (loc 0 0) = Ok tt /\ 1 <= 28 /\
  ceil_div 28 g_BITS_PER_CHAR <= 10 /\ 10 <= 22 /\
  exists h g start end_,
    encodeGeohash (loc 0 0) (ceil_div 28 g_BITS_PER_CHAR) = Ok h /\
    encodeGeohash (loc 0 0) 10 = Ok g /\
    geohashQuery h 28 = Ok (start, end_) /\
    JsString.le start g = true /\ JsString.le g end_ = true.
Proof.
  assert (Hv : validateLocation (loc 0 0) = Ok tt) by (apply validateLocation_ok; lra).
  split; [exact Hv|]. split; [lia|]. split; [vm_compute; discriminate|]. split; [lia|].
  apply (geohashQuery_holds_longer_hashes (loc 0 0) 28 10);
    [exact Hv | lia | vm_compute; discriminate | lia].
Defined.

Lemma geohashQuery_short_witness :
  validateGeohash "7z" = Ok tt /\
  JsString.len "7z" < ceil_div 28 g_BITS_PER_CHAR /\
  geohashQuery "7z" 28 = Ok ("7z", "7z" ++ "~") /\
  forall h, validateGeohash h = Ok tt ->
    (JsString.le "7z" h = true /\ JsString.le h ("7z" ++ "~") = true <->
     exists t, h = "7z" ++ t).
Proof.
  split; [reflexivity|]. split; [reflexivity|].
  apply (geohashQuery_short "7z" 28); reflexivity.
Defined.

Lemma boundingBoxCoordinates_locations_witness :
  (-90 <= 0 <= 90)%R /\ (-180 <= 0 <= 180)%R /\ (0 <= 1000)%R /\
  List.length (boundingBoxCoordinates (0%R, 0%R) 1000) = 9%nat /\
  nth_error (boundingBoxCoordinates (0%R, 0%R) 1000) 0 = Some (0%R, 0%R) /\
  Forall (fun c => validateLocation (loc (fst c) (snd c)) = Ok tt)
         (boundingBoxCoordinates (0%R, 0%R) 1000).
Proof.
  split; [lra|]. split; [lra|]. split; [lra|].
  apply (boundingBoxCoordinates_locations 0 0 1000); lra.
Defined.

Lemma metersToLongitudeDegrees_bounds_witness :
  (0 <= 1000)%R /\ (0 <= metersToLongitudeDegrees 1000 0 <= 360)%R.
Proof.
  split; [lra|]. apply (metersToLongitudeDegrees_bounds 1000 0). lra.
Defined.


Lemma geohashQueries_center_witness :
  (-90 <= 0 <= 90)%R /\ (-180 <= 0 <= 180)%R /\ (1 <= 1000)%R /\
  exists queries g,
    geohashQueries (loc 0 0) 1000 = Ok queries /\
    encodeGeohash (loc 0 0) g_GEOHASH_PRECISION = Ok g /\
    in_some_range g queries = true.
Proof.
  split; [lra|]. split; [lra|]. split; [lra|].
  apply (geohashQueries_center 0 0 1000); lra.
Defined.


Lemma set_then_get_witness :
  validateKey (VStr "A") = Ok tt /\ (-90 <= 1 <= 90)%R /\ (-180 <= 2 <= 180)%R /\
  exists data g,
    GeoFirestore_set (VStr "A") (loc 1 2) = Ok [DocSet "A" data] /\
    GeoFirestore_get (VStr "A") = Ok (VStr "A") /\
    GeoFirestore_get_then {| id := "A"; exists_ := true; data := data |} = Ok (loc 1 2) /\
    encodeGeohash (loc 1 2) g_GEOHASH_PRECISION = Ok g /\
    get_field data "g" = Ok (VStr g) /\
    GeoFirestore_remove (VStr "A") = Ok [DocDelete "A"] /\
    GeoFirestore_get_then {| id := "A"; exists_ := false; data := VUndefined |} = Ok VNull.
Proof.
  split; [reflexivity|]. split; [lra|]. split; [lra|].
  apply (set_then_get "A" 1 2); [reflexivity | lra | lra].
Defined.

Lemma range_key_round_trip_witness :
  Forall (fun c => c <> ":"%char) (list_ascii_of_string "s0") /\
  Forall (fun c => c <> ":"%char) (list_ascii_of_string "s1~") /\
  _stringToQuery (_queryToString ("s0", "s1~")) = Ok ("s0", "s1~") /\
  Dict.array_index (_queryToString ("s0", "s1~")) = None.
Proof.
  assert (H0 : Forall (fun c => c <> ":"%char) (list_ascii_of_string "s0"))
    by (repeat constructor; discriminate).
  assert (H1 : Forall (fun c => c <> ":"%char) (list_ascii_of_string "s1~"))
    by (repeat constructor; discriminate).
  split; [exact H0|]. split; [exact H1|].
  exact (range_key_round_trip "s0" "s1~" H0 H1).
Defined.

Lemma updateLocation_again_witness :
  (forall f, bodies world_A f = Returns) /\
  let w1 := snd (_updateLocation "A" (loc 0 (5 / 1000)) VNull world_A) in
  _updateLocation "A" (loc 0 (5 / 1000)) VNull w1 =
  (fst (_updateLocation "A" (loc 0 (5 / 1000)) VNull world_A), w1).
Proof.
  split; [intros f; reflexivity|].
  apply (updateLocation_again "A" (loc 0 (5 / 1000)) VNull world_A).
  intros f; reflexivity.
Defined.



Lemma cancel_clears_witness :
  ranges_wf (_currentGeohashesQueried world_sweep) = true /\
  nodupb (Dict.keys (_currentGeohashesQueried world_sweep)) = true /\
  let w := world_sweep in
  let w' := snd (cancel w) in
  fst (cancel w) = Ok tt /\
  _cancelled w' = true /\ _callbacks w' = no_callbacks /\
  _currentGeohashesQueried w' = [] /\ _locationsTracked w' = [] /\
  listeners w' = without_handles (range_handles (_currentGeohashesQueried w)) (listeners w) /\
  timers w' = match _cleanUpCurrentGeohashesQueriedInterval w with
              | Some h => remove_handle h (timers w)
              | None => timers w
              end /\
  calls w' = (calls w ++ [CancelReturned])%list.
Proof.
  split; [reflexivity|]. split; [reflexivity|].
  apply (cancel_clears world_sweep); reflexivity.
Defined.

Lemma value_listener_eval_witness :
  let w := set_outstandingGeohashReadyEvents [cell_range "0" "1"] world_A in
  (forall f, bodies w f = Returns) /\
  NoDup (_outstandingGeohashReadyEvents w) /\
  let awaited := List.remove string_dec (cell_range "0" "1")
                             (_outstandingGeohashReadyEvents w) in
  let fired := Nat.eqb (List.length awaited) 0 in
  value_listener 1 (cell_range "0" "1") w =
  (Ok tt,
   set_calls (calls w ++ if fired then map CallReady (ready (_callbacks w)) else [])
     (set_valueEventFired fired
        (set_outstandingGeohashReadyEvents awaited
           (set_listeners (remove_handle 1 (listeners w)) w)))).
Proof.
  assert (Hnd : NoDup (_outstandingGeohashReadyEvents
                         (set_outstandingGeohashReadyEvents [cell_range "0" "1"] world_A)))
    by (constructor; [intros [] | constructor]).
  split; [intros f; reflexivity|]. split; [exact Hnd|].
  apply (value_listener_eval 1 (cell_range "0" "1")
           (set_outstandingGeohashReadyEvents [cell_range "0" "1"] world_A));
    [intros f; reflexivity | exact Hnd].
Defined.

Lemma on_registers_witness :
  eventType_of_string "key_entered" = Some KeyEntered /\
  bodies world_sweep 1 = Returns /\
  nodupb (Dict.keys (_locationsTracked world_sweep)) = true /\
  on "key_entered" (VFun 1) world_sweep =
  (Ok {| _cancelCallback := Some (RemoveCallback KeyEntered 1) |},
   set_calls (calls world_sweep ++ replayed_calls 1 (_locationsTracked world_sweep))
     (set_callbacks
        (set_callbacks_for KeyEntered
           (callbacks_for KeyEntered (_callbacks world_sweep) ++ [1%nat])
           (_callbacks world_sweep)) world_sweep)).
Proof.
  split; [reflexivity|]. split; [reflexivity|]. split; [reflexivity|].
  apply (on_registers "key_entered" KeyEntered 1 world_sweep); reflexivity.
Defined.



Lemma removed_key_exits_witness :
  let e := {| location := loc 0 0; document := VNull; distanceFromCenter := 0;
              isInQuery := true; geohash := "t0" |} in
  let snapshot := {| id := "A"; exists_ := false; data := VUndefined |} in
  let w := world_sweep in
  (forall f, bodies w f = Returns) /\
  ranges_wf (_currentGeohashesQueried w) = true /\
  (forall k q, In k (Dict.keys (_currentGeohashesQueried w)) ->
               _stringToQuery k = Ok q -> no_number (snd q) = None) /\
  Dict.get "A" (_locationsTracked w) = Some e /\
  exists_ snapshot = false /\
  _childRemovedCallback_then no_number "A" snapshot w =
  (Ok tt,
   set_calls (calls w ++ if isInQuery e
                         then map (key_call KeyExited "A" VNull VNull VNull)
                                  (key_exited (_callbacks w))
                         else [])
     (set_locationsTracked (Dict.delete "A" (_locationsTracked w)) w)).
Proof.
  split; [intros f; reflexivity|]. split; [reflexivity|].
  split; [intros k q _ _; reflexivity|]. split; [reflexivity|]. split; [reflexivity|].
  apply (removed_key_exits no_number "A"
           {| location := loc 0 0; document := VNull; distanceFromCenter := 0;
              isInQuery := true; geohash := "t0" |}
           {| id := "A"; exists_ := false; data := VUndefined |} world_sweep);
    first [reflexivity | intros f; reflexivity | intros k q _ _; reflexivity].
Defined.

Lemma set_mapping_writes_witness :
  let props := [("A", loc 1 2); ("B", VNull)] in
  NoDup (map fst props) /\
  (is_ok (GeoFirestore_set (VObj props) VUndefined) = true <->
   Forall valid_entry props) /\
  (forall writes, GeoFirestore_set (VObj props) VUndefined = Ok writes ->
                  Forall2 write_for props writes).
Proof.
  assert (Hnd : NoDup (map fst [("A", loc 1 2); ("B", VNull)])).
  { constructor; [intros [E|[]]; discriminate E|]. constructor; [intros []|]. constructor. }
  split; [exact Hnd|].
  exact (set_mapping_writes [("A", loc 1 2); ("B", VNull)] Hnd).
Defined.
